(** * The Liquid Time-Stochasticity cell (src/src/lts.py): model and properties

    The forward pass of [LTSCell] is embedded as a state-and-cost monad over
    the cell object.  Tensors are a shape with row-major data, and every
    TensorFlow primitive the cell calls (broadcasting arithmetic,
    [tf.reduce_sum], [tf.reshape], indexing, [tf.nn.sigmoid]) is a partial
    function that fails where TensorFlow raises.

    Entries are values of an abstract scalar type: the arithmetic of the
    tensor runtime is an interface ([Scalar]), and no algebraic law is used
    unless a statement lists it.  The order of the additions is the order of
    the source. *)

From Stdlib Require Import List ZArith Lia Bool Arith.
From Stdlib Require QArith Qcanon Qcabs Reals Lra String.
Import ListNotations.

Set Implicit Arguments.

(** ** The scalar interface of the tensor runtime *)

Class Scalar (F : Type) : Type := {
  fzero : F;
  fone : F;
  fadd : F -> F -> F;
  fsub : F -> F -> F;
  fmul : F -> F -> F;
  fdiv : F -> F -> F;
  (* one entry of tf.nn.sigmoid *)
  fsigmoid : F -> F;
  (* Python's int() on a float *)
  fint : F -> Z
}.

Section LTS.

Variable F : Type.
Context {SF : Scalar F}.

(** ** Tensors *)

Record tensor : Type := mkTensor { shape : list nat; data : list F }.

Definition numel (s : list nat) : nat := fold_right Nat.mul 1 s.

(* all multi-indices of a shape, in row-major order *)
Fixpoint indices (s : list nat) : list (list nat) :=
  match s with
  | [] => [[]]
  | d :: s' => flat_map (fun i => map (cons i) (indices s')) (seq 0 d)
  end.

(* row-major position of a multi-index *)
Fixpoint offset (s idx : list nat) : nat :=
  match s, idx with
  | _ :: s', i :: idx' => i * numel s' + offset s' idx'
  | _, _ => 0
  end.

Definition get (t : tensor) (idx : list nat) : F :=
  nth (offset (shape t) idx) (data t) fzero.

Definition tab (s : list nat) (g : list nat -> F) : tensor :=
  mkTensor s (map g (indices s)).

Definition wf (t : tensor) : Prop := length (data t) = numel (shape t).

Definition in_range (s idx : list nat) : Prop := Forall2 lt idx s.

Definition scalar (x : F) : tensor := mkTensor [] [x].

(* the sum of a reduction: the terms are added from the left, starting at
   zero *)
Definition fsum (l : list F) : F := fold_left fadd l fzero.

(** *** Broadcasting *)

Definition bdim (x y : nat) : option nat :=
  if x =? 1 then Some y
  else if y =? 1 then Some x
  else if x =? y then Some x
  else None.

(* shapes aligned at their last axis: both arguments are reversed shapes *)
Fixpoint bshape_rev (a b : list nat) : option (list nat) :=
  match a, b with
  | [], _ => Some b
  | _, [] => Some a
  | x :: a', y :: b' =>
      match bdim x y, bshape_rev a' b' with
      | Some d, Some r => Some (d :: r)
      | _, _ => None
      end
  end.

Definition broadcast_shape (a b : list nat) : option (list nat) :=
  option_map (@rev nat) (bshape_rev (rev a) (rev b)).

(* the index of an operand of shape [s] read at index [idx] of the result *)
Definition bindex (s idx : list nat) : list nat :=
  map (fun di => if fst di =? 1 then 0 else snd di)
      (combine s (skipn (length idx - length s) idx)).

Definition broadcast2 (f : F -> F -> F) (a b : tensor) : option tensor :=
  match broadcast_shape (shape a) (shape b) with
  | Some s =>
      Some (tab s (fun idx => f (get a (bindex (shape a) idx))
                                (get b (bindex (shape b) idx))))
  | None => None
  end.

Definition t_add := broadcast2 fadd.
Definition t_sub := broadcast2 fsub.
Definition t_mul := broadcast2 fmul.
Definition t_div := broadcast2 fdiv.

(* tf.nn.sigmoid *)
Definition t_sigmoid (t : tensor) : tensor :=
  mkTensor (shape t) (map fsigmoid (data t)).

(** *** tf.reduce_sum along one axis *)

Definition reduce_sum (t : tensor) (axis : nat) : option tensor :=
  if axis <? length (shape t) then
    let d := nth axis (shape t) 0 in
    let s' := firstn axis (shape t) ++ skipn (S axis) (shape t) in
    Some (tab s' (fun idx =>
      fsum (map (fun r => get t (firstn axis idx ++ r :: skipn axis idx))
                (seq 0 d))))
  else None.

(** *** tf.reshape, with at most one dimension given as -1 *)

Definition resolve_shape (size : nat) (dims : list Z) : option (list nat) :=
  if forallb (fun d => (-1 <=? d)%Z) dims then
    match length (filter (fun d => (d =? -1)%Z) dims) with
    | 0 =>
        if numel (map Z.to_nat dims) =? size
        then Some (map Z.to_nat dims) else None
    | 1 =>
        let p := numel (map Z.to_nat (filter (fun d => negb (d =? -1)%Z) dims)) in
        if p =? 0 then None
        else if size mod p =? 0
        then Some (map (fun d => if (d =? -1)%Z then size / p else Z.to_nat d) dims)
        else None
    | _ => None
    end
  else None.

Definition reshape (t : tensor) (dims : list Z) : option tensor :=
  match resolve_shape (numel (shape t)) dims with
  | Some s => Some (mkTensor s (data t))
  | None => None
  end.

(* t.shape[-1] *)
Definition last_dim (t : tensor) : option nat :=
  match rev (shape t) with
  | d :: _ => Some d
  | [] => None
  end.

(** *** Indexing and Python values *)

(* t[0] *)
Definition index0 (t : tensor) : option tensor :=
  match shape t with
  | d :: s =>
      if 0 <? d then Some (mkTensor s (firstn (numel s) (data t))) else None
  | [] => None
  end.

(* [states] is what the caller passes: a tuple of tensors (the recurrent-cell
   convention) or a tensor (what the solver loop rebinds it to) *)
Inductive pyval : Type :=
  | PTuple (ts : list tensor)
  | PTensor (t : tensor).

Fixpoint shape_eqb (a b : list nat) : bool :=
  match a, b with
  | [], [] => true
  | x :: a', y :: b' => (x =? y) && shape_eqb a' b'
  | _, _ => false
  end.

(* conversion of a tuple of tensors to one tensor *)
Definition stack (ts : list tensor) : option tensor :=
  match ts with
  | [] => Some (mkTensor [0] [])
  | t :: r =>
      if forallb (fun t' => shape_eqb (shape t') (shape t)) r
      then Some (mkTensor (length ts :: shape t) (concat (map data ts)))
      else None
  end.

(* v[0] *)
Definition py_index0 (v : pyval) : option tensor :=
  match v with
  | PTuple (t :: _) => Some t
  | PTuple [] => None
  | PTensor t => index0 t
  end.

(* v + t: a tuple on the left is handed to the tensor's reflected addition,
   which converts it first *)
Definition py_add (v : pyval) (t : tensor) : option tensor :=
  match v with
  | PTensor a => t_add a t
  | PTuple ts =>
      match stack ts with
      | Some a => t_add a t
      | None => None
      end
  end.

Definition ones (n : nat) : tensor := mkTensor [n] (repeat fone n).
Definition zeros (n : nat) : tensor := mkTensor [n] (repeat fzero n).

(** ** The cell object

    The record is the [LTSCell] instance once [build] has run: the variables
    of [_init_variables] exist, [_input_weights] and [_input_biases] are
    still [None] until the first [call].  The initialisation ranges and the
    clamping bounds set in [__init__] are not read by the forward pass and
    are left out. *)

Record LTSCell : Type := mkCell {
  units : nat;
  input_size : nat;
  _time_step : F;
  _brownian_motion : tensor;
  _sde_solver_unfolds : nat;
  sensory_mu : tensor;
  sensory_sigma : tensor;
  sensory_W : tensor;
  sensory_erev : tensor;
  mu : tensor;
  sigma : tensor;
  W : tensor;
  erev : tensor;
  vleak : tensor;
  gleak : tensor;
  cm_t : tensor;
  _input_weights : option tensor;
  _input_biases : option tensor
}.

Definition set_input_weights (c : LTSCell) (w : option tensor) : LTSCell :=
  mkCell (units c) (input_size c) (_time_step c) (_brownian_motion c)
    (_sde_solver_unfolds c) (sensory_mu c) (sensory_sigma c) (sensory_W c)
    (sensory_erev c) (mu c) (sigma c) (W c) (erev c) (vleak c) (gleak c)
    (cm_t c) w (_input_biases c).

Definition set_input_biases (c : LTSCell) (b : option tensor) : LTSCell :=
  mkCell (units c) (input_size c) (_time_step c) (_brownian_motion c)
    (_sde_solver_unfolds c) (sensory_mu c) (sensory_sigma c) (sensory_W c)
    (sensory_erev c) (mu c) (sigma c) (W c) (erev c) (vleak c) (gleak c)
    (cm_t c) (_input_weights c) b.

(** ** The monad of the methods

    A method reads and writes [self], may raise, and is charged one unit for
    every execution of the conductance-balance assignment
    [v_pre = numerator / denominator]; the charge is not visible to the
    program. *)

Definition M (A : Type) : Type := LTSCell -> option (A * LTSCell * nat).

Definition ret {A} (a : A) : M A := fun c => Some (a, c, 0).

Definition bind {A B} (m : M A) (f : A -> M B) : M B :=
  fun c =>
    match m c with
    | Some (a, c1, n1) =>
        match f a c1 with
        | Some (b, c2, n2) => Some (b, c2, n1 + n2)
        | None => None
        end
    | None => None
    end.

Definition get_self : M LTSCell := fun c => Some (c, c, 0).
Definition put_self (c' : LTSCell) : M unit := fun _ => Some (tt, c', 0).
Definition tick : M unit := fun c => Some (tt, c, 1).

Definition lift {A} (o : option A) : M A :=
  fun c => match o with Some a => Some (a, c, 0) | None => None end.

(* for _ in range(n): x = body(x) *)
Fixpoint for_range {A} (n : nat) (body : A -> M A) (x : A) : M A :=
  match n with
  | 0 => ret x
  | S k => bind (body x) (for_range k body)
  end.

Notation "x <- m ;; k" := (bind m (fun x => k))
  (at level 100, m at next level, right associativity).
Notation "m ;;; k" := (bind m (fun _ => k))
  (at level 100, right associativity).

(** ** The methods of [LTSCell] *)

Definition _sigmoid (v_pre mu sigma : tensor) : option tensor :=
  match last_dim v_pre with
  | None => None
  | Some n =>
      match reshape v_pre [(-1)%Z; Z.of_nat n; 1%Z] with
      | None => None
      | Some v_pre =>
          match t_sub v_pre mu with
          | None => None
          | Some mues =>
              match t_mul sigma mues with
              | None => None
              | Some x => Some (t_sigmoid x)
              end
          end
      end
  end.

Definition _sde_solver_diffusion (inputs : tensor) (states : pyval) : M tensor :=
  ret (scalar fone).

(* the body of the loop of [_sde_solver_drift]: one conductance-balance
   update of [v_pre] *)
Definition drift_update (w_numerator_sensory w_denominator_sensory v_pre : tensor)
  : M tensor :=
  self <- get_self ;;
  sg <- lift (_sigmoid v_pre (mu self) (sigma self)) ;;
  w_activation <- lift (t_mul (W self) sg) ;;
  rev_activation <- lift (t_mul w_activation (erev self)) ;;
  rs <- lift (reduce_sum rev_activation 1) ;;
  w_numerator <- lift (t_add rs w_numerator_sensory) ;;
  ws <- lift (reduce_sum w_activation 1) ;;
  w_denominator <- lift (t_add ws w_denominator_sensory) ;;
  cv <- lift (t_mul (cm_t self) v_pre) ;;
  gv <- lift (t_mul (gleak self) (vleak self)) ;;
  cg <- lift (t_add cv gv) ;;
  numerator <- lift (t_add cg w_numerator) ;;
  cl <- lift (t_add (cm_t self) (gleak self)) ;;
  denominator <- lift (t_add cl w_denominator) ;;
  v_pre <- lift (t_div numerator denominator) ;;
  tick ;;;
  ret v_pre.

Definition _sde_solver_drift (inputs : tensor) (states : pyval) : M tensor :=
  v_pre <- lift (py_index0 states) ;;
  self <- get_self ;;
  sg <- lift (_sigmoid inputs (sensory_mu self) (sensory_sigma self)) ;;
  sensory_w_activation <- lift (t_mul (sensory_W self) sg) ;;
  sensory_rev_activation <-
    lift (t_mul sensory_w_activation (sensory_erev self)) ;;
  w_numerator_sensory <- lift (reduce_sum sensory_rev_activation 1) ;;
  w_denominator_sensory <- lift (reduce_sum sensory_w_activation 1) ;;
  self <- get_self ;;
  for_range (_sde_solver_unfolds self)
            (drift_update w_numerator_sensory w_denominator_sensory) v_pre.

(* the body of the loop of [_sde_solver_euler_maruyama]: one sub-step *)
Definition euler_maruyama_update (inputs : tensor) (states : pyval) : M pyval :=
  drift <- _sde_solver_drift inputs states ;;
  diffusion <- _sde_solver_diffusion inputs states ;;
  self <- get_self ;;
  dt <- lift (t_mul drift (scalar (_time_step self))) ;;
  sd <- lift (py_add states dt) ;;
  self <- get_self ;;
  db <- lift (t_mul diffusion (_brownian_motion self)) ;;
  states <- lift (t_add sd db) ;;
  self <- get_self ;;
  states <- lift (reshape states
                    [fint (_time_step self); Z.of_nat (units self)]) ;;
  ret (PTensor states).

Definition _sde_solver_euler_maruyama (inputs : tensor) (states : pyval)
  : M pyval :=
  self <- get_self ;;
  for_range (_sde_solver_unfolds self) (euler_maruyama_update inputs) states.

Definition _map_weights_and_biases (inputs : tensor) : M tensor :=
  self <- get_self ;;
  match _input_weights self with
  | None => put_self (set_input_weights self (Some (ones (input_size self))))
  | Some _ => ret tt
  end ;;;
  self <- get_self ;;
  match _input_biases self with
  | None => put_self (set_input_biases self (Some (zeros (input_size self))))
  | Some _ => ret tt
  end ;;;
  self <- get_self ;;
  w <- lift (_input_weights self) ;;
  inputs <- lift (t_mul inputs w) ;;
  self <- get_self ;;
  b <- lift (_input_biases self) ;;
  inputs <- lift (t_add inputs b) ;;
  ret inputs.

Definition call (inputs : tensor) (states : pyval) : M (pyval * pyval) :=
  inputs <- _map_weights_and_biases inputs ;;
  next_state <- _sde_solver_euler_maruyama inputs states ;;
  let output := next_state in
  ret (output, next_state).

(** ** The update rules in entry form

    The same computation written entry by entry on vectors (lists of
    scalars), as the specification words it: these are what the methods are
    compared with. *)

Definition vget (v : list F) (i : nat) : F := nth i v fzero.

(* entry of a per-unit parameter stored as a scalar or as a vector *)
Definition unit_entry (t : tensor) (j : nat) : F :=
  match shape t with
  | [] => vget (data t) 0
  | _ => vget (data t) j
  end.

(* sigmoid(sigma[i,j] * (v[i] - mu[i,j])) *)
Definition gate (sigma mu : tensor) (v : list F) (i j : nat) : F :=
  fsigmoid (fmul (get sigma [i; j]) (fsub (vget v i) (get mu [i; j]))).

Definition sensory_w (c : LTSCell) (x : list F) (i j : nat) : F :=
  fmul (get (sensory_W c) [i; j]) (gate (sensory_sigma c) (sensory_mu c) x i j).

Definition sensory_numerator (c : LTSCell) (x : list F) : list F :=
  map (fun j =>
         fsum (map (fun i => fmul (sensory_w c x i j) (get (sensory_erev c) [i; j]))
                   (seq 0 (input_size c))))
      (seq 0 (units c)).

Definition sensory_denominator (c : LTSCell) (x : list F) : list F :=
  map (fun j => fsum (map (fun i => sensory_w c x i j) (seq 0 (input_size c))))
      (seq 0 (units c)).

Definition recurrent_w (c : LTSCell) (v : list F) (i j : nat) : F :=
  fmul (get (W c) [i; j]) (gate (sigma c) (mu c) v i j).

(* one conductance-balance update of v_pre *)
Definition balance (c : LTSCell) (sn sd v : list F) : list F :=
  map (fun j =>
         fdiv
           (fadd (fadd (fmul (unit_entry (cm_t c) j) (vget v j))
                       (fmul (unit_entry (gleak c) j) (unit_entry (vleak c) j)))
                 (fadd (fsum (map (fun i => fmul (recurrent_w c v i j)
                                                 (get (erev c) [i; j]))
                                  (seq 0 (units c))))
                       (vget sn j)))
           (fadd (fadd (unit_entry (cm_t c) j) (unit_entry (gleak c) j))
                 (fadd (fsum (map (fun i => recurrent_w c v i j) (seq 0 (units c))))
                       (vget sd j))))
      (seq 0 (units c)).

Definition drift_rule (c : LTSCell) (x v : list F) : list F :=
  Nat.iter (_sde_solver_unfolds c)
           (balance c (sensory_numerator c x) (sensory_denominator c x)) v.

(* one Euler-Maruyama sub-step *)
Definition em_step (c : LTSCell) (x s : list F) : list F :=
  map (fun j =>
         fadd (fadd (vget s j) (fmul (vget (drift_rule c x s) j) (_time_step c)))
              (fmul fone (vget (data (_brownian_motion c)) j)))
      (seq 0 (units c)).

(* the sub-step without its noise term *)
Definition euler_step (c : LTSCell) (x s : list F) : list F :=
  map (fun j => fadd (vget s j) (fmul (vget (drift_rule c x s) j) (_time_step c)))
      (seq 0 (units c)).

(* the update with no synaptic term *)
Definition leak (c : LTSCell) (v : list F) : list F :=
  map (fun j =>
         fdiv (fadd (fmul (unit_entry (cm_t c) j) (vget v j))
                    (fmul (unit_entry (gleak c) j) (unit_entry (vleak c) j)))
              (fadd (unit_entry (cm_t c) j) (unit_entry (gleak c) j)))
      (seq 0 (units c)).

(* the cell after the lazy creation of the input weights and biases *)
Definition with_input_map (c : LTSCell) : LTSCell :=
  let c1 := match _input_weights c with
            | None => set_input_weights c (Some (ones (input_size c)))
            | Some _ => c
            end in
  match _input_biases c1 with
  | None => set_input_biases c1 (Some (zeros (input_size c1)))
  | Some _ => c1
  end.

Definition opt_data (o : option tensor) : list F :=
  match o with Some t => data t | None => [] end.

(* mapped = input * weight + bias *)
Definition mapped (c : LTSCell) (x : list F) : list F :=
  map (fun i =>
         fadd (fmul (vget x i) (vget (opt_data (_input_weights (with_input_map c))) i))
              (vget (opt_data (_input_biases (with_input_map c))) i))
      (seq 0 (input_size c)).

(** ** Configured cells and admissible arguments *)

Definition per_unit (u : nat) (t : tensor) : Prop :=
  shape t = [] \/ shape t = [u].

Definition opt_shape (s : list nat) (o : option tensor) : Prop :=
  match o with Some t => shape t = s | None => True end.

(* the shapes [_init_variables] gives the variables, for [units = u] and
   [input_size = m]; [gleak] and [cm_t] are scalars unless fixed per unit *)
Record configured (c : LTSCell) (m u : nat) : Prop := {
  cfg_units : units c = u;
  cfg_input_size : input_size c = m;
  cfg_units_pos : 0 < u;
  cfg_input_pos : 0 < m;
  cfg_time_step : fint (_time_step c) = 1%Z;
  cfg_noise : shape (_brownian_motion c) = [u];
  cfg_sensory_mu : shape (sensory_mu c) = [m; u];
  cfg_sensory_sigma : shape (sensory_sigma c) = [m; u];
  cfg_sensory_W : shape (sensory_W c) = [m; u];
  cfg_sensory_erev : shape (sensory_erev c) = [m; u];
  cfg_mu : shape (mu c) = [u; u];
  cfg_sigma : shape (sigma c) = [u; u];
  cfg_W : shape (W c) = [u; u];
  cfg_erev : shape (erev c) = [u; u];
  cfg_vleak : shape (vleak c) = [u];
  cfg_gleak : per_unit u (gleak c);
  cfg_cm_t : per_unit u (cm_t c);
  cfg_input_weights : opt_shape [m] (_input_weights c);
  cfg_input_biases : opt_shape [m] (_input_biases c)
}.

(* a batch of one row of [n] entries *)
Definition row (n : nat) (t : tensor) : Prop :=
  shape t = [1; n] /\ length (data t) = n.

(* the state as the caller hands it over: a [1, units] tensor, bare or as
   the one element of a tuple *)
Inductive state_of (u : nat) : pyval -> tensor -> Prop :=
  | state_tensor t : row u t -> state_of u (PTensor t) t
  | state_tuple t : row u t -> state_of u (PTuple [t]) t.

(* the other ways to hand over [units] values that a sub-step takes in: a
   flat vector as the one element of a tuple, and a bare [1, 1, units]
   tensor *)
Inductive accepted (u : nat) : pyval -> tensor -> Prop :=
  | accepted_row s t : state_of u s t -> accepted u s t
  | accepted_flat t :
      shape t = [u] -> length (data t) = u -> accepted u (PTuple [t]) t
  | accepted_stacked t :
      shape t = [1; 1; u] -> length (data t) = u -> accepted u (PTensor t) t.

Definition state_data (v : pyval) : list F :=
  match v with
  | PTensor t => data t
  | PTuple ts => concat (map data ts)
  end.

Definition state_shape (v : pyval) : option (list nat) :=
  match v with
  | PTensor t => Some (shape t)
  | PTuple [t] => Some (shape t)
  | PTuple _ => None
  end.

Definition all_zero (t : tensor) : Prop := Forall (fun e => e = fzero) (data t).

(* the constants [__init__] sets *)
Definition initialised (c : LTSCell) : Prop :=
  _time_step c = fone /\ _sde_solver_unfolds c = 6.

(** ** Row-shaped tensors

    The shapes the per-unit quantities take along the solver: a scalar, a
    vector, a batch of one vector, and the stacked one-element tuple. *)

Inductive rowshape (u : nat) : list nat -> Prop :=
  | rowshape_scalar : rowshape u []
  | rowshape_vec : rowshape u [u]
  | rowshape_row : rowshape u [1; u]
  | rowshape_stacked : rowshape u [1; 1; u].

Definition longer (a b : list nat) : list nat :=
  if length a <? length b then b else a.

Definition width (u : nat) (s : list nat) : nat :=
  match s with [] => 1 | _ => u end.


(* what a broadcasting operation yields on two row-shaped tensors *)
Definition rows_result (f : F -> F -> F) (u : nat) (a b : tensor) : tensor :=
  mkTensor (longer (shape a) (shape b))
    (map (fun j => f (unit_entry a j) (unit_entry b j))
         (seq 0 (width u (longer (shape a) (shape b))))).


(* a computation that leaves [self] as it found it *)
Definition read_only {A} (m : M A) : Prop :=
  forall c r c' n, m c = Some (r, c', n) -> c' = c.


(* the variables of [_init_variables] and the constants of [__init__] agree *)
Record same_variables (c c' : LTSCell) : Prop := {
  sv_units : units c' = units c;
  sv_input_size : input_size c' = input_size c;
  sv_time_step : _time_step c' = _time_step c;
  sv_noise : _brownian_motion c' = _brownian_motion c;
  sv_unfolds : _sde_solver_unfolds c' = _sde_solver_unfolds c;
  sv_sensory_mu : sensory_mu c' = sensory_mu c;
  sv_sensory_sigma : sensory_sigma c' = sensory_sigma c;
  sv_sensory_W : sensory_W c' = sensory_W c;
  sv_sensory_erev : sensory_erev c' = sensory_erev c;
  sv_mu : mu c' = mu c;
  sv_sigma : sigma c' = sigma c;
  sv_W : W c' = W c;
  sv_erev : erev c' = erev c;
  sv_vleak : vleak c' = vleak c;
  sv_gleak : gleak c' = gleak c;
  sv_cm_t : cm_t c' = cm_t c
}.

(* input weights and biases that exist are kept *)
Definition keeps_input_map (c c' : LTSCell) : Prop :=
  (forall w, _input_weights c = Some w -> _input_weights c' = Some w) /\
  (forall b, _input_biases c = Some b -> _input_biases c' = Some b).

(* the laws of exact arithmetic the degenerate cases rest on; binary
   floating point has them on finite values up to the sign of zero *)
Record exact_zero_one : Prop := {
  fmul_zero_l : forall x, fmul fzero x = fzero;
  fadd_zero_r : forall x, fadd x fzero = x;
  fmul_one_l : forall x, fmul fone x = x
}.

End LTS.

Arguments get_self {F}.
Arguments tick {F}.
Arguments ret {F A} a.
Arguments lift {F A} o.
Arguments exact_zero_one F {SF}.

(** ** Construction of the cell: [__init__], [build], [_init_variables]

    The random draws and the literals of the source come from the runtime:
    a generator state is threaded through the draws, in the order of the
    source. *)

Class Runtime (F G : Type) : Type := {
  (* a Python number as a tensor entry *)
  of_Q : QArith_base.Q -> F;
  (* one entry of tf.sqrt *)
  fsqrt : F -> F;
  (* tf.random.uniform and np.random.uniform: shape, low, high *)
  random_uniform :
    list nat -> QArith_base.Q -> QArith_base.Q -> G -> tensor F * G;
  (* np.random.randint: low, high, size; the entries in row-major order *)
  random_randint : Z -> Z -> list nat -> G -> list Z * G;
  (* tf.random.normal: shape, mean, stddev *)
  random_normal : list nat -> F -> F -> G -> tensor F * G
}.

Section Construction.

Variables F G : Type.
Context {SF : Scalar F} {RT : Runtime F G}.

#[local] Abbreviation Q := QArith_base.Q.
#[local] Abbreviation Qmake := QArith_base.Qmake.

(* the attributes [__init__] sets; the [_fix_*] values are tensors when the
   user has set them *)
Record Layer : Type := mkLayer {
  layer_units : nat;
  layer_input_size : Z;
  layer_built : bool;
  layer_time_step : F;
  layer_sde_solver_unfolds : nat;
  _erev_init_factor : Z;
  _w_init_max : Q;
  _w_init_min : Q;
  _cm_init_min : Q;
  _cm_init_max : Q;
  _gleak_init_min : Q;
  _gleak_init_max : Q;
  _w_min_value : Q;
  _w_max_value : Q;
  _gleak_min_value : Q;
  _gleak_max_value : Q;
  _cm_t_min_value : Q;
  _cm_t_max_value : Q;
  _fix_cm : option (tensor F);
  _fix_gleak : option (tensor F);
  _fix_vleak : option (tensor F)
}.

Definition __init__ (units : nat) : Layer :=
  mkLayer units (-1) false fone 6 1
    (Qmake 1 1) (Qmake 1 100)
    (Qmake 1 2) (Qmake 1 2)
    (Qmake 1 1) (Qmake 1 1)
    (Qmake 1 100000) (Qmake 1000 1)
    (Qmake 1 100000) (Qmake 1000 1)
    (Qmake 1 1000000) (Qmake 1000 1)
    None None None.

(* the state_size property *)
Definition state_size (l : Layer) : nat := layer_units l.

(* draws and checks: the generator is threaded, a failed check raises *)
Definition Init (A : Type) : Type := G -> option (A * G).

Definition init_ret {A} (a : A) : Init A := fun g => Some (a, g).

Definition init_bind {A B} (m : Init A) (f : A -> Init B) : Init B :=
  fun g => match m g with
           | Some (a, g') => f a g'
           | None => None
           end.

Definition draw {A} (f : G -> A * G) : Init A := fun g => Some (f g).

Definition check {A} (o : option A) : Init A :=
  fun g => match o with Some a => Some (a, g) | None => None end.

(* tf.Variable(initial_value, shape = s): the shapes must agree *)
Definition variable_of_shape (t : tensor F) (s : list nat) : option (tensor F) :=
  if shape_eqb (shape t) s then Some t else None.

(* tf.constant of an integer array of the given shape, as floats *)
Definition constant_of_ints (s : list nat) (zs : list Z) : tensor F :=
  mkTensor s (map (fun z => of_Q (QArith_base.inject_Z z)) zs).

(* 2 * randint(0, 2, size) - 1, times the factor *)
Definition erev_init (factor : Z) (zs : list Z) : list Z :=
  map (fun z => ((2 * z - 1) * factor)%Z) zs.

(* a per-unit parameter: fixed by the user, or the constant [lo], or drawn
   between [lo] and [hi] when [hi > lo] *)
Definition per_unit_variable (units : nat) (fixed : option (tensor F))
           (lo hi : Q) : Init (tensor F) :=
  match fixed with
  | None =>
      if negb (QArith_base.Qle_bool hi lo)
      then draw (random_uniform [units] lo hi)
      else init_ret (scalar (of_Q lo))
  | Some t => check (variable_of_shape t [units])
  end.

Notation "x <~ m ;; k" := (init_bind m (fun x => k))
  (at level 100, m at next level, right associativity).

Definition _init_variables (l : Layer) : Init (LTSCell F) :=
  if (layer_input_size l <? 0)%Z then check None else
  let input_size := Z.to_nat (layer_input_size l) in
  let units := layer_units l in
  sensory_mu <~ draw (random_uniform [input_size; units]
                        (Qmake 3 10) (Qmake 8 10)) ;;
  sensory_sigma <~ draw (random_uniform [input_size; units]
                           (Qmake 3 1) (Qmake 8 1)) ;;
  sw <~ draw (random_uniform [input_size; units]
                (_w_init_min l) (_w_init_max l)) ;;
  sensory_W <~ check (variable_of_shape sw [input_size; units]) ;;
  se <~ draw (random_randint 0 2 [input_size; units]) ;;
  sensory_erev <~
    check (variable_of_shape
             (constant_of_ints [input_size; units]
                (erev_init (_erev_init_factor l) se))
             [input_size; units]) ;;
  mu <~ draw (random_uniform [units; units] (Qmake 3 10) (Qmake 8 10)) ;;
  sigma <~ draw (random_uniform [units; units] (Qmake 3 1) (Qmake 8 1)) ;;
  w <~ draw (random_uniform [units; units] (_w_init_min l) (_w_init_max l)) ;;
  W <~ check (variable_of_shape w [units; units]) ;;
  e <~ draw (random_randint 0 2 [units; units]) ;;
  erev <~
    check (variable_of_shape
             (constant_of_ints [units; units]
                (erev_init (_erev_init_factor l) e))
             [units; units]) ;;
  brownian <~ draw (random_normal [units] (of_Q (Qmake 0 1))
                      (fsqrt (layer_time_step l))) ;;
  vleak <~
    match _fix_vleak l with
    | None => draw (random_uniform [units] (Qmake (-2) 10) (Qmake 2 10))
    | Some t => check (variable_of_shape t [units])
    end ;;
  gleak <~ per_unit_variable units (_fix_gleak l)
             (_gleak_init_min l) (_gleak_init_max l) ;;
  cm_t <~ per_unit_variable units (_fix_cm l)
            (_cm_init_min l) (_cm_init_max l) ;;
  init_ret (mkCell units input_size (layer_time_step l) brownian
              (layer_sde_solver_unfolds l)
              sensory_mu sensory_sigma sensory_W sensory_erev
              mu sigma W erev vleak gleak cm_t None None).

Definition set_input_size (l : Layer) (n : Z) : Layer :=
  mkLayer (layer_units l) n (layer_built l) (layer_time_step l)
    (layer_sde_solver_unfolds l) (_erev_init_factor l)
    (_w_init_max l) (_w_init_min l) (_cm_init_min l) (_cm_init_max l)
    (_gleak_init_min l) (_gleak_init_max l)
    (_w_min_value l) (_w_max_value l) (_gleak_min_value l) (_gleak_max_value l)
    (_cm_t_min_value l) (_cm_t_max_value l)
    (_fix_cm l) (_fix_gleak l) (_fix_vleak l).

(* build: the last entry of the input shape becomes [input_size], then the
   variables are created; the result is the built cell *)
Definition build (input_shape : list nat) (l : Layer) : Init (LTSCell F) :=
  match rev input_shape with
  | [] => check None
  | n :: _ => _init_variables (set_input_size l (Z.of_nat n))
  end.

(* what is asked of the draws: the requested shape, and integers in the
   requested range *)
Record draws_as_requested : Prop := {
  uniform_shape :
    forall s lo hi g, shape (fst (random_uniform s lo hi g)) = s;
  randint_range :
    forall lo hi s g,
      (lo < hi)%Z ->
      Forall (fun z => (lo <= z < hi)%Z) (fst (random_randint lo hi s g));
  normal_shape :
    forall s mean sd g, shape (fst (random_normal s mean sd g)) = s
}.

(* no parameter has been fixed by the user *)
Definition nothing_fixed (l : Layer) : Prop :=
  _fix_cm l = None /\ _fix_gleak l = None /\ _fix_vleak l = None.

End Construction.

Arguments __init__ {F SF} units.
Arguments draws_as_requested F G {RT}.

(** ** A runnable instance: exact rationals

    The model runs on canonical rationals, with an algebraic function
    standing in for the logistic function (which has no rational values). *)

Module Rational.

Import QArith Qcanon Qcabs.
#[local] Open Scope nat_scope.

Definition q (a : Z) (b : positive) : Qc := Q2Qc (a # b).

Definition sigmoid (x : Qc) : Qc :=
  (q 1 2 + x / (q 2 1 * (q 1 1 + Qcabs x)))%Qc.

Definition int (x : Qc) : Z := Z.quot (Qnum (this x)) (Zpos (Qden (this x))).

#[export] Instance Qc_scalar : Scalar Qc := {
  fzero := q 0 1;
  fone := q 1 1;
  fadd := Qcplus;
  fsub := Qcminus;
  fmul := Qcmult;
  fdiv := Qcdiv;
  fsigmoid := sigmoid;
  fint := int
}.

Definition vec (l : list Qc) : tensor Qc := mkTensor [length l] l.
Definition mat (r k : nat) (l : list Qc) : tensor Qc := mkTensor [r; k] l.

(* a cell with two units and three input features *)
Definition cell (unfolds : nat) (w sw : list Qc) : LTSCell Qc :=
  mkCell 2 3 (q 1 1) (vec [q 1 10; q (-1) 5]) unfolds
    (mat 3 2 [q 3 10; q 1 2; q 2 5; q 4 5; q 1 2; q 3 5])
    (mat 3 2 [q 3 1; q 4 1; q 5 1; q 6 1; q 7 1; q 8 1])
    (mat 3 2 sw)
    (mat 3 2 [q 1 1; q (-1) 1; q 1 1; q 1 1; q (-1) 1; q 1 1])
    (mat 2 2 [q 3 10; q 4 5; q 1 2; q 7 10])
    (mat 2 2 [q 3 1; q 5 1; q 8 1; q 4 1])
    (mat 2 2 w)
    (mat 2 2 [q 1 1; q (-1) 1; q (-1) 1; q 1 1])
    (vec [q 1 10; q (-1) 10])
    (scalar (q 1 1))
    (scalar (q 1 2))
    None None.

Definition some_w : list Qc := [q 1 2; q 1 4; q 3 4; q 1 1].
Definition some_sw : list Qc := [q 1 2; q 1 3; q 1 4; q 1 5; q 1 6; q 1 7].
Definition zero_w : list Qc := [q 0 1; q 0 1; q 0 1; q 0 1].
Definition zero_sw : list Qc := [q 0 1; q 0 1; q 0 1; q 0 1; q 0 1; q 0 1].

Definition default_cell : LTSCell Qc := cell 6 some_w some_sw.
Definition one_unfold_cell : LTSCell Qc := cell 1 some_w some_sw.
Definition zero_weight_cell : LTSCell Qc := cell 6 zero_w zero_sw.
Definition quiet_cell : LTSCell Qc :=
  mkCell 2 3 (q 1 1) (vec [q 0 1; q 0 1]) 6
    (sensory_mu default_cell) (sensory_sigma default_cell)
    (sensory_W default_cell) (sensory_erev default_cell)
    (mu default_cell) (sigma default_cell) (W default_cell) (erev default_cell)
    (vleak default_cell) (gleak default_cell) (cm_t default_cell) None None.

Definition input : tensor Qc := mkTensor [1; 3] [q 1 10; q 1 5; q 3 10].
Definition other_input : tensor Qc := mkTensor [1; 3] [q 2 1; q 0 1; q (-1) 1].
Definition state0 : tensor Qc := mkTensor [1; 2] [q 0 1; q 0 1].

End Rational.

(** ** A runtime for the rational instance

    The draws are replaced by a counter-driven generator: a uniform draw
    returns its lower bound everywhere, an integer draw cycles through the
    range, a normal draw returns its mean.  The square root is not rational
    and is replaced by the identity. *)

Module RationalRuntime.

Import QArith Qcanon.
#[local] Open Scope nat_scope.

Definition constant_tensor (s : list nat) (x : Qc) : tensor Qc :=
  mkTensor s (repeat x (numel s)).

Definition cycle (lo hi : Z) (s : list nat) (g : nat) : list Z :=
  map (fun i => (lo + Z.of_nat i mod (hi - lo))%Z) (seq g (numel s)).

#[export] Instance Qc_runtime : Runtime Qc nat := {
  of_Q := Q2Qc;
  fsqrt := fun x => x;
  random_uniform := fun s lo hi g => (constant_tensor s (Q2Qc lo), S g);
  random_randint := fun lo hi s g => (cycle lo hi s g, g + numel s);
  random_normal := fun s mean sd g => (constant_tensor s mean, S g)
}.

Definition fixed_layer (units : nat) (t : tensor Qc) : Layer Qc :=
  mkLayer units (-1) false (Rational.q 1 1) 6 1
    (1 # 1) (1 # 100) (1 # 2) (1 # 2) (1 # 1) (1 # 1)
    (1 # 100000) (1000 # 1) (1 # 100000) (1000 # 1) (1 # 1000000) (1000 # 1)
    None None (Some t).

End RationalRuntime.

(** ** The idealised instance: real numbers

    Exact real arithmetic with the logistic function itself. *)

Module Real.

Import Reals.
#[local] Open Scope R_scope.

Definition sigmoid (x : R) : R := / (1 + exp (- x)).

(* truncation toward zero *)
Definition int (x : R) : Z :=
  if Rle_dec 0 x then Int_part x else (- Int_part (- x))%Z.

#[export] Instance R_scalar : Scalar R := {
  fzero := 0;
  fone := 1;
  fadd := Rplus;
  fsub := Rminus;
  fmul := Rmult;
  fdiv := Rdiv;
  fsigmoid := sigmoid;
  fint := int
}.

Definition in_open_unit (e : R) : Prop := 0 < e < 1.

Definition v3 : tensor R := mkTensor [3%nat] [1; 2; 3].
Definition mu32 : tensor R := mkTensor [3%nat; 2%nat] [0; 1; 0; 1; 0; 1].
Definition sigma32 : tensor R := mkTensor [3%nat; 2%nat] [3; 4; 5; 6; 7; 8].

End Real.

(** ** Cells on the reals: conditions on the parameter values *)

Module RealCell.

Import Reals.
Import Real.
#[local] Open Scope R_scope.

(* capacitance and leak conductance are positive at every unit *)
Definition conductances_positive (c : LTSCell R) (u : nat) : Prop :=
  forall j, (j < u)%nat ->
    0 < unit_entry (cm_t c) j /\ 0 < unit_entry (gleak c) j.

(* no synaptic weight is negative *)
Definition weights_nonnegative (c : LTSCell R) (m u : nat) : Prop :=
  (forall i j, (i < u)%nat -> (j < u)%nat -> 0 <= get (W c) [i; j]) /\
  (forall i j, (i < m)%nat -> (j < u)%nat -> 0 <= get (sensory_W c) [i; j]).

(* leak and reversal potentials lie between [lo] and [hi] *)
Definition potentials_within (c : LTSCell R) (m u : nat) (lo hi : R) : Prop :=
  (forall j, (j < u)%nat -> lo <= unit_entry (vleak c) j <= hi) /\
  (forall i j, (i < u)%nat -> (j < u)%nat -> lo <= get (erev c) [i; j] <= hi) /\
  (forall i j, (i < m)%nat -> (j < u)%nat ->
     lo <= get (sensory_erev c) [i; j] <= hi).

Definition entries_within (v : list R) (u : nat) (lo hi : R) : Prop :=
  forall j, (j < u)%nat -> lo <= vget v j <= hi.

(* the factor by which one leak update shrinks the distance to [vleak] *)
Definition leak_ratio (c : LTSCell R) (j : nat) : R :=
  unit_entry (cm_t c) j / (unit_entry (cm_t c) j + unit_entry (gleak c) j).

(* a cell with two units and one input feature *)
Definition cell (w sw : list R) : LTSCell R :=
  mkCell 2%nat 1%nat 1 (mkTensor [2%nat] [0; 0]) 6%nat
    (mkTensor [1%nat; 2%nat] [0; 1])
    (mkTensor [1%nat; 2%nat] [3; 4])
    (mkTensor [1%nat; 2%nat] sw)
    (mkTensor [1%nat; 2%nat] [1; -1])
    (mkTensor [2%nat; 2%nat] [0; 1; 0; 1])
    (mkTensor [2%nat; 2%nat] [3; 4; 5; 6])
    (mkTensor [2%nat; 2%nat] w)
    (mkTensor [2%nat; 2%nat] [1; -1; -1; 1])
    (mkTensor [2%nat] [0; 0])
    (scalar 1)
    (scalar (1 / 2))
    None None.

Definition weighted_cell : LTSCell R := cell [1; 2; 3; 4] [1; 2].
Definition leaky_cell : LTSCell R := cell [0; 0; 0; 0] [0; 0].
Definition input : tensor R := mkTensor [1%nat; 1%nat] [1].
Definition state0 : tensor R := mkTensor [1%nat; 2%nat] [1 / 2; -1].

End RealCell.

(** ** Sample arguments for the rational cell *)

Module Samples.

Import Rational.

Definition weights : tensor Qcanon.Qc := vec [q 2 1; q 1 2; q 3 1].
Definition biases : tensor Qcanon.Qc := vec [q 1 1; q 0 1; q (-1) 1].

(* the default cell after some training of its input map *)
Definition trained_cell : LTSCell Qcanon.Qc :=
  set_input_biases (set_input_weights default_cell (Some weights)) (Some biases).

Definition zero_unfold_cell : LTSCell Qcanon.Qc := cell 0 some_w some_sw.

Definition narrow_input : tensor Qcanon.Qc := mkTensor [1; 2] [q 1 10; q 1 5].
Definition single_input : tensor Qcanon.Qc := mkTensor [1; 1] [q 1 10].
Definition flat_state : tensor Qcanon.Qc := vec [q 0 1; q 0 1].
Definition wide_state : tensor Qcanon.Qc := mkTensor [1; 3] [q 0 1; q 0 1; q 0 1].
Definition batch : tensor Qcanon.Qc := mkTensor [2; 2] [q 0 1; q 1 1; q 2 1; q 3 1].
Definition long_row : tensor Qcanon.Qc := mkTensor [1; 3] [q 0 1; q 1 1; q 2 1].

End Samples.

(** ** The scaffolding script (src/templet.py)

    The script acts on the file system below the working directory.  A
    file system is a list of bindings from paths (lists of names, relative
    to the working directory) to nodes, the first binding of a path being
    the current one; nothing is ever removed. *)

Module Templet.

Import String.
#[local] Open Scope string_scope.
#[local] Open Scope list_scope.

Definition path : Type := list string.

Inductive node : Type :=
  | Dir
  | File (content : string).

Definition fs : Type := list (path * node).

Inductive error : Type :=
  | FileExistsError
  | FileNotFoundError
  | NotADirectoryError
  | IsADirectoryError.

Inductive result (A : Type) : Type :=
  | Ok (a : A)
  | Raise (e : error).

Arguments Ok {A} a.
Arguments Raise {A} e.

Definition path_eq_dec : forall p q : path, {p = q} + {p <> q} :=
  list_eq_dec string_dec.

Fixpoint lookup (f : fs) (p : path) : option node :=
  match f with
  | [] => None
  | (q, n) :: f' => if path_eq_dec q p then Some n else lookup f' p
  end.

(* os.path.exists *)
Definition present (f : fs) (p : path) : bool :=
  match lookup f p with Some _ => true | None => false end.

(* os.path.isdir; the empty path is the working directory *)
Definition isdir (f : fs) (p : path) : bool :=
  match p with
  | [] => true
  | _ => match lookup f p with Some Dir => true | _ => false end
  end.

Definition parent (p : path) : path := removelast p.

(* what a system call answers when the directory that should hold the new
   entry is not a directory *)
Definition no_parent (f : fs) (p : path) : error :=
  if present f (parent p) then NotADirectoryError else FileNotFoundError.

(* os.mkdir *)
Definition mkdir (p : path) (f : fs) : result fs :=
  match p with
  | [] => Raise FileNotFoundError
  | _ =>
      match lookup f p with
      | Some _ => Raise FileExistsError
      | None =>
          if isdir f (parent p) then Ok ((p, Dir) :: f)
          else Raise (no_parent f p)
      end
  end.

(* os.makedirs(name, exist_ok=True), on the reversed path: the missing
   ancestors are made first, a FileExistsError from that recursion is
   swallowed, and an existing directory is accepted *)
Fixpoint makedirs_rev (rp : list string) (f : fs) : result fs :=
  match rp with
  | [] => Raise FileNotFoundError
  | _ :: rhead =>
      let above :=
        match rhead with
        | [] => Ok f
        | _ :: _ =>
            if present f (rev rhead) then Ok f
            else match makedirs_rev rhead f with
                 | Ok f1 => Ok f1
                 | Raise FileExistsError => Ok f
                 | Raise e => Raise e
                 end
        end in
      match above with
      | Raise e => Raise e
      | Ok f1 =>
          match mkdir (rev rp) f1 with
          | Ok f2 => Ok f2
          | Raise e => if isdir f1 (rev rp) then Ok f1 else Raise e
          end
      end
  end.

Definition makedirs (p : path) (f : fs) : result fs := makedirs_rev (rev p) f.

(* with open(p, "w"): pass *)
Definition open_w (p : path) (f : fs) : result fs :=
  match p with
  | [] => Raise FileNotFoundError
  | _ =>
      match lookup f p with
      | Some Dir => Raise IsADirectoryError
      | _ =>
          if isdir f (parent p) then Ok ((p, File "") :: f)
          else Raise (no_parent f p)
      end
  end.

(* the names bound directly below [d] *)
Definition entries (d : path) (f : fs) : list string :=
  flat_map (fun b => match fst b with
                     | [] => []
                     | _ :: _ =>
                         if path_eq_dec (parent (fst b)) d
                         then [last (fst b) ""] else []
                     end) f.

(* os.listdir *)
Definition listdir (d : path) (f : fs) : result (list string) :=
  if isdir f d then Ok (nodup string_dec (entries d f))
  else Raise (if present f d then NotADirectoryError else FileNotFoundError).

Fixpoint for_each {A} (step : A -> fs -> result fs) (l : list A) (f : fs)
  : result fs :=
  match l with
  | [] => Ok f
  | a :: l' =>
      match step a f with
      | Ok f1 => for_each step l' f1
      | Raise e => Raise e
      end
  end.

(* the body of the last loop: a .gitkeep file in a directory without
   entries *)
Definition gitkeep (d : path) (f : fs) : result fs :=
  match listdir d f with
  | Raise e => Raise e
  | Ok [] => open_w (d ++ [".gitkeep"]) f
  | Ok (_ :: _) => Ok f
  end.

(* the three loops of the script, for any two lists *)
Definition scaffold (dirs files : list path) (f : fs) : result fs :=
  match for_each makedirs dirs f with
  | Raise e => Raise e
  | Ok f1 =>
      match for_each open_w files f1 with
      | Raise e => Raise e
      | Ok f2 => for_each gitkeep dirs f2
      end
  end.

Definition dirs : list path :=
  [ ["data"; "raw"]; ["data"; "processed"]; ["docs"]; ["config"];
    ["references"]; ["reports"]; ["notebooks"]; ["saved_models"]; ["src"] ].

Definition files : list path :=
  [ [".gitignore"]; ["requirements.txt"]; ["src"; "__init__.py"];
    ["config"; "params.yaml"]; ["config"; "config.yaml"] ].

Definition templet (f : fs) : result fs := scaffold dirs files f.

(* every entry lies in a directory *)
Definition well_formed (f : fs) : Prop :=
  forall p n, lookup f p = Some n -> isdir f (parent p) = true.

(* [q] is a non-empty initial part of [p] *)
Definition prefix_of (q p : path) : Prop :=
  q <> [] /\ exists r, p = q ++ r.

(* how one path fares from [f] to [f1]: untouched, or a directory made at a
   path allowed by [D], or a file written (made or emptied) at a path
   allowed by [W], or a file made at a path allowed by [K] *)
Definition fares (D W K : path -> Prop) (f f1 : fs) (p : path) : Prop :=
  lookup f1 p = lookup f p \/
  (lookup f p = None /\ lookup f1 p = Some Dir /\ D p) \/
  (lookup f p <> Some Dir /\ lookup f1 p = Some (File "") /\ W p) \/
  (lookup f p = None /\ lookup f1 p = Some (File "") /\ K p).

Definition evolves (D W K : path -> Prop) (f f1 : fs) : Prop :=
  forall p, fares D W K f f1 p.

(* no path *)
Definition nowhere (p : path) : Prop := False.

(* the paths the script may touch *)
Definition on_the_way (dirs : list path) (p : path) : Prop :=
  exists d, In d dirs /\ prefix_of p d.

Definition keep_file (dirs : list path) (p : path) : Prop :=
  exists d, In d dirs /\ p = d ++ [".gitkeep"].

(* two file systems answer every lookup alike *)
Definition same_lookups (f g : fs) : Prop :=
  forall p, lookup f p = lookup g p.

(* a directory that [makedirs] accepts as it is *)
Definition settled_dir (g : fs) (d : path) : Prop :=
  d <> [] /\ isdir g d = true /\
  (parent d = [] \/ present g (parent d) = true).

(* a file that [open_w] has written *)
Definition settled_file (g : fs) (p : path) : Prop :=
  p <> [] /\ lookup g p = Some (File "") /\ isdir g (parent p) = true.

(* a directory with an entry *)
Definition inhabited (g : fs) (d : path) : Prop :=
  isdir g d = true /\ exists x n, lookup g (d ++ [x]) = Some n.

(* no regular file stands at or above [d] *)
Definition clear_way (g : fs) (d : path) : Prop :=
  d <> [] /\
  forall q, prefix_of q d -> lookup g q = None \/ lookup g q = Some Dir.

(* [p] can be written once the listed directories exist *)
Definition writable (dirs : list path) (g : fs) (p : path) : Prop :=
  p <> [] /\ lookup g p <> Some Dir /\ ~ on_the_way dirs p /\
  (In (parent p) dirs \/ isdir g (parent p) = true).

(* a project with some files in it *)
Definition project : fs :=
  [ (["src"; "main.py"], File "print(1)");
    (["src"], Dir);
    (["requirements.txt"], File "numpy");
    (["docs"], Dir) ].

(* the project after the script has run in it *)
Definition scaffolded : fs :=
  match templet project with
  | Ok g => g
  | Raise _ => []
  end.

(* a working directory where a regular file is named like a listed
   directory *)
Definition notes_in_the_way : fs := [ (["docs"], File "notes") ].

End Templet.

(** * Properties *)

Section TensorFacts.

Context {F : Type} {SF : Scalar F}.

#[local] Abbreviation tensor := (tensor F).

Lemma length_indices (s : list nat) : length (indices s) = numel s.
Proof.
  induction s as [|d s IH]; simpl; trivial.
  generalize 0 as lo.
  induction d as [|d IHd]; intros lo; simpl; trivial.
  rewrite length_app, length_map, IH, IHd. reflexivity.
Qed.

Lemma in_indices (s idx : list nat) : In idx (indices s) -> in_range s idx.
Proof.
  revert idx.
  induction s as [|d s IH]; simpl; intros idx H.
  - destruct H as [<-|[]]. constructor.
  - apply in_flat_map in H. destruct H as (i & Hi & H).
    apply in_map_iff in H. destruct H as (r & <- & Hr).
    apply in_seq in Hi. constructor; [lia | apply IH, Hr].
Qed.

(* reading position [i * k + r] of a concatenation of blocks of length [k] *)
Lemma nth_blocks (A B : Type) (f : A -> list B) (k : nat) (l : list A)
      (i r : nat) (d : B) (a : A) :
  (forall x, length (f x) = k) -> r < k -> i < length l ->
  nth (i * k + r) (flat_map f l) d = nth r (f (nth i l a)) d.
Proof.
  intros Hk Hr. revert i.
  induction l as [|x l IH]; simpl; intros i Hi; [lia|].
  destruct i as [|i].
  - simpl. apply app_nth1. rewrite Hk. exact Hr.
  - rewrite app_nth2 by (rewrite Hk; simpl; lia).
    rewrite Hk.
    replace (S i * k + r - k) with (i * k + r) by (simpl; lia).
    apply IH. lia.
Qed.

Lemma offset_lt (s idx : list nat) : in_range s idx -> offset s idx < numel s.
Proof.
  intros H. induction H as [|i d idx s Hi _ IH]; simpl; [lia|]. nia.
Qed.

Lemma nth_indices (s idx : list nat) :
  in_range s idx -> nth (offset s idx) (indices s) [] = idx.
Proof.
  intros H. induction H as [|i d idx s Hi Hr IH]; simpl; trivial.
  rewrite nth_blocks with (k := numel s) (a := 0).
  - rewrite seq_nth by exact Hi. simpl.
    rewrite nth_indep with (d' := i :: []).
    + change (i :: []) with (cons i []). rewrite map_nth. now rewrite IH.
    + rewrite length_map, length_indices. now apply offset_lt.
  - intros x. now rewrite length_map, length_indices.
  - now apply offset_lt.
  - now rewrite length_seq.
Qed.

Lemma get_tab (s : list nat) (g : list nat -> F) (idx : list nat) :
  in_range s idx -> get (tab s g) idx = g idx.
Proof.
  intros H. unfold get, tab. simpl.
  rewrite nth_indep with (d' := g []).
  - rewrite map_nth. now rewrite nth_indices.
  - rewrite length_map, length_indices. now apply offset_lt.
Qed.

Lemma tab_ext (s : list nat) (g g' : list nat -> F) :
  (forall idx, in_range s idx -> g idx = g' idx) -> tab s g = tab s g'.
Proof.
  intros H. unfold tab. f_equal. apply map_ext_in.
  intros idx Hin. apply H, in_indices, Hin.
Qed.

Lemma wf_tab (s : list nat) (g : list nat -> F) : wf (tab s g).
Proof. unfold wf, tab. simpl. now rewrite length_map, length_indices. Qed.

Lemma indices_vec (n : nat) : indices [n] = map (fun j => [j]) (seq 0 n).
Proof.
  simpl. generalize 0 as lo.
  induction n as [|n IH]; intros lo; simpl; [trivial | now rewrite IH].
Qed.

Lemma indices_one (s : list nat) : indices (1 :: s) = map (cons 0) (indices s).
Proof. simpl. apply app_nil_r. Qed.

#[local] Arguments indices : simpl never.

Lemma bdim_same (n : nat) : bdim n n = Some n.
Proof. unfold bdim. rewrite Nat.eqb_refl. now destruct (n =? 1). Qed.

Lemma bdim_one_l (n : nat) : bdim 1 n = Some n.
Proof. reflexivity. Qed.

Lemma bdim_one_r (n : nat) : bdim n 1 = Some n.
Proof.
  unfold bdim. destruct (Nat.eqb_spec n 1) as [->|_]; reflexivity.
Qed.

Lemma clamp_lt (d i : nat) : i < d -> (if d =? 1 then 0 else i) = i.
Proof. intros H. destruct (Nat.eqb_spec d 1); lia. Qed.

Ltac row_cases :=
  unfold broadcast2, broadcast_shape; simpl;
  rewrite ?bdim_same, ?bdim_one_l, ?bdim_one_r; simpl;
  unfold tab, longer, width; simpl;
  rewrite ?indices_one, ?indices_vec, ?map_map; simpl;
  do 2 f_equal;
  try (apply map_ext_in; intros j Hj; apply in_seq in Hj);
  unfold get, bindex, unit_entry, vget; simpl;
  rewrite ?clamp_lt by lia;
  f_equal; f_equal; lia.

Lemma broadcast2_rows (f : F -> F -> F) (u : nat) (a b : tensor) :
  0 < u -> rowshape u (shape a) -> rowshape u (shape b) ->
  broadcast2 f a b = Some (rows_result f u a b).
Proof.
  intros Hu Ha Hb. unfold rows_result.
  destruct a as [sa da], b as [sb db]. simpl in *.
  inversion Ha; inversion Hb; subst; row_cases.
Qed.

Lemma vget_map_seq (g : nat -> F) (n j : nat) :
  j < n -> vget (map g (seq 0 n)) j = g j.
Proof.
  intros H. unfold vget. rewrite nth_indep with (d' := g 0).
  - rewrite map_nth, seq_nth by trivial. reflexivity.
  - now rewrite length_map, length_seq.
Qed.

Lemma rowshape_longer (u : nat) (a b : list nat) :
  rowshape u a -> rowshape u b -> rowshape u (longer a b).
Proof. intros Ha Hb. unfold longer. now destruct (length a <? length b). Qed.

Lemma rowshape_rows_result (f : F -> F -> F) (u : nat) (a b : tensor) :
  rowshape u (shape a) -> rowshape u (shape b) ->
  rowshape u (shape (rows_result f u a b)).
Proof. intros Ha Hb. simpl. now apply rowshape_longer. Qed.

Lemma unit_entry_rows_result (f : F -> F -> F) (u : nat) (a b : tensor) (j : nat) :
  rowshape u (shape a) -> rowshape u (shape b) -> j < u ->
  unit_entry (rows_result f u a b) j = f (unit_entry a j) (unit_entry b j).
Proof.
  intros Ha Hb Hj. unfold rows_result.
  destruct a as [sa da], b as [sb db]. simpl in *.
  inversion Ha; inversion Hb; subst; unfold unit_entry, longer, width; simpl;
    try (rewrite vget_map_seq by trivial; reflexivity); reflexivity.
Qed.

Lemma in_range_cube (n u : nat) (idx : list nat) :
  in_range [1; n; u] idx ->
  exists i j, idx = [0; i; j] /\ i < n /\ j < u.
Proof.
  intros H. inversion H as [|b ? r1 ? Hb H1]; subst.
  inversion H1 as [|i ? r2 ? Hi H2]; subst.
  inversion H2 as [|j ? r3 ? Hj H3]; subst.
  inversion H3; subst.
  exists i, j. repeat split; trivial. f_equal. lia.
Qed.

Lemma in_range_row (u : nat) (idx : list nat) :
  in_range [1; u] idx -> exists j, idx = [0; j] /\ j < u.
Proof.
  intros H. inversion H as [|b ? r1 ? Hb H1]; subst.
  inversion H1 as [|j ? r2 ? Hj H2]; subst.
  inversion H2; subst.
  exists j. split; trivial. f_equal. lia.
Qed.

Lemma range_cube (n u i j : nat) : i < n -> j < u -> in_range [1; n; u] [0; i; j].
Proof. intros. repeat constructor; trivial. Qed.

Lemma tab_row (u : nat) (g : list nat -> F) :
  tab [1; u] g = mkTensor [1; u] (map (fun j => g [0; j]) (seq 0 u)).
Proof.
  unfold tab. now rewrite indices_one, indices_vec, !map_map.
Qed.

Lemma reshape_column (v : tensor) (n : nat) :
  0 < n -> numel (shape v) = n ->
  reshape v [(-1)%Z; Z.of_nat n; 1%Z] = Some (mkTensor [1; n; 1] (data v)).
Proof.
  intros Hn Hv. unfold reshape, resolve_shape. rewrite Hv.
  assert (H1 : (-1 <=? Z.of_nat n)%Z = true) by (apply Z.leb_le; lia).
  assert (H2 : (Z.of_nat n =? -1)%Z = false) by (apply Z.eqb_neq; lia).
  simpl. rewrite H1, H2. simpl. rewrite Nat2Z.id.
  replace (n * 1) with n by lia.
  destruct (Nat.eqb_spec n 0) as [E|_]; [lia|].
  rewrite Nat.Div0.mod_same, Nat.div_same by lia. reflexivity.
Qed.

(* a matrix against a batch of one matrix *)
Lemma broadcast2_mat_cube (f : F -> F -> F) (n u : nat) (a : tensor)
      (g : list nat -> F) :
  shape a = [n; u] ->
  broadcast2 f a (tab [1; n; u] g) =
  Some (tab [1; n; u]
          (fun idx => f (get a [nth 1 idx 0; nth 2 idx 0]) (g idx))).
Proof.
  intros Ha. unfold broadcast2, broadcast_shape. rewrite Ha. simpl.
  rewrite !bdim_same. simpl. f_equal. apply tab_ext.
  intros idx Hr. destruct (in_range_cube Hr) as (i & j & -> & Hi & Hj).
  rewrite get_tab.
  - unfold bindex. simpl. now rewrite !clamp_lt.
  - unfold bindex. simpl. rewrite !clamp_lt by trivial. now apply range_cube.
Qed.

Lemma broadcast2_cube_mat (f : F -> F -> F) (n u : nat) (b : tensor)
      (g : list nat -> F) :
  shape b = [n; u] ->
  broadcast2 f (tab [1; n; u] g) b =
  Some (tab [1; n; u]
          (fun idx => f (g idx) (get b [nth 1 idx 0; nth 2 idx 0]))).
Proof.
  intros Hb. unfold broadcast2, broadcast_shape. rewrite Hb. simpl.
  rewrite !bdim_same. simpl. f_equal. apply tab_ext.
  intros idx Hr. destruct (in_range_cube Hr) as (i & j & -> & Hi & Hj).
  rewrite get_tab.
  - unfold bindex. simpl. now rewrite !clamp_lt.
  - unfold bindex. simpl. rewrite !clamp_lt by trivial. now apply range_cube.
Qed.

(* a column [1, n, 1] against a matrix: the column is repeated along the
   last axis *)
Lemma broadcast2_column_mat (f : F -> F -> F) (n u : nat) (d : list F)
      (b : tensor) :
  shape b = [n; u] ->
  broadcast2 f (mkTensor [1; n; 1] d) b =
  Some (tab [1; n; u]
          (fun idx => f (vget d (nth 1 idx 0))
                        (get b [nth 1 idx 0; nth 2 idx 0]))).
Proof.
  intros Hb. unfold broadcast2, broadcast_shape. rewrite Hb. simpl.
  rewrite bdim_same. simpl. f_equal. apply tab_ext.
  intros idx Hr. destruct (in_range_cube Hr) as (i & j & -> & Hi & Hj).
  unfold bindex, get, vget. simpl. rewrite !clamp_lt by trivial.
  do 2 f_equal. lia.
Qed.

Lemma t_sigmoid_tab (s : list nat) (g : list nat -> F) :
  t_sigmoid (tab s g) = tab s (fun idx => fsigmoid (g idx)).
Proof. unfold t_sigmoid, tab. simpl. now rewrite map_map. Qed.

Lemma reduce_sum_cube (n u : nat) (g : list nat -> F) :
  reduce_sum (tab [1; n; u] g) 1 =
  Some (tab [1; u]
          (fun idx => fsum (map (fun r => g [0; r; nth 1 idx 0]) (seq 0 n)))).
Proof.
  unfold reduce_sum. simpl. f_equal. apply tab_ext.
  intros idx Hr. destruct (in_range_row Hr) as (j & -> & Hj). simpl.
  f_equal. apply map_ext_in. intros r Hin. apply in_seq in Hin.
  apply get_tab. apply range_cube; lia.
Qed.

(* the gating function on a vector or a batch of one vector *)
Lemma sigmoid_gate (n u : nat) (v mu sigma : tensor) :
  0 < n -> shape v = [n] \/ shape v = [1; n] ->
  shape mu = [n; u] -> shape sigma = [n; u] ->
  _sigmoid v mu sigma =
  Some (tab [1; n; u]
          (fun idx => gate sigma mu (data v) (nth 1 idx 0) (nth 2 idx 0))).
Proof.
  intros Hn Hv Hmu Hsg. unfold _sigmoid.
  assert (Hl : last_dim v = Some n)
    by (unfold last_dim; destruct Hv as [-> | ->]; reflexivity).
  rewrite Hl, reshape_column
    by (trivial; destruct Hv as [-> | ->]; simpl; lia).
  unfold t_sub, t_mul.
  rewrite broadcast2_column_mat with (u := u) by trivial.
  rewrite broadcast2_mat_cube by trivial.
  now rewrite t_sigmoid_tab.
Qed.

End TensorFacts.

Section CellFacts.

Context {F : Type} {SF : Scalar F}.

#[local] Abbreviation tensor := (tensor F).
#[local] Abbreviation pyval := (pyval F).
#[local] Abbreviation LTSCell := (LTSCell F).
#[local] Abbreviation M := (M F).

(** ** Running the monad *)

Lemma bind_ret (A B : Type) (a : A) (f : A -> M B) (c : LTSCell) :
  bind (ret a) f c = f a c.
Proof. unfold bind, ret. now destruct (f a c) as [[[b c2] n]|]. Qed.

Lemma bind_lift (A B : Type) (a : A) (f : A -> M B) (c : LTSCell) :
  bind (lift (Some a)) f c = f a c.
Proof. unfold bind, lift. now destruct (f a c) as [[[b c2] n]|]. Qed.

Lemma bind_get_self (B : Type) (f : LTSCell -> M B) (c : LTSCell) :
  bind get_self f c = f c c.
Proof. unfold bind, get_self. now destruct (f c c) as [[[b c2] n]|]. Qed.

Lemma bind_put_self (B : Type) (c' : LTSCell) (f : unit -> M B) (c : LTSCell) :
  bind (put_self c') f c = f tt c'.
Proof. unfold bind, put_self. now destruct (f tt c') as [[[b c2] n]|]. Qed.

Lemma bind_value (A B : Type) (m : M A) (f : A -> M B) (c c1 : LTSCell)
      (a : A) (n : nat) :
  m c = Some (a, c1, n) ->
  bind m f c = match f a c1 with
               | Some (b, c2, n2) => Some (b, c2, n + n2)
               | None => None
               end.
Proof. intros H. unfold bind. now rewrite H. Qed.

(* a loop whose body keeps [self] and costs [k] at every round *)
Lemma for_range_iter (A : Type) (I : A -> Prop) (body : A -> M A)
      (step : A -> A) (k : nat) (c : LTSCell) :
  (forall x, I x -> body x c = Some (step x, c, k)) ->
  (forall x, I x -> I (step x)) ->
  forall n x, I x ->
  for_range n body x c = Some (Nat.iter n step x, c, n * k).
Proof.
  intros Hbody Hstep n. induction n as [|n IH]; intros x Hx.
  - reflexivity.
  - simpl for_range. rewrite bind_value with (1 := Hbody x Hx).
    rewrite IH by auto. rewrite Nat.iter_succ_r. reflexivity.
Qed.

(** ** The drift *)

Lemma unit_entry_tab_row (u : nat) (g : list nat -> F) (j : nat) :
  j < u -> unit_entry (tab [1; u] g) j = g [0; j].
Proof.
  intros H. rewrite tab_row. unfold unit_entry. simpl.
  now rewrite vget_map_seq.
Qed.

Lemma rowshape_per_unit (u : nat) (t : tensor) :
  per_unit u t -> rowshape u (shape t).
Proof. intros [-> | ->]; constructor. Qed.

Lemma rowshape_vec_or_row (u : nat) (t : tensor) :
  shape t = [u] \/ shape t = [1; u] -> rowshape u (shape t).
Proof. intros [-> | ->]; constructor. Qed.

Lemma rowshape_tab_row (u : nat) (g : list nat -> F) :
  rowshape u (shape (tab [1; u] g)).
Proof. constructor. Qed.

Lemma rowshape_mk_row (u : nat) (d : list F) :
  rowshape u (shape (mkTensor [1; u] d)).
Proof. constructor. Qed.

Lemma unit_entry_data (t : tensor) (j : nat) :
  shape t <> [] -> unit_entry t j = vget (data t) j.
Proof. unfold unit_entry. now destruct (shape t). Qed.

Lemma rows_result_row (f : F -> F -> F) (u : nat) (a b : tensor) (g : nat -> F) :
  longer (shape a) (shape b) = [1; u] ->
  (forall j, j < u -> f (unit_entry a j) (unit_entry b j) = g j) ->
  rows_result f u a b = mkTensor [1; u] (map g (seq 0 u)).
Proof.
  intros Hs Hg. unfold rows_result. rewrite Hs. simpl. f_equal.
  apply map_ext_in. intros j Hj. apply in_seq in Hj. apply Hg. lia.
Qed.

Create HintDb rows.

#[local] Hint Resolve rowshape_per_unit rowshape_vec_or_row rowshape_tab_row
  rowshape_mk_row rowshape_rows_result : rows.
#[local] Hint Constructors rowshape : rows.

Ltac run :=
  repeat (first [rewrite bind_lift | rewrite bind_get_self | rewrite bind_ret];
          cbv beta).

Lemma drift_update_run (c : LTSCell) (m u : nat) (wn wd v : tensor) :
  configured c m u ->
  shape wn = [1; u] -> shape wd = [1; u] ->
  shape v = [u] \/ shape v = [1; u] ->
  drift_update wn wd v c =
  Some (mkTensor [1; u] (balance c (data wn) (data wd) (data v)), c, 1).
Proof.
  intros Hc Hwn Hwd Hv. destruct Hc. unfold drift_update. run.
  rewrite sigmoid_gate with (n := u) (u := u) by trivial. run.
  unfold t_mul, t_add, t_div.
  rewrite broadcast2_mat_cube by trivial. run.
  rewrite broadcast2_cube_mat by trivial. run.
  rewrite !reduce_sum_cube. run.
  assert (Rwn : rowshape u (shape wn)) by (rewrite Hwn; constructor).
  assert (Rwd : rowshape u (shape wd)) by (rewrite Hwd; constructor).
  assert (Rvl : rowshape u (shape (vleak c))) by (rewrite cfg_vleak0; constructor).
  repeat (rewrite broadcast2_rows with (u := u) by auto 10 with rows; run).
  unfold bind, tick, ret. simpl. do 3 f_equal.
  assert (Nv : shape v <> []) by (destruct Hv as [E | E]; rewrite E; discriminate).
  assert (Nwn : shape wn <> []) by (rewrite Hwn; discriminate).
  assert (Nwd : shape wd <> []) by (rewrite Hwd; discriminate).
  unfold balance. rewrite cfg_units0. apply rows_result_row.
  - simpl.
    destruct cfg_cm_t0 as [E1 | E1], cfg_gleak0 as [E2 | E2], Hv as [E3 | E3];
      rewrite E1, E2, E3, Hwn, Hwd, cfg_vleak0; reflexivity.
  - intros j Hj.
    rewrite !unit_entry_rows_result by auto 10 with rows.
    rewrite !unit_entry_tab_row by trivial.
    rewrite (unit_entry_data v), (unit_entry_data wn), (unit_entry_data wd)
      by trivial.
    reflexivity.
Qed.

Lemma iter_row_data (u n : nat) (g : list F -> list F) (v : tensor) :
  data (Nat.iter n (fun t => mkTensor [1; u] (g (data t))) v) =
  Nat.iter n g (data v).
Proof. induction n as [|n IH]; simpl; [trivial | now rewrite IH]. Qed.

Lemma iter_row_shape (u n : nat) (g : list F -> list F) (v : tensor) :
  0 < n -> shape (Nat.iter n (fun t => mkTensor [1; u] (g (data t))) v) = [1; u].
Proof. destruct n; [lia | reflexivity]. Qed.

Lemma iter_row_vec_or_row (u n : nat) (g : list F -> list F) (v : tensor) :
  shape v = [u] \/ shape v = [1; u] ->
  shape (Nat.iter n (fun t => mkTensor [1; u] (g (data t))) v) = [u] \/
  shape (Nat.iter n (fun t => mkTensor [1; u] (g (data t))) v) = [1; u].
Proof. destruct n; [trivial | now right]. Qed.

(* the sensory sums, formed before the loop *)
Lemma sensory_sums_run (c : LTSCell) (m u : nat) (x : tensor) :
  configured c m u -> shape x = [1; m] ->
  exists sg,
    _sigmoid x (sensory_mu c) (sensory_sigma c) = Some sg /\
    exists swa, t_mul (sensory_W c) sg = Some swa /\
    exists sra, t_mul swa (sensory_erev c) = Some sra /\
    reduce_sum sra 1 = Some (mkTensor [1; u] (sensory_numerator c (data x))) /\
    reduce_sum swa 1 = Some (mkTensor [1; u] (sensory_denominator c (data x))).
Proof.
  intros Hc Hx. destruct Hc.
  eexists. split.
  { apply sigmoid_gate with (n := m) (u := u); auto. }
  unfold t_mul. eexists. split.
  { apply broadcast2_mat_cube; trivial. }
  eexists. split.
  { apply broadcast2_cube_mat; trivial. }
  rewrite !reduce_sum_cube, !tab_row.
  unfold sensory_numerator, sensory_denominator.
  rewrite cfg_units0, cfg_input_size0. split; reflexivity.
Qed.

Lemma drift_run (c : LTSCell) (m u : nat) (x : tensor) (s : pyval) (v0 : tensor) :
  configured c m u -> shape x = [1; m] ->
  py_index0 s = Some v0 -> shape v0 = [u] \/ shape v0 = [1; u] ->
  _sde_solver_drift x s c =
  Some (Nat.iter (_sde_solver_unfolds c)
          (fun v => mkTensor [1; u]
             (balance c (sensory_numerator c (data x))
                        (sensory_denominator c (data x)) (data v))) v0,
        c, _sde_solver_unfolds c).
Proof.
  intros Hc Hx Hs Hv.
  destruct (sensory_sums_run x Hc Hx)
    as (sg & E1 & swa & E2 & sra & E3 & E4 & E5).
  unfold _sde_solver_drift. rewrite Hs. run.
  rewrite E1. run. rewrite E2. run. rewrite E3. run.
  rewrite E4. run. rewrite E5. run.
  rewrite for_range_iter
    with (I := fun v => shape v = [u] \/ shape v = [1; u]) (k := 1)
         (step := fun v => mkTensor [1; u]
             (balance c (sensory_numerator c (data x))
                        (sensory_denominator c (data x)) (data v))).
  - now rewrite Nat.mul_1_r.
  - intros v Iv.
    now rewrite drift_update_run with (m := m) (u := u).
  - intros v _. now right.
  - trivial.
Qed.

(** ** The Euler-Maruyama sub-step *)

Lemma reshape_row (t : tensor) (u : nat) (z : Z) :
  z = 1%Z -> numel (shape t) = u ->
  reshape t [z; Z.of_nat u] = Some (mkTensor [1; u] (data t)).
Proof.
  intros -> Hn. unfold reshape, resolve_shape. rewrite Hn.
  assert (H1 : (-1 <=? Z.of_nat u)%Z = true) by (apply Z.leb_le; lia).
  assert (H2 : (Z.of_nat u =? -1)%Z = false) by (apply Z.eqb_neq; lia).
  simpl. rewrite H1, H2. simpl. rewrite Nat2Z.id.
  replace (u * 1 + 0) with u by lia. now rewrite Nat.eqb_refl.
Qed.

Lemma state_of_data (u : nat) (s : pyval) (t : tensor) :
  state_of u s t -> state_data s = data t.
Proof. intros [t' _ | t' _]; simpl; [trivial | apply app_nil_r]. Qed.

Lemma state_of_index0 (u : nat) (s : pyval) (t : tensor) :
  state_of u s t ->
  exists v0, py_index0 s = Some v0 /\ data v0 = data t /\
             (shape v0 = [u] \/ shape v0 = [1; u]).
Proof.
  intros [t' [Hs Hl] | t' [Hs Hl]]; simpl.
  - unfold index0. rewrite Hs. simpl. eexists. split; [reflexivity|].
    simpl. split; [|now left].
    apply firstn_all2. lia.
  - exists t'. auto.
Qed.

Lemma state_of_stack (u : nat) (s : pyval) (t : tensor) (d : tensor) :
  state_of u s t ->
  exists a, py_add s d = t_add a d /\ data a = data t /\
            (shape a = [1; u] \/ shape a = [1; 1; u]).
Proof.
  intros [t' [Hs Hl] | t' [Hs Hl]]; simpl.
  - exists t'. auto.
  - eexists. split; [reflexivity|]. simpl. rewrite app_nil_r, Hs. auto.
Qed.

(* one sub-step, for any state whose first entry and whose conversion to a
   tensor hold the values [d] in a row shape *)
Lemma euler_update_values (c : LTSCell) (m u : nat) (x : tensor) (s : pyval)
      (d : list F) :
  configured c m u -> shape x = [1; m] ->
  (exists v0, py_index0 s = Some v0 /\ data v0 = d /\
              (shape v0 = [u] \/ shape v0 = [1; u])) ->
  (forall dt, exists a, py_add s dt = t_add a dt /\ data a = d /\
                        (shape a = [1; u] \/ shape a = [1; 1; u])) ->
  euler_maruyama_update x s c =
  Some (PTensor (mkTensor [1; u] (em_step c (data x) d)), c,
        _sde_solver_unfolds c).
Proof.
  intros Hc Hx (v0 & E0 & D0 & S0) Hadd.
  unfold euler_maruyama_update.
  rewrite bind_value with (1 := drift_run x s Hc Hx E0 S0).
  unfold _sde_solver_diffusion. run.
  set (D := Nat.iter _ _ v0).
  assert (SD : shape D = [u] \/ shape D = [1; u])
    by (now apply iter_row_vec_or_row).
  assert (DD : data D = drift_rule c (data x) d).
  { unfold D, drift_rule. now rewrite iter_row_data, D0. }
  destruct Hc.
  unfold t_mul, t_add.
  rewrite broadcast2_rows with (u := u) by auto with rows. run.
  set (dt := rows_result fmul u D _).
  destruct (Hadd dt) as (a & -> & Da & Sa).
  unfold t_add.
  assert (Ra : rowshape u (shape a))
    by (destruct Sa as [E | E]; rewrite E; constructor).
  assert (Rb : rowshape u (shape (_brownian_motion c)))
    by (rewrite cfg_noise0; constructor).
  assert (Rdt : rowshape u (shape dt)) by (unfold dt; auto with rows).
  rewrite broadcast2_rows with (u := u) by trivial. run.
  rewrite broadcast2_rows with (u := u) by (trivial; constructor). run.
  rewrite broadcast2_rows with (u := u) by auto with rows. run.
  rewrite cfg_units0.
  rewrite reshape_row with (u := u); trivial.
  - unfold bind, lift, ret. rewrite Nat.add_0_r. do 4 f_equal.
    unfold em_step. rewrite cfg_units0, <- DD.
    assert (Nd : shape D <> [])
      by (destruct SD as [E | E]; rewrite E; discriminate).
    assert (Na : shape a <> [])
      by (destruct Sa as [E | E]; rewrite E; discriminate).
    assert (Nb : shape (_brownian_motion c) <> [])
      by (rewrite cfg_noise0; discriminate).
    assert (Hw : width u (longer (shape (rows_result fadd u a dt))
                   (shape (rows_result fmul u (scalar fone) (_brownian_motion c))))
                 = u).
    { simpl. rewrite cfg_noise0.
      destruct Sa as [E | E], SD as [E' | E']; rewrite E, E'; reflexivity. }
    simpl. simpl in Hw. rewrite Hw. f_equal.
    apply map_ext_in. intros j Hj. apply in_seq in Hj.
    unfold dt.
    rewrite !unit_entry_rows_result by (auto with rows; lia).
    rewrite (unit_entry_data a), (unit_entry_data D),
      (unit_entry_data (_brownian_motion c)), Da by trivial.
    reflexivity.
  - simpl. rewrite cfg_noise0.
    destruct Sa as [E | E], SD as [E' | E']; rewrite E, E'; simpl; lia.
Qed.

Lemma euler_update_run (c : LTSCell) (m u : nat) (x : tensor) (s : pyval)
      (t : tensor) :
  configured c m u -> shape x = [1; m] -> state_of u s t ->
  euler_maruyama_update x s c =
  Some (PTensor (mkTensor [1; u] (em_step c (data x) (data t))), c,
        _sde_solver_unfolds c).
Proof.
  intros Hc Hx Hs. apply euler_update_values with (m := m); trivial.
  - apply (state_of_index0 Hs).
  - intros dt. apply (state_of_stack dt Hs).
Qed.

Lemma length_em_step (c : LTSCell) (x s : list F) :
  length (em_step c x s) = units c.
Proof. unfold em_step. now rewrite length_map, length_seq. Qed.

Lemma iter_state_data (u n : nat) (g : list F -> list F) (s : pyval) :
  state_data (Nat.iter n (fun v => PTensor (mkTensor [1; u] (g (state_data v)))) s) =
  Nat.iter n g (state_data s).
Proof. induction n as [|n IH]; simpl; [trivial | now rewrite IH]. Qed.

Lemma iter_state_shape (u n : nat) (g : list F -> list F) (s : pyval) (t : tensor) :
  state_of u s t ->
  state_shape (Nat.iter n (fun v => PTensor (mkTensor [1; u] (g (state_data v)))) s) =
  Some [1; u].
Proof.
  intros Hs. destruct n; simpl; trivial.
  destruct Hs as [t' [E _] | t' [E _]]; simpl; now rewrite E.
Qed.

Lemma euler_run (c : LTSCell) (m u : nat) (x : tensor) (s : pyval) (t : tensor) :
  configured c m u -> shape x = [1; m] -> state_of u s t ->
  _sde_solver_euler_maruyama x s c =
  Some (Nat.iter (_sde_solver_unfolds c)
          (fun v => PTensor (mkTensor [1; u] (em_step c (data x) (state_data v)))) s,
        c, _sde_solver_unfolds c * _sde_solver_unfolds c).
Proof.
  intros Hc Hx Hs. unfold _sde_solver_euler_maruyama. run.
  apply for_range_iter with (I := fun v => exists t', state_of u v t').
  - intros v [t' Hv].
    rewrite euler_update_run with (1 := Hc) (2 := Hx) (3 := Hv).
    now rewrite (state_of_data Hv).
  - intros v _. eexists. apply state_tensor. split; [reflexivity|].
    simpl. rewrite length_em_step. now destruct Hc.
  - now exists t.
Qed.

(** ** The input mapping *)

Lemma map_weights_lazy (x : tensor) (c : LTSCell) :
  _map_weights_and_biases x c =
  bind get_self (fun self =>
    bind (lift (_input_weights self)) (fun w =>
      bind (lift (t_mul x w)) (fun x1 =>
        bind get_self (fun self =>
          bind (lift (_input_biases self)) (fun b =>
            bind (lift (t_add x1 b)) (fun x2 => ret x2))))))
    (with_input_map c).
Proof.
  unfold _map_weights_and_biases, with_input_map. run.
  destruct (_input_weights c) as [w|] eqn:Ew, (_input_biases c) as [b|] eqn:Eb;
    repeat first
      [ rewrite bind_put_self | rewrite bind_lift | rewrite bind_get_self
      | rewrite bind_ret | rewrite Ew | rewrite Eb
      | progress cbn [_input_weights _input_biases input_size
                      set_input_weights set_input_biases] ];
    reflexivity.
Qed.

Lemma with_input_map_weights (c : LTSCell) (m u : nat) :
  configured c m u ->
  exists w b,
    _input_weights (with_input_map c) = Some w /\
    _input_biases (with_input_map c) = Some b /\
    shape w = [m] /\ shape b = [m].
Proof.
  intros Hc. destruct Hc. unfold with_input_map.
  destruct (_input_weights c) as [w|] eqn:Ew, (_input_biases c) as [b|] eqn:Eb;
    simpl in *; rewrite ?Ew, ?Eb; simpl; rewrite ?Ew, ?cfg_input_size0;
    eauto 6.
Qed.

Lemma map_weights_run (c : LTSCell) (m u : nat) (x : tensor) :
  configured c m u -> shape x = [1; m] ->
  _map_weights_and_biases x c =
  Some (mkTensor [1; m] (mapped c (data x)), with_input_map c, 0).
Proof.
  intros Hc Hx. rewrite map_weights_lazy.
  destruct (with_input_map_weights Hc) as (w & b & Ew & Eb & Sw & Sb).
  assert (Hm : input_size c = m) by now destruct Hc.
  assert (Rx : rowshape m (shape x)) by (rewrite Hx; constructor).
  assert (Rw : rowshape m (shape w)) by (rewrite Sw; constructor).
  assert (Rb : rowshape m (shape b)) by (rewrite Sb; constructor).
  assert (Pm : 0 < m) by now destruct Hc.
  run. rewrite Ew. run. unfold t_mul, t_add.
  rewrite broadcast2_rows with (u := m) by trivial. run.
  rewrite Eb. run.
  rewrite broadcast2_rows with (u := m) by auto with rows. run.
  unfold ret. do 3 f_equal.
  unfold mapped. rewrite Hm, Ew, Eb. apply rows_result_row.
  - simpl. rewrite Hx, Sw, Sb. reflexivity.
  - intros j Hj. rewrite unit_entry_rows_result by trivial.
    rewrite (unit_entry_data x), (unit_entry_data w), (unit_entry_data b);
      trivial; rewrite ?Sb, ?Sw, ?Hx; discriminate.
Qed.

(** ** What the methods write *)

Lemma read_only_ret (A : Type) (a : A) : read_only (ret (F := F) a).
Proof. intros c r c' n H. unfold ret in H. now inversion H. Qed.

Lemma read_only_lift (A : Type) (o : option A) : read_only (lift (F := F) o).
Proof. intros c r c' n H. unfold lift in H. destruct o; now inversion H. Qed.

Lemma read_only_get_self : read_only (get_self (F := F)).
Proof. intros c r c' n H. unfold get_self in H. now inversion H. Qed.

Lemma read_only_tick : read_only (tick (F := F)).
Proof. intros c r c' n H. unfold tick in H. now inversion H. Qed.

Lemma read_only_bind (A B : Type) (m : M A) (f : A -> M B) :
  read_only m -> (forall a, read_only (f a)) -> read_only (bind m f).
Proof.
  intros Hm Hf c r c' n H. unfold bind in H.
  destruct (m c) as [[[a c1] n1]|] eqn:E1; [|discriminate].
  destruct (f a c1) as [[[b c2] n2]|] eqn:E2; [|discriminate].
  inversion H; subst.
  apply Hm in E1. apply Hf in E2. congruence.
Qed.

Lemma read_only_for_range (A : Type) (body : A -> M A) (n : nat) (x : A) :
  (forall a, read_only (body a)) -> read_only (for_range n body x).
Proof.
  intros Hb. revert x. induction n as [|n IH]; intros x; simpl.
  - apply read_only_ret.
  - apply read_only_bind; auto.
Qed.

Ltac read_only_tac :=
  repeat first
    [ apply read_only_ret | apply read_only_lift | apply read_only_get_self
    | apply read_only_tick
    | apply read_only_for_range; intros ?
    | apply read_only_bind; [|intros ?] ].

Lemma read_only_drift_update (wn wd v : tensor) : read_only (drift_update wn wd v).
Proof. unfold drift_update. read_only_tac. Qed.

Lemma read_only_drift (x : tensor) (s : pyval) : read_only (_sde_solver_drift x s).
Proof.
  unfold _sde_solver_drift. read_only_tac.
Qed.

Lemma read_only_diffusion (x : tensor) (s : pyval) :
  read_only (_sde_solver_diffusion x s).
Proof. unfold _sde_solver_diffusion. read_only_tac. Qed.

Lemma read_only_euler_update (x : tensor) (s : pyval) :
  read_only (euler_maruyama_update x s).
Proof.
  unfold euler_maruyama_update.
  apply read_only_bind; [apply read_only_drift | intros ?].
  apply read_only_bind; [apply read_only_diffusion | intros ?].
  read_only_tac.
Qed.

Lemma read_only_euler (x : tensor) (s : pyval) :
  read_only (_sde_solver_euler_maruyama x s).
Proof.
  unfold _sde_solver_euler_maruyama.
  apply read_only_bind; [apply read_only_get_self | intros self].
  apply read_only_for_range. intros a. apply read_only_euler_update.
Qed.

Lemma with_input_map_idem (c : LTSCell) :
  with_input_map (with_input_map c) = with_input_map c.
Proof.
  unfold with_input_map.
  destruct (_input_weights c) as [w|] eqn:Ew, (_input_biases c) as [b|] eqn:Eb;
    simpl; rewrite ?Ew, ?Eb; simpl; rewrite ?Ew, ?Eb; reflexivity.
Qed.

Lemma map_weights_writes (x x' : tensor) (c c' : LTSCell) (n : nat) :
  _map_weights_and_biases x c = Some (x', c', n) ->
  c' = with_input_map c /\ _map_weights_and_biases x c' = Some (x', c', n).
Proof.
  intros H. rewrite map_weights_lazy in H.
  assert (E : c' = with_input_map c).
  { revert H. apply read_only_bind; [apply read_only_get_self | intros ?].
    read_only_tac. }
  split; trivial.
  rewrite map_weights_lazy. subst c'. now rewrite with_input_map_idem.
Qed.

Lemma configured_with_input_map (c : LTSCell) (m u : nat) :
  configured c m u -> configured (with_input_map c) m u.
Proof.
  intros Hc. destruct Hc. unfold with_input_map.
  destruct (_input_weights c) as [w|] eqn:Ew, (_input_biases c) as [b|] eqn:Eb;
    simpl in *; rewrite ?Ew, ?Eb; simpl; rewrite ?Ew, ?Eb;
    constructor; simpl; rewrite ?Ew, ?Eb; simpl;
    rewrite ?cfg_input_size0; trivial.
Qed.

(** ** The whole step *)

Lemma same_variables_with_input_map (c : LTSCell) :
  same_variables c (with_input_map c).
Proof.
  unfold with_input_map.
  destruct (_input_weights c) as [w|] eqn:Ew, (_input_biases c) as [b|] eqn:Eb;
    simpl; rewrite ?Ew, ?Eb; constructor; reflexivity.
Qed.

Lemma keeps_input_map_with_input_map (c : LTSCell) :
  keeps_input_map c (with_input_map c).
Proof.
  unfold with_input_map, keeps_input_map.
  destruct (_input_weights c) as [w|] eqn:Ew, (_input_biases c) as [b|] eqn:Eb;
    simpl; rewrite ?Ew, ?Eb; simpl; rewrite ?Ew, ?Eb;
    split; intros ? E; solve [discriminate | exact E].
Qed.

Lemma em_step_same_variables (c c' : LTSCell) (x s : list F) :
  same_variables c c' -> em_step c' x s = em_step c x s.
Proof.
  intros H. destruct H.
  unfold em_step, drift_rule, balance, sensory_numerator, sensory_denominator,
    sensory_w, recurrent_w.
  now rewrite sv_units0, sv_input_size0, sv_time_step0, sv_noise0, sv_unfolds0,
    sv_sensory_mu0, sv_sensory_sigma0, sv_sensory_W0, sv_sensory_erev0,
    sv_mu0, sv_sigma0, sv_W0, sv_erev0, sv_vleak0, sv_gleak0, sv_cm_t0.
Qed.

Lemma iter_pointwise (A : Type) (f g : A -> A) (n : nat) (a : A) :
  (forall y, f y = g y) -> Nat.iter n f a = Nat.iter n g a.
Proof.
  intros H. induction n as [|n IH]; simpl; [trivial | now rewrite IH, H].
Qed.

Lemma call_run (c : LTSCell) (m u : nat) (x : tensor) (s : pyval) (t : tensor) :
  configured c m u -> shape x = [1; m] -> state_of u s t ->
  call x s c =
  Some ((Nat.iter (_sde_solver_unfolds c)
           (fun v => PTensor (mkTensor [1; u]
                       (em_step c (mapped c (data x)) (state_data v)))) s,
         Nat.iter (_sde_solver_unfolds c)
           (fun v => PTensor (mkTensor [1; u]
                       (em_step c (mapped c (data x)) (state_data v)))) s),
        with_input_map c,
        _sde_solver_unfolds c * _sde_solver_unfolds c).
Proof.
  intros Hc Hx Hs. unfold call.
  rewrite bind_value with (1 := map_weights_run x Hc Hx). cbv beta.
  pose proof (configured_with_input_map Hc) as Hc'.
  pose proof (same_variables_with_input_map c) as Hv.
  rewrite bind_value
    with (1 := euler_run (mkTensor [1; m] (mapped c (data x))) Hc' eq_refl Hs).
  unfold ret. cbn [data]. rewrite (sv_unfolds Hv). simpl.
  rewrite Nat.add_0_r.
  rewrite iter_pointwise
    with (g := fun v => PTensor (mkTensor [1; u]
                          (em_step c (mapped c (data x)) (state_data v))));
    [reflexivity|].
  intros y. now rewrite (em_step_same_variables _ _ Hv).
Qed.

Lemma call_inv (x : tensor) (s : pyval) (c c' : LTSCell) (r : pyval * pyval)
      (k : nat) :
  call x s c = Some (r, c', k) ->
  exists x' k1 next k2,
    _map_weights_and_biases x c = Some (x', with_input_map c, k1) /\
    _sde_solver_euler_maruyama x' s (with_input_map c) =
      Some (next, with_input_map c, k2) /\
    r = (next, next) /\ c' = with_input_map c /\ k = k1 + (k2 + 0).
Proof.
  unfold call, bind. intros H.
  destruct (_map_weights_and_biases x c) as [[[x' c1] k1]|] eqn:E1;
    [|discriminate].
  destruct (_sde_solver_euler_maruyama x' s c1) as [[[next c2] k2]|] eqn:E2;
    [|discriminate].
  unfold ret in H. inversion H; subst; clear H.
  pose proof E1 as E1'. apply map_weights_writes in E1' as [-> _].
  pose proof E2 as E2'. apply read_only_euler in E2' as ->.
  exists x', k1, next, k2. auto.
Qed.

(** ** The degenerate cases *)

Lemma vget_all_zero (t : tensor) (j : nat) : all_zero t -> vget (data t) j = fzero.
Proof.
  unfold all_zero, vget. intros H.
  destruct (Nat.lt_ge_cases j (length (data t))) as [Hj | Hj].
  - rewrite Forall_forall in H. apply H. now apply nth_In.
  - now apply nth_overflow.
Qed.

Lemma get_all_zero (t : tensor) (idx : list nat) : all_zero t -> get t idx = fzero.
Proof. intros H. unfold get. now apply (vget_all_zero (offset (shape t) idx)). Qed.

Lemma fsum_zeros (A : Type) (g : A -> F) (l : list A) :
  exact_zero_one F -> (forall a, g a = fzero) -> fsum (map g l) = fzero.
Proof.
  intros L Hg. unfold fsum.
  induction l as [|a l IH]; simpl; trivial.
  now rewrite Hg, (fadd_zero_r L).
Qed.

Lemma balance_zero_weights (c : LTSCell) (x v : list F) :
  exact_zero_one F -> all_zero (W c) -> all_zero (sensory_W c) ->
  balance c (sensory_numerator c x) (sensory_denominator c x) v = leak c v.
Proof.
  intros L HW HS. unfold balance, leak. apply map_ext_in.
  intros j Hj. apply in_seq in Hj.
  unfold sensory_numerator, sensory_denominator.
  rewrite !vget_map_seq by lia.
  rewrite !fsum_zeros; trivial.
  - now rewrite !(fadd_zero_r L).
  - intros i. unfold sensory_w. now rewrite get_all_zero, (fmul_zero_l L).
  - intros i. unfold recurrent_w. now rewrite get_all_zero, (fmul_zero_l L).
  - intros i. unfold sensory_w.
    now rewrite get_all_zero, !(fmul_zero_l L).
  - intros i. unfold recurrent_w.
    now rewrite get_all_zero, !(fmul_zero_l L).
Qed.

Lemma em_step_zero_noise (c : LTSCell) (x s : list F) :
  exact_zero_one F -> all_zero (_brownian_motion c) ->
  em_step c x s = euler_step c x s.
Proof.
  intros L Hz. unfold em_step, euler_step. apply map_ext.
  intros j. now rewrite vget_all_zero, (fmul_one_l L), (fadd_zero_r L).
Qed.

(** ** States of other shapes, and what every sub-step returns *)

Lemma accepted_data (u : nat) (s : pyval) (t : tensor) :
  accepted u s t -> state_data s = data t.
Proof.
  intros [s' t' H | t' _ _ | t' _ _]; simpl;
    [apply (state_of_data H) | apply app_nil_r | trivial].
Qed.

Lemma accepted_index0 (u : nat) (s : pyval) (t : tensor) :
  accepted u s t ->
  exists v0, py_index0 s = Some v0 /\ data v0 = data t /\
             (shape v0 = [u] \/ shape v0 = [1; u]).
Proof.
  intros [s' t' H | t' Hs Hl | t' Hs Hl].
  - apply (state_of_index0 H).
  - exists t'. simpl. auto.
  - simpl. unfold index0. rewrite Hs. simpl. eexists. split; [reflexivity|].
    simpl. split; [|now right].
    apply firstn_all2. lia.
Qed.

Lemma accepted_stack (u : nat) (s : pyval) (t : tensor) (d : tensor) :
  accepted u s t ->
  exists a, py_add s d = t_add a d /\ data a = data t /\
            (shape a = [1; u] \/ shape a = [1; 1; u]).
Proof.
  intros [s' t' H | t' Hs Hl | t' Hs Hl].
  - apply (state_of_stack d H).
  - eexists. split; [reflexivity|]. simpl. rewrite app_nil_r, Hs. auto.
  - exists t'. auto.
Qed.

Lemma euler_update_accepted (c : LTSCell) (m u : nat) (x : tensor) (s : pyval)
      (t : tensor) :
  configured c m u -> shape x = [1; m] -> accepted u s t ->
  euler_maruyama_update x s c =
  Some (PTensor (mkTensor [1; u] (em_step c (data x) (data t))), c,
        _sde_solver_unfolds c).
Proof.
  intros Hc Hx Hs. apply euler_update_values with (m := m); trivial.
  - apply (accepted_index0 Hs).
  - intros dt. apply (accepted_stack dt Hs).
Qed.

Lemma euler_accepted (c : LTSCell) (m u : nat) (x : tensor) (s : pyval)
      (t : tensor) :
  configured c m u -> shape x = [1; m] -> accepted u s t ->
  _sde_solver_euler_maruyama x s c =
  Some (Nat.iter (_sde_solver_unfolds c)
          (fun v => PTensor (mkTensor [1; u] (em_step c (data x) (state_data v)))) s,
        c, _sde_solver_unfolds c * _sde_solver_unfolds c).
Proof.
  intros Hc Hx Hs. unfold _sde_solver_euler_maruyama. run.
  apply for_range_iter with (I := fun v => exists t', accepted u v t').
  - intros v [t' Hv].
    rewrite euler_update_accepted with (1 := Hc) (2 := Hx) (3 := Hv).
    now rewrite (accepted_data Hv).
  - intros v _. eexists. apply accepted_row, state_tensor.
    split; [reflexivity|].
    simpl. rewrite length_em_step. now destruct Hc.
  - now exists t.
Qed.

Lemma call_accepted (c : LTSCell) (m u : nat) (x : tensor) (s : pyval)
      (t : tensor) :
  configured c m u -> shape x = [1; m] -> accepted u s t ->
  call x s c =
  Some ((Nat.iter (_sde_solver_unfolds c)
           (fun v => PTensor (mkTensor [1; u]
                       (em_step c (mapped c (data x)) (state_data v)))) s,
         Nat.iter (_sde_solver_unfolds c)
           (fun v => PTensor (mkTensor [1; u]
                       (em_step c (mapped c (data x)) (state_data v)))) s),
        with_input_map c,
        _sde_solver_unfolds c * _sde_solver_unfolds c).
Proof.
  intros Hc Hx Hs. unfold call.
  rewrite bind_value with (1 := map_weights_run x Hc Hx). cbv beta.
  pose proof (configured_with_input_map Hc) as Hc'.
  pose proof (same_variables_with_input_map c) as Hv.
  rewrite bind_value
    with (1 := euler_accepted (mkTensor [1; m] (mapped c (data x))) Hc' eq_refl Hs).
  unfold ret. cbn [data]. rewrite (sv_unfolds Hv). simpl.
  rewrite Nat.add_0_r.
  rewrite iter_pointwise
    with (g := fun v => PTensor (mkTensor [1; u]
                          (em_step c (mapped c (data x)) (state_data v))));
    [reflexivity|].
  intros y. now rewrite (em_step_same_variables _ _ Hv).
Qed.

Lemma iter_row_state_shape (u n : nat) (g : pyval -> list F) (s : pyval) :
  0 < n ->
  state_shape (Nat.iter n (fun v => PTensor (mkTensor [1; u] (g v))) s) =
  Some [1; u].
Proof. destruct n; [lia | reflexivity]. Qed.

Lemma bind_inv (A B : Type) (m : M A) (f : A -> M B) (c c2 : LTSCell)
      (b : B) (n : nat) :
  bind m f c = Some (b, c2, n) ->
  exists a c1 n1 n2,
    m c = Some (a, c1, n1) /\ f a c1 = Some (b, c2, n2) /\ n = n1 + n2.
Proof.
  unfold bind. intros H.
  destruct (m c) as [[[a c1] n1]|] eqn:E1; [|discriminate].
  destruct (f a c1) as [[[b' c2'] n2]|] eqn:E2; [|discriminate].
  inversion H; subst. exists a, c1, n1, n2. repeat split; trivial.
Qed.

Lemma lift_inv (A : Type) (o : option A) (c c1 : LTSCell) (a : A) (n : nat) :
  lift o c = Some (a, c1, n) -> o = Some a /\ c1 = c /\ n = 0.
Proof. unfold lift. destruct o; intros H; inversion H; auto. Qed.

Lemma reshape_shape_row (t r : tensor) (z : Z) (u : nat) :
  z = 1%Z -> reshape t [z; Z.of_nat u] = Some r -> shape r = [1; u].
Proof.
  intros -> H. unfold reshape, resolve_shape in H.
  assert (H1 : (-1 <=? Z.of_nat u)%Z = true) by (apply Z.leb_le; lia).
  assert (H2 : (Z.of_nat u =? -1)%Z = false) by (apply Z.eqb_neq; lia).
  simpl in H. rewrite H1, H2 in H. simpl in H. rewrite Nat2Z.id in H.
  destruct (_ =? _) in H; [|discriminate].
  inversion H. reflexivity.
Qed.

Ltac step_in H :=
  first
    [ rewrite bind_get_self in H
    | rewrite bind_ret in H
    | let E := fresh "E" in
      apply bind_inv in H as (? & ? & ? & ? & E & H & _);
      apply lift_inv in E as (E & -> & _) ];
  cbv beta in H.

(* whatever the input and the state, a sub-step that returns, returns a
   tensor of shape [int(time_step), units] *)
Lemma euler_update_shape (c c' : LTSCell) (m u : nat) (x : tensor)
      (s r : pyval) (n : nat) :
  configured c m u ->
  euler_maruyama_update x s c = Some (r, c', n) ->
  state_shape r = Some [1; u].
Proof.
  intros Hc H. unfold euler_maruyama_update in H.
  apply bind_inv in H as (drift & c1 & n1 & n2 & E & H & _).
  apply read_only_drift in E as ->.
  unfold _sde_solver_diffusion in H.
  repeat step_in H.
  unfold ret in H. inversion H; subst. simpl. f_equal.
  destruct Hc. rewrite cfg_units0 in *.
  match goal with
  | R : reshape _ _ = Some _ |- _ => now apply reshape_shape_row with (2 := R)
  end.
Qed.

Lemma for_range_last (A : Type) (body : A -> M A) (n : nat) (s r : A)
      (c c' : LTSCell) (k : nat) :
  (forall a, read_only (body a)) ->
  for_range (S n) body s c = Some (r, c', k) ->
  exists s' k', body s' c = Some (r, c', k').
Proof.
  intros Hb. revert s k. induction n as [|n IH]; intros s k H.
  - simpl in H. apply bind_inv in H as (a & c1 & n1 & n2 & E & H & _).
    unfold ret in H. inversion H; subst. eauto.
  - change (for_range (S (S n)) body s c)
      with (bind (body s) (for_range (S n) body) c) in H.
    apply bind_inv in H as (a & c1 & n1 & n2 & E & H & _).
    pose proof (Hb _ _ _ _ _ E) as ->. now apply IH in H.
Qed.

Lemma euler_shape (c c' : LTSCell) (m u : nat) (x : tensor) (s r : pyval)
      (k : nat) :
  configured c m u -> 0 < _sde_solver_unfolds c ->
  _sde_solver_euler_maruyama x s c = Some (r, c', k) ->
  state_shape r = Some [1; u].
Proof.
  intros Hc Hn H. unfold _sde_solver_euler_maruyama in H.
  rewrite bind_get_self in H.
  destruct (_sde_solver_unfolds c) as [|n]; [lia|].
  apply for_range_last in H as (s' & k' & H);
    [|intros a; apply read_only_euler_update].
  now apply euler_update_shape with (1 := Hc) in H.
Qed.

Lemma call_shape (c c' : LTSCell) (m u : nat) (x : tensor)
      (s output next_state : pyval) (k : nat) :
  configured c m u -> 0 < _sde_solver_unfolds c ->
  call x s c = Some ((output, next_state), c', k) ->
  state_shape next_state = Some [1; u].
Proof.
  intros Hc Hn H.
  apply call_inv in H as (x' & k1 & next & k2 & _ & E2 & Er & _ & _).
  inversion Er; subst.
  apply euler_shape with (m := m) (u := u) in E2; trivial.
  - now apply configured_with_input_map.
  - now rewrite (sv_unfolds (same_variables_with_input_map c)).
Qed.

End CellFacts.

(** ** The logistic function on the reals *)

Section Logistic.

Import Reals Lra.
#[local] Open Scope R_scope.

Lemma sigmoid_open_unit (x : R) : Real.in_open_unit (Real.sigmoid x).
Proof.
  unfold Real.in_open_unit, Real.sigmoid.
  pose proof (exp_pos (- x)) as He.
  split.
  - apply Rinv_0_lt_compat. lra.
  - rewrite <- Rinv_1 at 2.
    apply Rinv_lt_contravar; lra.
Qed.

End Logistic.

(** * Properties of the cell *)

Section Claims.

Context {F : Type} {SF : Scalar F}.

#[local] Abbreviation tensor := (tensor F).
#[local] Abbreviation pyval := (pyval F).
#[local] Abbreviation LTSCell := (LTSCell F).

(** C1: on a configured cell, for a mapped input row and a previous state,
    [_sde_solver_drift] succeeds, leaves the cell alone and returns the
    final [v_pre]: the sensory numerator and denominator (the sensory
    conductance activation [sensory_W * sigmoid(input)] and that times
    [sensory_erev], each summed over the input-feature axis) are formed
    once, and the update
    [v_pre := (cm_t * v_pre + gleak * vleak + sum(rev_activation) + sensory_numerator)
            / (cm_t + gleak + sum(w_activation) + sensory_denominator)]
    is then applied [_sde_solver_unfolds] times with those same sums. *)
Theorem drift_performs_balance_iterations
        (c : LTSCell) (m u : nat) (x : tensor) (s : pyval) (t : tensor) :
  configured c m u -> shape x = [1; m] -> state_of u s t ->
  exists v,
    _sde_solver_drift x s c = Some (v, c, _sde_solver_unfolds c) /\
    data v =
      Nat.iter (_sde_solver_unfolds c)
        (balance c (sensory_numerator c (data x))
                   (sensory_denominator c (data x)))
        (data t) /\
    (0 < _sde_solver_unfolds c -> shape v = [1; u]).
Proof.
  intros Hc Hx Hs.
  destruct (state_of_index0 Hs) as (v0 & E0 & D0 & S0).
  eexists. split; [apply (drift_run x s Hc Hx E0 S0)|].
  split.
  - now rewrite iter_row_data, D0.
  - apply iter_row_shape.
Qed.

(** C2: the Euler-Maruyama stepper performs [_sde_solver_unfolds] outer
    iterations, each replacing the state by the reshaped
    [state + drift(input, state) * time_step + diffusion * noise], and
    returns the last state; the conductance-balance update is executed
    [_sde_solver_unfolds * _sde_solver_unfolds] times, 36 with the constants
    of [__init__]. *)
Theorem euler_maruyama_runs_unfolds_squared
        (c : LTSCell) (m u : nat) (x : tensor) (s : pyval) (t : tensor) :
  configured c m u -> shape x = [1; m] -> state_of u s t ->
  exists r,
    _sde_solver_euler_maruyama x s c =
      Some (r, c, _sde_solver_unfolds c * _sde_solver_unfolds c) /\
    state_data r =
      Nat.iter (_sde_solver_unfolds c) (em_step c (data x)) (state_data s) /\
    state_shape r = Some [1; u] /\
    (initialised c -> _sde_solver_unfolds c * _sde_solver_unfolds c = 36).
Proof.
  intros Hc Hx Hs.
  eexists. split; [apply (euler_run x Hc Hx Hs)|].
  split; [apply iter_state_data|].
  split; [apply (iter_state_shape _ _ Hs)|].
  intros [_ ->]. reflexivity.
Qed.

(** C3: [call] returns a next state of shape [int(time_step), units], that
    is [1, units].  For an input of shape [1, input_size], a state that
    hands over [units] values in one of the forms a sub-step takes in (a
    [1, units] tensor, bare or as the one element of a tuple; a flat vector
    as the one element of a tuple; a bare [1, 1, units] tensor) and at
    least one sub-step, the call returns and its next state has that
    shape, which is the shape of the incoming state exactly when that state
    was a [1, units] tensor.  And whatever the input and the state, a call
    that returns, returns a next state of shape [1, units]. *)
Theorem next_state_is_a_row
        (c : LTSCell) (m u : nat) (x : tensor) (s : pyval) (t : tensor) :
  configured c m u -> shape x = [1; m] -> accepted u s t ->
  0 < _sde_solver_unfolds c ->
  (exists output next_state c' k,
     call x s c = Some ((output, next_state), c', k) /\
     state_shape next_state = Some [1; u] /\
     (state_shape next_state = state_shape s <-> state_of u s t)) /\
  (forall x' s' output next_state c' k,
     call x' s' c = Some ((output, next_state), c', k) ->
     state_shape next_state = Some [1; u]).
Proof.
  intros Hc Hx Hs Hn. split.
  - do 4 eexists. split; [apply (call_accepted x Hc Hx Hs)|].
    rewrite iter_row_state_shape by trivial. split; trivial.
    split.
    + intros E. destruct Hs as [s0 t0 H | t0 Ht _ | t0 Ht _]; trivial;
        simpl in E; rewrite Ht in E; discriminate.
    + intros [t0 [E _] | t0 [E _]]; simpl; now rewrite E.
  - intros x' s' output next_state c' k H.
    now apply call_shape with (1 := Hc) in H.
Qed.

(** C4: a call that returned returns the same result when it is repeated on
    the same input and state: nothing in the forward pass is drawn per
    call, and the lazily created input weights do not change the result. *)
Theorem call_is_deterministic
        (x : tensor) (s : pyval) (c c' : LTSCell) (r : pyval * pyval) (k : nat) :
  call x s c = Some (r, c', k) -> call x s c' = Some (r, c', k).
Proof.
  intros H.
  apply call_inv in H as (x' & k1 & next & k2 & E1 & E2 & -> & -> & ->).
  apply map_weights_writes in E1 as [_ E1].
  unfold call. rewrite bind_value with (1 := E1). cbv beta.
  rewrite bind_value with (1 := E2). reflexivity.
Qed.

(** C5: when the sensory and the recurrent weight matrices are all zero
    (and 0 * x = 0, x + 0 = x), every inner iteration of the drift is
    [v_pre := (cm_t * v_pre + gleak * vleak) / (cm_t + gleak)], and the
    drift does not depend on the input. *)
Theorem zero_weights_give_leak_dynamics
        (c : LTSCell) (m u : nat) (x x' : tensor) (s : pyval) (t : tensor) :
  exact_zero_one F -> configured c m u ->
  all_zero (W c) -> all_zero (sensory_W c) ->
  shape x = [1; m] -> shape x' = [1; m] -> state_of u s t ->
  exists v,
    _sde_solver_drift x s c = Some (v, c, _sde_solver_unfolds c) /\
    data v = Nat.iter (_sde_solver_unfolds c) (leak c) (data t) /\
    _sde_solver_drift x' s c = _sde_solver_drift x s c /\
    (forall w,
       shape w = [u] \/ shape w = [1; u] ->
       drift_update (mkTensor [1; u] (sensory_numerator c (data x)))
                    (mkTensor [1; u] (sensory_denominator c (data x))) w c =
       Some (mkTensor [1; u] (leak c (data w)), c, 1)).
Proof.
  intros L Hc HW HS Hx Hx' Hs.
  destruct (state_of_index0 Hs) as (v0 & E0 & D0 & S0).
  eexists. split; [apply (drift_run x s Hc Hx E0 S0)|].
  split; [|split].
  - rewrite iter_row_data, D0. apply iter_pointwise.
    intros y. now apply balance_zero_weights.
  - rewrite (drift_run x' s Hc Hx' E0 S0), (drift_run x s Hc Hx E0 S0).
    do 3 f_equal. apply iter_pointwise.
    intros y. now rewrite !balance_zero_weights.
  - intros w Hw.
    rewrite drift_update_run with (m := m) (u := u); trivial.
    cbn [data]. now rewrite balance_zero_weights.
Qed.

(** C6: [_sde_solver_diffusion] returns the constant 1 on every input and
    state; with a zero noise vector (and 1 * x = x, x + 0 = x) a sub-step is
    the deterministic Euler update [state + drift * time_step]. *)
Theorem unit_diffusion_noiseless_euler
        (c : LTSCell) (m u : nat) (x : tensor) (s : pyval) (t : tensor) :
  exact_zero_one F -> configured c m u -> all_zero (_brownian_motion c) ->
  shape x = [1; m] -> state_of u s t ->
  (forall x' s' c', _sde_solver_diffusion x' s' c' = Some (scalar fone, c', 0)) /\
  euler_maruyama_update x s c =
    Some (PTensor (mkTensor [1; u] (euler_step c (data x) (data t))), c,
          _sde_solver_unfolds c).
Proof.
  intros L Hc Hz Hx Hs. split; [reflexivity|].
  rewrite (euler_update_run x Hc Hx Hs).
  now rewrite em_step_zero_noise.
Qed.

(** C7: with [_sde_solver_unfolds = 1] the drift is one conductance-balance
    update of [v_pre]: a single application of the numerator/denominator
    formula, charged once. *)
Theorem single_unfold_single_update
        (c : LTSCell) (m u : nat) (x : tensor) (s : pyval) (t : tensor) :
  configured c m u -> _sde_solver_unfolds c = 1 ->
  shape x = [1; m] -> state_of u s t ->
  _sde_solver_drift x s c =
  Some (mkTensor [1; u]
          (balance c (sensory_numerator c (data x))
                     (sensory_denominator c (data x)) (data t)),
        c, 1).
Proof.
  intros Hc H1 Hx Hs.
  destruct (state_of_index0 Hs) as (v0 & E0 & D0 & S0).
  rewrite (drift_run x s Hc Hx E0 S0), H1. simpl. now rewrite D0.
Qed.

(** C9: a call leaves the variables of [_init_variables] and the noise
    vector as they were and keeps input weights and biases that exist; a
    later call changes nothing at all; and every sub-step run on the cell
    adds the noise vector the cell had before the call. *)
Theorem call_keeps_variables_and_noise
        (x : tensor) (s : pyval) (c c' : LTSCell) (r : pyval * pyval) (k : nat) :
  call x s c = Some (r, c', k) ->
  same_variables c c' /\
  keeps_input_map c c' /\
  (forall x2 s2 r2 c2 k2, call x2 s2 c' = Some (r2, c2, k2) -> c2 = c') /\
  (forall m u x2 s2 t2,
     configured c' m u -> shape x2 = [1; m] -> state_of u s2 t2 ->
     euler_maruyama_update x2 s2 c' =
     Some (PTensor (mkTensor [1; u]
             (map (fun j =>
                     fadd (fadd (vget (data t2) j)
                                (fmul (vget (drift_rule c' (data x2) (data t2)) j)
                                      (_time_step c')))
                          (fmul fone (vget (data (_brownian_motion c)) j)))
                  (seq 0 u))),
           c', _sde_solver_unfolds c')).
Proof.
  intros H.
  apply call_inv in H as (x' & k1 & next & k0 & _ & _ & _ & -> & _).
  split; [apply same_variables_with_input_map|].
  split; [apply keeps_input_map_with_input_map|].
  split.
  - intros x2 s2 r2 c2 k2 H2.
    apply call_inv in H2 as (? & ? & ? & ? & _ & _ & _ & -> & _).
    apply with_input_map_idem.
  - intros m u x2 s2 t2 Hc Hx Hs.
    rewrite (euler_update_run x2 Hc Hx Hs). unfold em_step.
    rewrite (sv_noise (same_variables_with_input_map c)).
    now rewrite (cfg_units Hc).
Qed.

(** C10: [call] returns a pair whose two components are the same value: the
    output is the next state. *)
Theorem call_output_is_next_state
        (x : tensor) (s : pyval) (c c' : LTSCell) (output next_state : pyval)
        (k : nat) :
  call x s c = Some ((output, next_state), c', k) -> output = next_state.
Proof.
  intros H.
  apply call_inv in H as (x' & k1 & next & k2 & _ & _ & E & _ & _).
  now inversion E.
Qed.

End Claims.

(** * The properties on concrete cells *)

Import Rational.
Import Real.

Lemma configured_cell (n : nat) (w sw : list Qcanon.Qc) :
  configured (cell n w sw) 3 2.
Proof.
  constructor; try reflexivity; try lia; try exact I; left; reflexivity.
Qed.

Lemma configured_quiet_cell : configured quiet_cell 3 2.
Proof.
  constructor; try reflexivity; try lia; try exact I; left; reflexivity.
Qed.

Lemma state_of_tuple_state0 : state_of 2 (PTuple [state0]) state0.
Proof. apply state_tuple. split; reflexivity. Qed.

Lemma state_of_tensor_state0 : state_of 2 (PTensor state0) state0.
Proof. apply state_tensor. split; reflexivity. Qed.

Lemma exact_zero_one_Qc : exact_zero_one Qcanon.Qc.
Proof.
  constructor; intros x.
  - apply Qcanon.Qcmult_0_l.
  - apply Qcanon.Qcplus_0_r.
  - apply Qcanon.Qcmult_1_l.
Qed.

(** ** Runs of the model *)

Example run_zero_weight_cell :
  option_map (fun r => (state_shape (snd (fst (fst r))), snd r))
             (call input (PTuple [state0]) zero_weight_cell) =
  Some (Some [1; 2], 36).
Proof. vm_compute. reflexivity. Qed.

Example run_one_unfold_cell :
  option_map (fun r => (state_shape (snd (fst (fst r))), snd r))
             (call input (PTensor state0) one_unfold_cell) =
  Some (Some [1; 2], 1).
Proof. vm_compute. reflexivity. Qed.

(* a state given as a bare vector of length [units] is refused: its first
   entry is a scalar, which has no last axis *)
Example run_vector_state :
  call input (PTensor (vec [q 0 1; q 0 1])) one_unfold_cell = None.
Proof. vm_compute. reflexivity. Qed.

(* a batch of two rows is refused by the reshape to [1, units] *)
Example run_batch_of_two :
  call (mkTensor [2; 3] [q 1 10; q 1 5; q 3 10; q 1 10; q 1 5; q 3 10])
       (PTensor (mkTensor [2; 2] [q 0 1; q 0 1; q 0 1; q 0 1]))
       one_unfold_cell = None.
Proof. vm_compute. reflexivity. Qed.

Lemma drift_performs_balance_iterations_witness :
  exists v,
    _sde_solver_drift input (PTuple [state0]) default_cell =
      Some (v, default_cell, 6) /\
    data v =
      Nat.iter 6
        (balance default_cell (sensory_numerator default_cell (data input))
                 (sensory_denominator default_cell (data input)))
        (data state0) /\
    (0 < 6 -> shape v = [1; 2]).
Proof.
  apply (@drift_performs_balance_iterations _ _
           default_cell 3 2 input (PTuple [state0]) state0).
  - apply configured_cell.
  - reflexivity.
  - apply state_of_tuple_state0.
Defined.

Lemma euler_maruyama_runs_unfolds_squared_witness :
  exists r,
    _sde_solver_euler_maruyama input (PTensor state0) default_cell =
      Some (r, default_cell, 36) /\
    state_data r =
      Nat.iter 6 (em_step default_cell (data input)) (data state0) /\
    state_shape r = Some [1; 2] /\
    (initialised default_cell -> 36 = 36).
Proof.
  apply (@euler_maruyama_runs_unfolds_squared _ _
           default_cell 3 2 input (PTensor state0) state0).
  - apply configured_cell.
  - reflexivity.
  - apply state_of_tensor_state0.
Defined.

Lemma next_state_is_a_row_witness :
  (exists output next_state c' k,
     call input (PTuple [Samples.flat_state]) default_cell =
       Some ((output, next_state), c', k) /\
     state_shape next_state = Some [1; 2] /\
     (state_shape next_state = state_shape (PTuple [Samples.flat_state]) <->
      state_of 2 (PTuple [Samples.flat_state]) Samples.flat_state)) /\
  (forall x' s' output next_state c' k,
     call x' s' default_cell = Some ((output, next_state), c', k) ->
     state_shape next_state = Some [1; 2]).
Proof.
  apply (@next_state_is_a_row _ _
           default_cell 3 2 input (PTuple [Samples.flat_state])
           Samples.flat_state).
  - apply configured_cell.
  - reflexivity.
  - apply accepted_flat; reflexivity.
  - simpl. lia.
Defined.

(** C3, as stated, fails: two units' values handed over as a flat vector
    in a one-element tuple are taken in, and the next state does not have
    the shape [2] of the incoming state: it comes back as [1, 2]. *)
Lemma flat_state_comes_back_as_a_row :
  exists output next_state c' k,
    call input (PTuple [Samples.flat_state]) default_cell =
      Some ((output, next_state), c', k) /\
    state_shape (PTuple [Samples.flat_state]) = Some [2] /\
    state_shape next_state = Some [1; 2] /\
    state_shape next_state <> state_shape (PTuple [Samples.flat_state]).
Proof.
  assert (Ha : accepted 2 (PTuple [Samples.flat_state]) Samples.flat_state)
    by (apply accepted_flat; reflexivity).
  do 4 eexists. split.
  - apply call_accepted with (m := 3) (t := Samples.flat_state);
      [apply configured_cell | reflexivity | exact Ha].
  - split; [reflexivity|]. simpl. split; [reflexivity | discriminate].
Qed.

Lemma call_is_deterministic_witness :
  exists r c' k,
    call input (PTuple [state0]) one_unfold_cell = Some (r, c', k) /\
    call input (PTuple [state0]) c' = Some (r, c', k).
Proof.
  do 3 eexists.
  assert (E : call input (PTuple [state0]) one_unfold_cell = Some _)
    by (apply (@call_run _ _ one_unfold_cell 3 2 input (PTuple [state0]) state0
                 (configured_cell 1 some_w some_sw) eq_refl
                 state_of_tuple_state0)).
  split; [exact E | exact (@call_is_deterministic _ _ _ _ _ _ _ _ E)].
Defined.

Lemma zero_weights_give_leak_dynamics_witness :
  exists v,
    _sde_solver_drift input (PTuple [state0]) zero_weight_cell =
      Some (v, zero_weight_cell, 6) /\
    data v = Nat.iter 6 (leak zero_weight_cell) (data state0) /\
    _sde_solver_drift other_input (PTuple [state0]) zero_weight_cell =
      _sde_solver_drift input (PTuple [state0]) zero_weight_cell /\
    (forall w,
       shape w = [2] \/ shape w = [1; 2] ->
       drift_update
         (mkTensor [1; 2] (sensory_numerator zero_weight_cell (data input)))
         (mkTensor [1; 2] (sensory_denominator zero_weight_cell (data input)))
         w zero_weight_cell =
       Some (mkTensor [1; 2] (leak zero_weight_cell (data w)),
             zero_weight_cell, 1)).
Proof.
  apply (@zero_weights_give_leak_dynamics _ _
           zero_weight_cell 3 2 input other_input (PTuple [state0]) state0).
  - apply exact_zero_one_Qc.
  - apply configured_cell.
  - repeat constructor.
  - repeat constructor.
  - reflexivity.
  - reflexivity.
  - apply state_of_tuple_state0.
Defined.

Lemma unit_diffusion_noiseless_euler_witness :
  (forall x' s' c',
      _sde_solver_diffusion x' s' c' = Some (scalar (fone (F := Qcanon.Qc)), c', 0)) /\
  euler_maruyama_update input (PTensor state0) quiet_cell =
    Some (PTensor (mkTensor [1; 2]
                     (euler_step quiet_cell (data input) (data state0))),
          quiet_cell, 6).
Proof.
  apply (@unit_diffusion_noiseless_euler _ _
           quiet_cell 3 2 input (PTensor state0) state0).
  - apply exact_zero_one_Qc.
  - apply configured_quiet_cell.
  - repeat constructor.
  - reflexivity.
  - apply state_of_tensor_state0.
Defined.

Lemma single_unfold_single_update_witness :
  _sde_solver_drift input (PTensor state0) one_unfold_cell =
  Some (mkTensor [1; 2]
          (balance one_unfold_cell
             (sensory_numerator one_unfold_cell (data input))
             (sensory_denominator one_unfold_cell (data input)) (data state0)),
        one_unfold_cell, 1).
Proof.
  apply (@single_unfold_single_update _ _
           one_unfold_cell 3 2 input (PTensor state0) state0).
  - apply configured_cell.
  - reflexivity.
  - reflexivity.
  - apply state_of_tensor_state0.
Defined.

(** C8, as amended: in exact real arithmetic, for a pre-activation [v] of
    length N (a vector or a batch of one) and [mu], [sigma] of shape
    [N, units], [_sigmoid] returns the tensor of shape [1, N, units] whose
    entry [0, i, j] is [sigmoid(sigma[i,j] * (v[i] - mu[i,j]))], [v] being
    repeated along the units axis, and every entry lies strictly between 0
    and 1. *)
Theorem sigmoid_gating_tensor (n u : nat) (v mu sigma : tensor Rdefinitions.R) :
  0 < n -> shape v = [n] \/ shape v = [1; n] ->
  shape mu = [n; u] -> shape sigma = [n; u] ->
  exists r,
    _sigmoid v mu sigma = Some r /\
    shape r = [1; n; u] /\
    (forall i j, i < n -> j < u ->
       get r [0; i; j] =
       Real.sigmoid
         (Rdefinitions.Rmult (get sigma [i; j])
            (Rdefinitions.Rminus (vget (data v) i) (get mu [i; j])))) /\
    Forall Real.in_open_unit (data r).
Proof.
  intros Hn Hv Hmu Hsg.
  eexists. split; [apply sigmoid_gate; eassumption|].
  split; [reflexivity|]. split.
  - intros i j Hi Hj. rewrite get_tab by now apply range_cube. reflexivity.
  - apply Forall_forall. intros e He.
    apply in_map_iff in He. destruct He as (idx & <- & _).
    apply sigmoid_open_unit.
Qed.

Lemma sigmoid_gating_tensor_witness :
  exists r,
    _sigmoid Real.v3 Real.mu32 Real.sigma32 = Some r /\
    shape r = [1; 3; 2] /\
    (forall i j, i < 3 -> j < 2 ->
       get r [0; i; j] =
       Real.sigmoid
         (Rdefinitions.Rmult (get Real.sigma32 [i; j])
            (Rdefinitions.Rminus (vget (data Real.v3) i) (get Real.mu32 [i; j])))) /\
    Forall Real.in_open_unit (data r).
Proof.
  apply (@sigmoid_gating_tensor 3 2 Real.v3 Real.mu32 Real.sigma32).
  - lia.
  - left. reflexivity.
  - reflexivity.
  - reflexivity.
Defined.

(** C8, as stated, fails: for a vector of length 3 and parameters of shape
    [3, 2] the result of [_sigmoid] is not of shape [3, 2]; the reshape to
    [-1, N, 1] gives it a leading axis. *)
Lemma sigmoid_result_is_not_a_matrix :
  ~ exists r,
      _sigmoid (vec [q 1 10; q 1 5; q 3 10])
               (sensory_mu default_cell) (sensory_sigma default_cell) = Some r /\
      shape r = [3; 2].
Proof.
  intros (r & E & S).
  assert (H : option_map (@shape _)
                (_sigmoid (vec [q 1 10; q 1 5; q 3 10])
                   (sensory_mu default_cell) (sensory_sigma default_cell)) =
              Some [1; 3; 2]) by (vm_compute; reflexivity).
  rewrite E in H. simpl in H. rewrite S in H. discriminate H.
Qed.

Lemma call_keeps_variables_and_noise_witness :
  exists r c' k,
    call input (PTuple [state0]) one_unfold_cell = Some (r, c', k) /\
    same_variables one_unfold_cell c' /\
    keeps_input_map one_unfold_cell c' /\
    (forall x2 s2 r2 c2 k2, call x2 s2 c' = Some (r2, c2, k2) -> c2 = c').
Proof.
  do 3 eexists.
  assert (E : call input (PTuple [state0]) one_unfold_cell = Some _)
    by (apply (@call_run _ _ one_unfold_cell 3 2 input (PTuple [state0]) state0
                 (configured_cell 1 some_w some_sw) eq_refl
                 state_of_tuple_state0)).
  split; [exact E|].
  destruct (@call_keeps_variables_and_noise _ _ _ _ _ _ _ _ E)
    as (H1 & H2 & H3 & _).
  auto.
Defined.

Lemma call_output_is_next_state_witness :
  exists output next_state c' k,
    call input (PTensor state0) one_unfold_cell =
      Some ((output, next_state), c', k) /\
    output = next_state.
Proof.
  do 4 eexists.
  assert (E : call input (PTensor state0) one_unfold_cell = Some _)
    by (apply (@call_run _ _ one_unfold_cell 3 2 input (PTensor state0) state0
                 (configured_cell 1 some_w some_sw) eq_refl
                 state_of_tensor_state0)).
  split; [exact E | exact (@call_output_is_next_state _ _ _ _ _ _ _ _ _ E)].
Defined.

(** * Further properties of the forward pass *)

Section InputMapping.

Context {F : Type} {SF : Scalar F}.

#[local] Abbreviation tensor := (tensor F).
#[local] Abbreviation pyval := (pyval F).
#[local] Abbreviation LTSCell := (LTSCell F).

Ltac run :=
  repeat (first [rewrite bind_lift | rewrite bind_get_self | rewrite bind_ret];
          cbv beta).

Lemma with_input_map_present (c : LTSCell) (w b : tensor) :
  _input_weights c = Some w -> _input_biases c = Some b ->
  with_input_map c = c.
Proof. intros Ew Eb. unfold with_input_map. now rewrite Ew, Eb. Qed.

Lemma with_input_map_fresh (c : LTSCell) :
  _input_weights c = None -> _input_biases c = None ->
  _input_weights (with_input_map c) = Some (ones (input_size c)) /\
  _input_biases (with_input_map c) = Some (zeros (input_size c)).
Proof.
  intros Ew Eb. unfold with_input_map. rewrite Ew. simpl. rewrite Eb. simpl.
  now split.
Qed.

Lemma map_vget_seq (l : list F) :
  map (fun i => vget l i) (seq 0 (length l)) = l.
Proof.
  apply nth_ext with (d := fzero) (d' := fzero).
  - now rewrite length_map, length_seq.
  - intros i Hi. rewrite length_map, length_seq in Hi.
    exact (@vget_map_seq F SF (fun i => vget l i) (length l) i Hi).
Qed.

Lemma vget_repeat (a : F) (n i : nat) : i < n -> vget (repeat a n) i = a.
Proof.
  intros H. unfold vget. apply nth_repeat_lt. exact H.
Qed.

(** X1: once the input weights and biases exist, [_map_weights_and_biases]
    returns the affine image [x[i] * w[i] + b[i]] of the input row, as a
    row of the same shape, and writes nothing to the cell. *)
Theorem input_mapping_is_affine
        (c : LTSCell) (m u : nat) (x w b : tensor) :
  configured c m u ->
  _input_weights c = Some w -> _input_biases c = Some b ->
  shape x = [1; m] ->
  _map_weights_and_biases x c =
  Some (mkTensor [1; m]
          (map (fun i => fadd (fmul (vget (data x) i) (vget (data w) i))
                              (vget (data b) i))
               (seq 0 m)),
        c, 0).
Proof.
  intros Hc Ew Eb Hx.
  rewrite (map_weights_run x Hc Hx).
  unfold mapped. rewrite (with_input_map_present c Ew Eb), Ew, Eb.
  now rewrite (cfg_input_size Hc).
Qed.

(** X2: on the first call the weights are created as ones and the biases
    as zeros, both of length [input_size], and (with x * 1 = x and
    x + 0 = x) the mapped input is the input itself. *)
Theorem first_input_mapping_is_identity
        (c : LTSCell) (m u : nat) (x : tensor) :
  (forall y, fmul y fone = y) -> (forall y, fadd y fzero = y) ->
  configured c m u ->
  _input_weights c = None -> _input_biases c = None ->
  row m x ->
  exists c',
    _map_weights_and_biases x c = Some (x, c', 0) /\
    _input_weights c' = Some (ones m) /\
    _input_biases c' = Some (zeros m) /\
    same_variables c c'.
Proof.
  intros M1 A0 Hc Ew Eb [Hx Hl].
  exists (with_input_map c).
  destruct (with_input_map_fresh c Ew Eb) as [Ew' Eb'].
  rewrite (cfg_input_size Hc) in Ew', Eb'.
  split; [|split; [exact Ew' | split; [exact Eb' |
                   apply same_variables_with_input_map]]].
  rewrite (map_weights_run x Hc Hx).
  do 3 f_equal. destruct x as [sx dx]. simpl in *. subst sx. f_equal.
  unfold mapped. rewrite Ew', Eb', (cfg_input_size Hc). simpl.
  etransitivity; [|apply (map_vget_seq dx)]. rewrite Hl.
  apply map_ext_in. intros i Hi. apply in_seq in Hi.
  rewrite !vget_repeat by lia. now rewrite M1, A0.
Qed.

Lemma bdim_mismatch (k n : nat) : k <> n -> k <> 1 -> n <> 1 -> bdim k n = None.
Proof.
  intros H1 H2 H3. unfold bdim.
  destruct (Nat.eqb_spec k 1); [contradiction|].
  destruct (Nat.eqb_spec n 1); [contradiction|].
  destruct (Nat.eqb_spec k n); [contradiction | reflexivity].
Qed.

(** X3: an input row whose feature count is neither [input_size] nor 1 is
    refused: the multiplication by the input weights raises, and so does the
    whole step. *)
Theorem feature_count_mismatch_raises
        (c : LTSCell) (m u k : nat) (x : tensor) (s : pyval) :
  configured c m u -> shape x = [1; k] ->
  k <> m -> k <> 1 -> m <> 1 ->
  _map_weights_and_biases x c = None /\ call x s c = None.
Proof.
  intros Hc Hx H1 H2 H3.
  assert (E : _map_weights_and_biases x c = None).
  { rewrite map_weights_lazy.
    destruct (with_input_map_weights Hc) as (w & b & Ew & Eb & Sw & Sb).
    run. rewrite Ew. run.
    unfold t_mul, broadcast2, broadcast_shape. rewrite Hx, Sw. simpl.
    now rewrite bdim_mismatch. }
  split; [exact E|]. unfold call, bind. now rewrite E.
Qed.

(** X4: an input row with a single feature is not refused: it is repeated
    across the [input_size] features, the mapped entry [i] being
    [x[0] * w[i] + b[i]]. *)
Theorem single_feature_input_is_broadcast
        (c : LTSCell) (m u : nat) (x : tensor) :
  configured c m u -> shape x = [1; 1] ->
  exists w b,
    _input_weights (with_input_map c) = Some w /\
    _input_biases (with_input_map c) = Some b /\
    _map_weights_and_biases x c =
    Some (mkTensor [1; m]
            (map (fun i => fadd (fmul (vget (data x) 0) (vget (data w) i))
                                (vget (data b) i))
                 (seq 0 m)),
          with_input_map c, 0).
Proof.
  intros Hc Hx.
  destruct (with_input_map_weights Hc) as (w & b & Ew & Eb & Sw & Sb).
  exists w, b. split; [exact Ew|]. split; [exact Eb|].
  assert (Pm : 0 < m) by now destruct Hc.
  rewrite map_weights_lazy. run. rewrite Ew. run.
  assert (E : t_mul x w =
              Some (mkTensor [1; m]
                      (map (fun i => fmul (vget (data x) 0) (vget (data w) i))
                           (seq 0 m)))).
  { unfold t_mul, broadcast2, broadcast_shape. rewrite Hx, Sw. simpl.
    f_equal. rewrite tab_row. f_equal.
    apply map_ext_in. intros j Hj. apply in_seq in Hj.
    unfold get, bindex, vget. rewrite Hx, Sw. simpl.
    rewrite clamp_lt by lia. do 2 f_equal. lia. }
  rewrite E. run. rewrite Eb. run.
  unfold t_add. rewrite broadcast2_rows with (u := m);
    [| exact Pm | constructor | rewrite Sb; constructor].
  run. unfold ret. do 3 f_equal.
  apply rows_result_row.
  - simpl. now rewrite Sb.
  - intros j Hj. unfold unit_entry. simpl. rewrite Sb.
    now rewrite vget_map_seq.
Qed.

End InputMapping.

Section States.

Context {F : Type} {SF : Scalar F}.

#[local] Abbreviation tensor := (tensor F).
#[local] Abbreviation pyval := (pyval F).
#[local] Abbreviation LTSCell := (LTSCell F).

Ltac run :=
  repeat (first [rewrite bind_lift | rewrite bind_get_self | rewrite bind_ret];
          cbv beta).

Lemma iter_state_of (c : LTSCell) (u n : nat) (x : list F) (s : pyval) (t : tensor) :
  units c = u -> state_of u s t ->
  exists t',
    state_of u
      (Nat.iter n (fun v => PTensor (mkTensor [1; u] (em_step c x (state_data v)))) s)
      t'.
Proof.
  intros Hu Hs. destruct n as [|n].
  - now exists t.
  - simpl. eexists. apply state_tensor. split; [reflexivity|].
    simpl. now rewrite length_em_step.
Qed.

(** X5: when at least one sub-step is run, a state handed over as the one
    element of a tuple and the same state handed over as a bare tensor give
    the same step. *)
Theorem tuple_and_tensor_state_agree
        (c : LTSCell) (m u : nat) (x t : tensor) :
  configured c m u -> shape x = [1; m] -> row u t ->
  0 < _sde_solver_unfolds c ->
  call x (PTuple [t]) c = call x (PTensor t) c.
Proof.
  intros Hc Hx Ht Hn.
  rewrite (call_run x Hc Hx (state_tuple Ht)).
  rewrite (call_run x Hc Hx (state_tensor Ht)).
  destruct (_sde_solver_unfolds c) as [|n]; [lia|].
  rewrite !Nat.iter_succ_r. cbn [state_data map concat].
  now rewrite app_nil_r.
Qed.

Lemma euler_loop (x : tensor) (s : pyval) (c : LTSCell) :
  _sde_solver_euler_maruyama x s c =
  for_range (_sde_solver_unfolds c) (euler_maruyama_update x) s c.
Proof. unfold _sde_solver_euler_maruyama. now rewrite bind_get_self. Qed.

(** X6: with [_sde_solver_unfolds = 0] neither loop runs: the step returns
    the incoming state object itself, whatever it is, as output and as next
    state, and no balance update is executed. *)
Theorem zero_unfolds_returns_state
        (c : LTSCell) (m u : nat) (x : tensor) (s : pyval) :
  configured c m u -> shape x = [1; m] -> _sde_solver_unfolds c = 0 ->
  call x s c = Some ((s, s), with_input_map c, 0).
Proof.
  intros Hc Hx H0. unfold call.
  rewrite bind_value with (1 := map_weights_run x Hc Hx). cbv beta.
  rewrite bind_value with (c1 := with_input_map c) (a := s) (n := 0).
  - reflexivity.
  - rewrite euler_loop.
    now rewrite (sv_unfolds (same_variables_with_input_map c)), H0.
Qed.

Lemma drift_of_scalar_raises (c : LTSCell) (m u : nat) (x : tensor) (s : pyval)
      (v : tensor) :
  configured c m u -> shape x = [1; m] ->
  py_index0 s = Some v -> shape v = [] ->
  0 < _sde_solver_unfolds c ->
  _sde_solver_drift x s c = None.
Proof.
  intros Hc Hx Es Sv Hn.
  destruct (sensory_sums_run x Hc Hx)
    as (sg & E1 & swa & E2 & sra & E3 & E4 & E5).
  unfold _sde_solver_drift. rewrite Es. run.
  rewrite E1. run. rewrite E2. run. rewrite E3. run.
  rewrite E4. run. rewrite E5. run.
  destruct (_sde_solver_unfolds c) as [|n]; [lia|].
  simpl for_range. unfold drift_update at 1. 
  unfold bind at 1. unfold bind at 1. unfold get_self at 1.
  unfold _sigmoid, last_dim. rewrite Sv. reflexivity.
Qed.

Lemma step_raises_with_drift (c : LTSCell) (m u : nat) (x : tensor) (s : pyval) :
  configured c m u -> shape x = [1; m] ->
  0 < _sde_solver_unfolds c ->
  (forall x', shape x' = [1; m] ->
              _sde_solver_drift x' s (with_input_map c) = None) ->
  call x s c = None.
Proof.
  intros Hc Hx Hn Hd. unfold call.
  rewrite bind_value with (1 := map_weights_run x Hc Hx). cbv beta.
  assert (E : _sde_solver_euler_maruyama
                (mkTensor [1; m] (mapped c (data x))) s (with_input_map c) = None).
  { rewrite euler_loop.
    rewrite (sv_unfolds (same_variables_with_input_map c)).
    destruct (_sde_solver_unfolds c) as [|n]; [lia|].
    simpl for_range. unfold euler_maruyama_update, bind.
    now rewrite Hd. }
  unfold bind. now rewrite E.
Qed.

(** X7: a state given as a flat vector of length [units] is refused when a
    sub-step is run: its first entry is a scalar, which the gating function
    cannot reshape. *)
Theorem flat_vector_state_raises
        (c : LTSCell) (m u : nat) (x t : tensor) :
  configured c m u -> shape x = [1; m] -> shape t = [u] ->
  0 < _sde_solver_unfolds c ->
  call x (PTensor t) c = None.
Proof.
  intros Hc Hx Ht Hn.
  apply step_raises_with_drift with (m := m) (u := u); trivial.
  intros x' Hx'.
  pose proof (configured_with_input_map Hc) as Hc'.
  assert (Hu : 0 < u) by now destruct Hc.
  apply drift_of_scalar_raises
    with (m := m) (u := u) (v := mkTensor [] (firstn 1 (data t))); trivial.
  - simpl. unfold index0. rewrite Ht.
    destruct (Nat.ltb_spec 0 u); [reflexivity | lia].
  - now rewrite (sv_unfolds (same_variables_with_input_map c)).
Qed.

(** X8: an empty tuple of states is refused when a sub-step is run: it has
    no first element. *)
Theorem empty_state_tuple_raises
        (c : LTSCell) (m u : nat) (x : tensor) :
  configured c m u -> shape x = [1; m] ->
  0 < _sde_solver_unfolds c ->
  call x (PTuple []) c = None.
Proof.
  intros Hc Hx Hn.
  apply step_raises_with_drift with (m := m) (u := u); trivial.
Qed.

(** X9: the next state of a step is a state the following step accepts,
    and the cell stays configured: a second step on it succeeds and leaves
    the cell as the first one left it. *)
Theorem steps_chain
        (c : LTSCell) (m u : nat) (x1 x2 : tensor) (s : pyval) (t : tensor) :
  configured c m u -> shape x1 = [1; m] -> shape x2 = [1; m] ->
  state_of u s t ->
  exists output next c' k,
    call x1 s c = Some ((output, next), c', k) /\
    configured c' m u /\
    (exists t', state_of u next t') /\
    exists r k', call x2 next c' = Some (r, c', k').
Proof.
  intros Hc H1 H2 Hs.
  pose proof (configured_with_input_map Hc) as Hc'.
  destruct (iter_state_of c (_sde_solver_unfolds c)
              (mapped c (data x1)) (cfg_units Hc) Hs) as [t' Hs'].
  do 4 eexists. split; [apply (call_run x1 Hc H1 Hs)|].
  split; [exact Hc'|]. split; [now exists t'|].
  do 2 eexists. rewrite (call_run x2 Hc' H2 Hs').
  now rewrite with_input_map_idem.
Qed.

End States.

Section Gating.

Context {F : Type} {SF : Scalar F}.

#[local] Abbreviation tensor := (tensor F).

Lemma in_range_3 (B n u : nat) (idx : list nat) :
  in_range [B; n; u] idx ->
  exists b i j, idx = [b; i; j] /\ b < B /\ i < n /\ j < u.
Proof.
  intros H. inversion H as [|b ? r1 ? Hb H1]; subst.
  inversion H1 as [|i ? r2 ? Hi H2]; subst.
  inversion H2 as [|j ? r3 ? Hj H3]; subst.
  inversion H3; subst.
  exists b, i, j. auto.
Qed.

Lemma range_3 (B n u b i j : nat) :
  b < B -> i < n -> j < u -> in_range [B; n; u] [b; i; j].
Proof. intros. repeat constructor; trivial. Qed.

Lemma reshape_batch_column (v : tensor) (B n : nat) :
  0 < n -> shape v = [B; n] ->
  reshape v [(-1)%Z; Z.of_nat n; 1%Z] = Some (mkTensor [B; n; 1] (data v)).
Proof.
  intros Hn Hv. unfold reshape, resolve_shape. rewrite Hv.
  assert (H1 : (-1 <=? Z.of_nat n)%Z = true) by (apply Z.leb_le; lia).
  assert (H2 : (Z.of_nat n =? -1)%Z = false) by (apply Z.eqb_neq; lia).
  simpl. rewrite H1, H2. simpl. rewrite Nat2Z.id.
  replace (n * 1) with n by lia.
  destruct (Nat.eqb_spec n 0) as [E|_]; [lia|].
  rewrite Nat.Div0.mod_mul, Nat.div_mul by lia. reflexivity.
Qed.

#[local] Arguments indices : simpl never.

Lemma broadcast2_batch_column_mat (f : F -> F -> F) (B n u : nat) (d : list F)
      (b : tensor) :
  shape b = [n; u] ->
  broadcast2 f (mkTensor [B; n; 1] d) b =
  Some (tab [B; n; u]
          (fun idx => f (vget d (nth 0 idx 0 * n + nth 1 idx 0))
                        (get b [nth 1 idx 0; nth 2 idx 0]))).
Proof.
  intros Hb. unfold broadcast2, broadcast_shape. rewrite Hb. simpl.
  rewrite bdim_same. simpl. f_equal. apply tab_ext.
  intros idx Hr. destruct (in_range_3 Hr) as (b0 & i & j & -> & Hb0 & Hi & Hj).
  unfold bindex, get, vget. simpl. rewrite !clamp_lt by trivial.
  do 2 f_equal. lia.
Qed.

Lemma broadcast2_mat_batch (f : F -> F -> F) (B n u : nat) (a : tensor)
      (g : list nat -> F) :
  shape a = [n; u] ->
  broadcast2 f a (tab [B; n; u] g) =
  Some (tab [B; n; u]
          (fun idx => f (get a [nth 1 idx 0; nth 2 idx 0]) (g idx))).
Proof.
  intros Ha. unfold broadcast2, broadcast_shape. rewrite Ha. simpl.
  rewrite !bdim_same. simpl. f_equal. apply tab_ext.
  intros idx Hr. destruct (in_range_3 Hr) as (b0 & i & j & -> & Hb0 & Hi & Hj).
  rewrite get_tab.
  - unfold bindex. simpl. now rewrite !clamp_lt.
  - unfold bindex. simpl. rewrite !clamp_lt by trivial. now apply range_3.
Qed.

(** X10: on a batch of B pre-activation rows of length N, with [mu] and
    [sigma] of shape [N, units], the gating function returns a tensor of
    shape [B, N, units] whose entry [b, i, j] is
    [sigmoid(sigma[i,j] * (v[b,i] - mu[i,j]))]: the parameters are shared by
    the rows of the batch. *)
Theorem sigmoid_on_batch (B n u : nat) (v mu sigma : tensor) :
  0 < n -> shape v = [B; n] -> shape mu = [n; u] -> shape sigma = [n; u] ->
  exists r,
    _sigmoid v mu sigma = Some r /\
    shape r = [B; n; u] /\
    forall b i j, b < B -> i < n -> j < u ->
      get r [b; i; j] =
      fsigmoid (fmul (get sigma [i; j]) (fsub (get v [b; i]) (get mu [i; j]))).
Proof.
  intros Hn Hv Hmu Hsg. unfold _sigmoid.
  assert (Hl : last_dim v = Some n) by (unfold last_dim; now rewrite Hv).
  rewrite Hl, (reshape_batch_column v Hn Hv).
  unfold t_sub, t_mul.
  rewrite broadcast2_batch_column_mat with (u := u) by trivial.
  rewrite broadcast2_mat_batch by trivial.
  rewrite t_sigmoid_tab.
  eexists. split; [reflexivity|]. split; [reflexivity|].
  intros b i j Hb Hi Hj.
  rewrite get_tab by now apply range_3.
  simpl. do 3 f_equal. unfold get, vget. rewrite Hv. simpl. f_equal. lia.
Qed.

(** X11: a pre-activation whose length is neither 1 nor the number of rows
    of [mu] is refused by the gating function. *)
Theorem sigmoid_length_mismatch_raises (B k n u : nat) (v mu sigma : tensor) :
  0 < k -> shape v = [B; k] -> shape mu = [n; u] ->
  k <> n -> k <> 1 -> n <> 1 ->
  _sigmoid v mu sigma = None.
Proof.
  intros Hk Hv Hmu H1 H2 H3. unfold _sigmoid.
  assert (Hl : last_dim v = Some k) by (unfold last_dim; now rewrite Hv).
  rewrite Hl, (reshape_batch_column v Hk Hv).
  unfold t_sub, broadcast2, broadcast_shape. rewrite Hmu. simpl.
  now rewrite bdim_mismatch.
Qed.

End Gating.

Section StateWidth.

Context {F : Type} {SF : Scalar F}.

#[local] Abbreviation tensor := (tensor F).
#[local] Abbreviation pyval := (pyval F).
#[local] Abbreviation LTSCell := (LTSCell F).

Ltac run :=
  repeat (first [rewrite bind_lift | rewrite bind_get_self | rewrite bind_ret];
          cbv beta).

Lemma drift_raises_with_gate (c : LTSCell) (m u : nat) (x : tensor) (s : pyval)
      (v : tensor) :
  configured c m u -> shape x = [1; m] ->
  py_index0 s = Some v -> _sigmoid v (mu c) (sigma c) = None ->
  0 < _sde_solver_unfolds c ->
  _sde_solver_drift x s c = None.
Proof.
  intros Hc Hx Es Eg Hn.
  destruct (sensory_sums_run x Hc Hx)
    as (sg & E1 & swa & E2 & sra & E3 & E4 & E5).
  unfold _sde_solver_drift. rewrite Es. run.
  rewrite E1. run. rewrite E2. run. rewrite E3. run.
  rewrite E4. run. rewrite E5. run.
  destruct (_sde_solver_unfolds c) as [|n]; [lia|].
  simpl for_range. unfold drift_update at 1.
  unfold bind at 1. unfold bind at 1. unfold get_self at 1.
  now rewrite Eg.
Qed.

Lemma sigmoid_vector_mismatch (k n u : nat) (v mu sigma : tensor) :
  0 < k -> shape v = [k] \/ shape v = [1; k] -> shape mu = [n; u] ->
  k <> n -> k <> 1 -> n <> 1 ->
  _sigmoid v mu sigma = None.
Proof.
  intros Hk Hv Hmu H1 H2 H3. unfold _sigmoid.
  assert (Hl : last_dim v = Some k)
    by (unfold last_dim; destruct Hv as [-> | ->]; reflexivity).
  rewrite Hl, reshape_column
    by (trivial; destruct Hv as [-> | ->]; simpl; lia).
  unfold t_sub, broadcast2, broadcast_shape. rewrite Hmu. simpl.
  now rewrite bdim_mismatch.
Qed.

(** X12: a state row whose width is neither [units] nor 1 is refused when
    a sub-step is run, whether it comes bare or in a tuple: the gating of
    the recurrent synapses raises. *)
Theorem state_width_mismatch_raises
        (c : LTSCell) (m u k : nat) (x : tensor) (s : pyval) (t : tensor) :
  configured c m u -> shape x = [1; m] -> state_of k s t ->
  0 < k -> k <> u -> k <> 1 -> u <> 1 ->
  0 < _sde_solver_unfolds c ->
  call x s c = None.
Proof.
  intros Hc Hx Hs Hk H1 H2 H3 Hn.
  apply step_raises_with_drift with (m := m) (u := u); trivial.
  intros x' Hx'.
  pose proof (configured_with_input_map Hc) as Hc'.
  destruct (state_of_index0 Hs) as (v0 & E0 & _ & S0).
  apply drift_raises_with_gate with (m := m) (u := u) (v := v0); trivial.
  - apply sigmoid_vector_mismatch with (k := k) (n := u) (u := u); trivial.
    now destruct Hc'.
  - now rewrite (sv_unfolds (same_variables_with_input_map c)).
Qed.

End StateWidth.

(** * The drift in exact real arithmetic *)

Section RealDrift.

Import Reals Lra.
Import Real RealCell.
#[local] Open Scope R_scope.

#[local] Abbreviation tensor := (tensor R).
#[local] Abbreviation pyval := (pyval R).
#[local] Abbreviation LTSCell := (LTSCell R).

Lemma exact_zero_one_R : exact_zero_one R.
Proof. constructor; intros x; simpl; lra. Qed.

Lemma fold_left_Rplus (l : list R) (a : R) :
  fold_left Rplus l a = a + fold_left Rplus l 0.
Proof.
  revert a. induction l as [|x l IH]; intros a; simpl.
  - lra.
  - rewrite (IH (a + x)), (IH (0 + x)). lra.
Qed.

Lemma fsum_cons (x : R) (l : list R) : fsum (x :: l) = x + fsum l.
Proof. unfold fsum. simpl. rewrite fold_left_Rplus. lra. Qed.

(* a sum of potentials weighted by non-negative conductances lies between
   the bounds of the potentials times the total conductance *)
Lemma weighted_sum_within (A : Type) (a p : A -> R) (l : list A) (lo hi : R) :
  (forall i, In i l -> 0 <= a i /\ lo <= p i <= hi) ->
  0 <= fsum (map a l) /\
  lo * fsum (map a l) <= fsum (map (fun i => a i * p i) l)
    <= hi * fsum (map a l).
Proof.
  induction l as [|x l IH]; intros H.
  - unfold fsum. simpl. lra.
  - simpl map. rewrite !fsum_cons.
    destruct IH as (I0 & I1 & I2); [intros i Hi; apply H; now right|].
    destruct (H x (or_introl eq_refl)) as (Ha & Hl & Hh).
    repeat split; nra.
Qed.

Lemma gate_positive (sg mu0 : tensor) (v : list R) (i j : nat) :
  0 < gate sg mu0 v i j.
Proof. unfold gate. apply (sigmoid_open_unit _). Qed.

Lemma balance_within (c : LTSCell) (m u : nat) (x v : list R) (lo hi : R) :
  units c = u -> input_size c = m ->
  conductances_positive c u -> weights_nonnegative c m u ->
  potentials_within c m u lo hi ->
  entries_within v u lo hi ->
  entries_within
    (balance c (sensory_numerator c x) (sensory_denominator c x) v) u lo hi.
Proof.
  intros Hu Hm Hpos [HW HS] (Hvl & He & Hse) Hv j Hj.
  unfold balance, sensory_numerator, sensory_denominator.
  rewrite Hu, Hm. rewrite !vget_map_seq by trivial.
  destruct (Hpos j Hj) as [Hc Hg].
  destruct (weighted_sum_within
              (fun i => recurrent_w c v i j) (fun i => get (erev c) [i; j])
              (seq 0 u) (lo := lo) (hi := hi)) as (A0 & A1 & A2).
  { intros i Hi. apply in_seq in Hi. split.
    - unfold recurrent_w. apply Rmult_le_pos; [apply HW; lia|].
      left. apply gate_positive.
    - apply He; lia. }
  destruct (weighted_sum_within
              (fun i => sensory_w c x i j)
              (fun i => get (sensory_erev c) [i; j])
              (seq 0 m) (lo := lo) (hi := hi)) as (S0 & S1 & S2).
  { intros i Hi. apply in_seq in Hi. split.
    - unfold sensory_w. apply Rmult_le_pos; [apply HS; lia|].
      left. apply gate_positive.
    - apply Hse; lia. }
  destruct (Hvl j Hj) as [L1 L2]. destruct (Hv j Hj) as [V1 V2].
  set (A := fsum (map (fun i => recurrent_w c v i j) (seq 0 u))) in *.
  set (AP := fsum (map (fun i => recurrent_w c v i j * get (erev c) [i; j])
                       (seq 0 u))) in *.
  set (S := fsum (map (fun i => sensory_w c x i j) (seq 0 m))) in *.
  set (SP := fsum (map (fun i => sensory_w c x i j * get (sensory_erev c) [i; j])
                       (seq 0 m))) in *.
  set (cm := unit_entry (cm_t c) j) in *.
  set (gl := unit_entry (gleak c) j) in *.
  set (vl := unit_entry (vleak c) j) in *.
  set (vj := vget v j) in *.
  change (lo <= (cm * vj + gl * vl + (AP + SP)) / (cm + gl + (A + S)) <= hi).
  assert (D : 0 < cm + gl + (A + S)) by lra.
  unfold Rdiv. split.
  - apply Rmult_le_reg_r with (r := cm + gl + (A + S)); [exact D|].
    rewrite Rmult_assoc, Rinv_l, Rmult_1_r by lra. nra.
  - apply Rmult_le_reg_r with (r := cm + gl + (A + S)); [exact D|].
    rewrite Rmult_assoc, Rinv_l, Rmult_1_r by lra. nra.
Qed.

(** X13: in exact real arithmetic, with positive capacitance and leak
    conductance and no negative synaptic weight, the drift keeps every unit
    between [lo] and [hi] when the state, the leak potentials and the
    reversal potentials all lie between [lo] and [hi]. *)
Theorem drift_stays_within_potentials
        (c : LTSCell) (m u : nat) (x : tensor) (s : pyval) (t : tensor)
        (lo hi : R) :
  configured c m u -> shape x = [1%nat; m] -> state_of u s t ->
  conductances_positive c u -> weights_nonnegative c m u ->
  potentials_within c m u lo hi ->
  entries_within (data t) u lo hi ->
  exists v,
    _sde_solver_drift x s c = Some (v, c, _sde_solver_unfolds c) /\
    entries_within (data v) u lo hi.
Proof.
  intros Hc Hx Hs Hpos Hw Hp Hv.
  destruct (state_of_index0 Hs) as (v0 & E0 & D0 & S0).
  eexists. split; [apply (drift_run x s Hc Hx E0 S0)|].
  rewrite iter_row_data, D0.
  induction (_sde_solver_unfolds c) as [|n IH]; simpl; trivial.
  apply balance_within with (m := m); trivial; now destruct Hc.
Qed.

Lemma leak_entry (c : LTSCell) (u : nat) (w : list R) (j : nat) :
  units c = u -> (j < u)%nat ->
  vget (leak c w) j =
  (unit_entry (cm_t c) j * vget w j +
   unit_entry (gleak c) j * unit_entry (vleak c) j) /
  (unit_entry (cm_t c) j + unit_entry (gleak c) j).
Proof.
  intros Hu Hj. unfold leak. rewrite Hu. now rewrite vget_map_seq.
Qed.

Lemma iter_leak_entry (c : LTSCell) (u n : nat) (v : list R) (j : nat) :
  units c = u -> (j < u)%nat ->
  unit_entry (cm_t c) j + unit_entry (gleak c) j <> 0 ->
  vget (Nat.iter n (leak c) v) j =
  unit_entry (vleak c) j +
  leak_ratio c j ^ n * (vget v j - unit_entry (vleak c) j).
Proof.
  intros Hu Hj Hd. induction n as [|n IH].
  - simpl. lra.
  - change (Nat.iter (S n) (leak c) v) with (leak c (Nat.iter n (leak c) v)).
    rewrite (leak_entry c _ Hu Hj), IH.
    unfold leak_ratio. simpl pow. field. exact Hd.
Qed.

(** X14: in exact real arithmetic, with all synaptic weights zero, the
    drift moves every unit toward its leak potential by the factor
    [cm_t / (cm_t + gleak)] at each inner iteration:
    [v - vleak] becomes [(cm_t / (cm_t + gleak))^unfolds * (v - vleak)]. *)
Theorem leak_decays_geometrically
        (c : LTSCell) (m u : nat) (x : tensor) (s : pyval) (t : tensor) :
  configured c m u -> all_zero (W c) -> all_zero (sensory_W c) ->
  shape x = [1%nat; m] -> state_of u s t ->
  (forall j, (j < u)%nat ->
     unit_entry (cm_t c) j + unit_entry (gleak c) j <> 0) ->
  exists v,
    _sde_solver_drift x s c = Some (v, c, _sde_solver_unfolds c) /\
    forall j, (j < u)%nat ->
      vget (data v) j - unit_entry (vleak c) j =
      leak_ratio c j ^ _sde_solver_unfolds c *
      (vget (data t) j - unit_entry (vleak c) j).
Proof.
  intros Hc HW HS Hx Hs Hd.
  destruct (state_of_index0 Hs) as (v0 & E0 & D0 & S0).
  eexists. split; [apply (drift_run x s Hc Hx E0 S0)|].
  intros j Hj. rewrite iter_row_data, D0.
  rewrite iter_pointwise with (g := leak c)
    by (intros y; now apply balance_zero_weights; try apply exact_zero_one_R).
  rewrite (iter_leak_entry c _ (data t) (cfg_units Hc) Hj (Hd j Hj)).
  lra.
Qed.

End RealDrift.

(** * Construction of the cell *)

Section ConstructionFacts.

Context {F G : Type} {SF : Scalar F} {RT : Runtime F G}.

#[local] Abbreviation tensor := (tensor F).
#[local] Abbreviation LTSCell := (LTSCell F).
#[local] Abbreviation Layer := (Layer F).

Lemma bind_draw (A B : Type) (f : G -> A * G) (k : A -> Init G B) (g : G) :
  init_bind (draw f) k g = k (fst (f g)) (snd (f g)).
Proof. unfold init_bind, draw. now destruct (f g). Qed.

Lemma bind_check (A B : Type) (a : A) (k : A -> Init G B) (g : G) :
  init_bind (check (Some a)) k g = k a g.
Proof. reflexivity. Qed.

Lemma bind_init_ret (A B : Type) (a : A) (k : A -> Init G B) (g : G) :
  init_bind (init_ret a) k g = k a g.
Proof. reflexivity. Qed.

Lemma shape_eqb_eq (a b : list nat) : shape_eqb a b = true <-> a = b.
Proof.
  revert b. induction a as [|x a IH]; intros [|y b]; simpl;
    try (split; [discriminate | discriminate]); try tauto.
  rewrite andb_true_iff, Nat.eqb_eq, IH. split.
  - intros [-> ->]. reflexivity.
  - intros E. inversion E. auto.
Qed.

Lemma variable_of_shape_same (t : tensor) (s : list nat) :
  shape t = s -> variable_of_shape t s = Some t.
Proof.
  intros H. unfold variable_of_shape.
  now rewrite (proj2 (shape_eqb_eq (shape t) s) H).
Qed.

Lemma variable_of_shape_other (t : tensor) (s : list nat) :
  shape t <> s -> variable_of_shape t s = None.
Proof.
  intros H. unfold variable_of_shape.
  destruct (shape_eqb (shape t) s) eqn:E; [|reflexivity].
  apply shape_eqb_eq in E. contradiction.
Qed.

Ltac init_step :=
  first [ rewrite bind_draw
        | rewrite variable_of_shape_same by trivial
        | rewrite bind_check
        | rewrite bind_init_ret ].

(* the cell [build] yields when the user has fixed no parameter *)
Lemma build_unfixed (l : Layer) (pre : list nat) (m : nat) (g : G) :
  draws_as_requested F G -> nothing_fixed l ->
  exists c g',
    build (pre ++ [m]) l g = Some (c, g') /\
    units c = layer_units l /\ input_size c = m /\
    _time_step c = layer_time_step l /\
    _sde_solver_unfolds c = layer_sde_solver_unfolds l /\
    _input_weights c = None /\ _input_biases c = None /\
    (shape (sensory_mu c) = [m; layer_units l] /\
     shape (sensory_sigma c) = [m; layer_units l] /\
     shape (sensory_W c) = [m; layer_units l] /\
     shape (sensory_erev c) = [m; layer_units l]) /\
    (shape (mu c) = [layer_units l; layer_units l] /\
     shape (sigma c) = [layer_units l; layer_units l] /\
     shape (W c) = [layer_units l; layer_units l] /\
     shape (erev c) = [layer_units l; layer_units l]) /\
    shape (_brownian_motion c) = [layer_units l] /\
    shape (vleak c) = [layer_units l] /\
    (if QArith_base.Qle_bool (_gleak_init_max l) (_gleak_init_min l)
     then gleak c = scalar (of_Q (_gleak_init_min l))
     else shape (gleak c) = [layer_units l]) /\
    (if QArith_base.Qle_bool (_cm_init_max l) (_cm_init_min l)
     then cm_t c = scalar (of_Q (_cm_init_min l))
     else shape (cm_t c) = [layer_units l]) /\
    (exists zs, Forall (fun z => (0 <= z < 2)%Z) zs /\
                data (sensory_erev c) =
                map (fun z => of_Q (QArith_base.inject_Z z))
                    (erev_init (_erev_init_factor l) zs)) /\
    (exists zs, Forall (fun z => (0 <= z < 2)%Z) zs /\
                data (erev c) =
                map (fun z => of_Q (QArith_base.inject_Z z))
                    (erev_init (_erev_init_factor l) zs)).
Proof.
  intros D (Fc & Fg & Fv).
  unfold build. rewrite rev_unit. unfold _init_variables.
  cbn [layer_input_size set_input_size layer_units layer_time_step
       layer_sde_solver_unfolds _erev_init_factor _w_init_min _w_init_max
       _fix_vleak _fix_gleak _fix_cm _gleak_init_min _gleak_init_max
       _cm_init_min _cm_init_max].
  assert (Hneg : (Z.of_nat m <? 0)%Z = false) by (apply Z.ltb_ge; lia).
  rewrite Hneg, Nat2Z.id, Fv, Fg, Fc. cbv zeta.
  pose proof (uniform_shape D) as US.
  repeat init_step.
  unfold per_unit_variable.
  destruct (QArith_base.Qle_bool (_gleak_init_max l) (_gleak_init_min l));
    destruct (QArith_base.Qle_bool (_cm_init_max l) (_cm_init_min l));
    cbn [negb]; repeat init_step; unfold init_ret;
    (do 2 eexists; split; [reflexivity|]);
    cbn [units input_size _time_step _sde_solver_unfolds _input_weights
         _input_biases sensory_mu sensory_sigma sensory_W sensory_erev
         mu sigma W erev _brownian_motion vleak gleak cm_t];
    repeat split; trivial; try apply US; try apply (normal_shape D);
    (eexists; split; [apply (randint_range D); lia | reflexivity]).
Qed.

(** X15: when the draws have the requested shapes and no parameter is
    fixed, [build] on an input shape ending in [m] succeeds and yields a
    cell whose variables have the shapes the forward pass relies on:
    sensory matrices [m, units], recurrent matrices [units, units], noise
    and leak potential [units], leak conductance and capacitance a scalar or
    [units]; the input weights and biases do not exist yet. *)
Theorem build_gives_configured_cell
        (l : Layer) (pre : list nat) (m : nat) (g : G) :
  draws_as_requested F G -> nothing_fixed l ->
  fint (layer_time_step l) = 1%Z -> 0 < layer_units l -> 0 < m ->
  exists c g',
    build (pre ++ [m]) l g = Some (c, g') /\
    configured c m (layer_units l) /\
    _input_weights c = None /\ _input_biases c = None.
Proof.
  intros D Hf Ht Hu Hm.
  destruct (@build_unfixed l pre m g D Hf)
    as (c & g' & E & Eu & Em & Et & _ & Ew & Eb & (S1 & S2 & S3 & S4)
        & (R1 & R2 & R3 & R4) & Sn & Sv & Hg & Hc & _).
  exists c, g'. split; [exact E|]. split; [|now split].
  constructor; trivial.
  - now rewrite Et.
  - destruct (QArith_base.Qle_bool _ _) in Hg;
      [left; now rewrite Hg | now right].
  - destruct (QArith_base.Qle_bool _ _) in Hc;
      [left; now rewrite Hc | now right].
  - now rewrite Ew.
  - now rewrite Eb.
Qed.

(** X16: a cell made by [__init__] and [build] takes a step on an input
    row [1, m] and a state row [1, units]: the step succeeds, executes 36
    balance updates and returns a next state of shape [1, units]. *)
Theorem built_cell_steps
        (u : nat) (pre : list nat) (m : nat) (g : G)
        (x : tensor) (s : pyval F) (t : tensor) :
  draws_as_requested F G -> fint (fone (F := F)) = 1%Z ->
  0 < u -> 0 < m -> shape x = [1; m] -> state_of u s t ->
  exists c g' next c',
    build (pre ++ [m]) (__init__ u) g = Some (c, g') /\
    call x s c = Some ((next, next), c', 36) /\
    state_shape next = Some [1; u].
Proof.
  intros D H1 Hu Hm Hx Hs.
  destruct (@build_unfixed (__init__ u) pre m g D (conj eq_refl (conj eq_refl eq_refl)))
    as (c & g' & E & Eu & Em & Et & En & Ew & Eb & (S1 & S2 & S3 & S4)
        & (R1 & R2 & R3 & R4) & Sn & Sv & Hg & Hc & _).
  cbn in Eu, Et, En, Hg, Hc, S1, S2, S3, S4, R1, R2, R3, R4, Sn, Sv.
  assert (Cf : configured c m u).
  { constructor; trivial.
    - now rewrite Et.
    - left. now rewrite Hg.
    - left. now rewrite Hc.
    - now rewrite Ew.
    - now rewrite Eb. }
  exists c, g'. do 2 eexists. split; [exact E|].
  rewrite (call_run x Cf Hx Hs), En. split; [reflexivity|].
  apply (iter_state_shape _ _ Hs).
Qed.

(** X17: with the constants of [__init__] the leak conductance and the
    membrane capacitance are not drawn and are not per-unit vectors: each
    is a single scalar, 1 and 1/2, shared by all units. *)
Theorem default_conductances_are_scalars
        (u : nat) (pre : list nat) (m : nat) (g g' : G) (c : LTSCell) :
  draws_as_requested F G ->
  build (pre ++ [m]) (__init__ u) g = Some (c, g') ->
  gleak c = scalar (of_Q (QArith_base.Qmake 1 1)) /\
  cm_t c = scalar (of_Q (QArith_base.Qmake 1 2)).
Proof.
  intros D E.
  destruct (@build_unfixed (__init__ u) pre m g D (conj eq_refl (conj eq_refl eq_refl)))
    as (c0 & g0 & E0 & _ & _ & _ & _ & _ & _ & _ & _ & _ & _ & Hg & Hc & _).
  rewrite E in E0. inversion E0; subst c0 g0.
  cbn in Hg, Hc. now split.
Qed.

(** X18: every reversal potential created by [build], sensory or recurrent,
    is plus or minus [_erev_init_factor]. *)
Theorem reversal_potentials_are_signs
        (l : Layer) (pre : list nat) (m : nat) (g g' : G) (c : LTSCell) :
  draws_as_requested F G -> nothing_fixed l ->
  build (pre ++ [m]) l g = Some (c, g') ->
  let plus := of_Q (QArith_base.inject_Z (_erev_init_factor l)) in
  let minus := of_Q (QArith_base.inject_Z (- _erev_init_factor l)) in
  Forall (fun e => e = plus \/ e = minus) (data (sensory_erev c)) /\
  Forall (fun e => e = plus \/ e = minus) (data (erev c)).
Proof.
  intros D Hf E plus minus.
  destruct (@build_unfixed l pre m g D Hf)
    as (c0 & g0 & E0 & _ & _ & _ & _ & _ & _ & _ & _ & _ & _ & _ & _
        & (zs1 & Z1 & D1) & (zs2 & Z2 & D2)).
  rewrite E in E0. inversion E0; subst c0 g0.
  assert (Hsign : forall zs, Forall (fun z => (0 <= z < 2)%Z) zs ->
            Forall (fun e => e = plus \/ e = minus)
              (map (fun z => of_Q (QArith_base.inject_Z z))
                   (erev_init (_erev_init_factor l) zs))).
  { intros zs Hz. unfold erev_init. rewrite map_map.
    apply Forall_map. apply Forall_impl with (2 := Hz).
    intros z Hr. unfold plus, minus.
    assert (Hz01 : z = 0%Z \/ z = 1%Z) by lia.
    destruct Hz01 as [-> | ->].
    - right. apply f_equal. apply f_equal. lia.
    - left. apply f_equal. apply f_equal. lia. }
  rewrite D1, D2. split; now apply Hsign.
Qed.

(* [build] up to the per-unit parameters: the matrices and the noise have
   been drawn *)
Lemma build_prefix (l : Layer) (pre : list nat) (m : nat) (g : G) :
  draws_as_requested F G ->
  exists smu ssg sW se mu0 sg0 W0 e0 bm g1,
    build (pre ++ [m]) l g =
    init_bind
      (match _fix_vleak l with
       | None => draw (random_uniform [layer_units l]
                         (QArith_base.Qmake (-2) 10) (QArith_base.Qmake 2 10))
       | Some t => check (variable_of_shape t [layer_units l])
       end)
      (fun vleak0 =>
         init_bind
           (per_unit_variable (layer_units l) (_fix_gleak l)
              (_gleak_init_min l) (_gleak_init_max l))
           (fun gleak0 =>
              init_bind
                (per_unit_variable (layer_units l) (_fix_cm l)
                   (_cm_init_min l) (_cm_init_max l))
                (fun cm0 =>
                   init_ret
                     (mkCell (layer_units l) m (layer_time_step l) bm
                        (layer_sde_solver_unfolds l)
                        smu ssg sW se mu0 sg0 W0 e0 vleak0 gleak0 cm0
                        None None))))
      g1.
Proof.
  intros D.
  unfold build. rewrite rev_unit. unfold _init_variables.
  cbn [layer_input_size set_input_size layer_units layer_time_step
       layer_sde_solver_unfolds _erev_init_factor _w_init_min _w_init_max
       _fix_vleak _fix_gleak _fix_cm _gleak_init_min _gleak_init_max
       _cm_init_min _cm_init_max].
  assert (Hneg : (Z.of_nat m <? 0)%Z = false) by (apply Z.ltb_ge; lia).
  rewrite Hneg, Nat2Z.id. cbv zeta.
  pose proof (uniform_shape D) as US.
  repeat init_step.
  do 10 eexists. reflexivity.
Qed.

Lemma per_unit_variable_fixed (u : nat) (t : tensor) (lo hi : QArith_base.Q)
      (g : G) :
  per_unit_variable u (Some t) lo hi g =
  if shape_eqb (shape t) [u] then Some (t, g) else None.
Proof.
  unfold per_unit_variable, check, variable_of_shape.
  now destruct (shape_eqb (shape t) [u]).
Qed.

(** X19: a leak potential, leak conductance or capacitance fixed by the
    user with a shape other than [units] makes [build] raise. *)
Theorem fixed_parameter_of_wrong_shape_raises
        (l : Layer) (pre : list nat) (m : nat) (g : G) :
  draws_as_requested F G ->
  (exists t, _fix_vleak l = Some t /\ shape t <> [layer_units l]) \/
  (exists t, _fix_gleak l = Some t /\ shape t <> [layer_units l]) \/
  (exists t, _fix_cm l = Some t /\ shape t <> [layer_units l]) ->
  build (pre ++ [m]) l g = None.
Proof.
  intros D H.
  destruct (build_prefix l pre m g D)
    as (smu & ssg & sW & se & mu0 & sg0 & W0 & e0 & bm & g1 & ->).
  unfold init_bind.
  destruct H as [(t & E & S) | [(t & E & S) | (t & E & S)]].
  - rewrite E. unfold check. now rewrite variable_of_shape_other.
  - destruct (match _fix_vleak l with
              | Some t0 => check (variable_of_shape t0 [layer_units l])
              | None => _
              end g1) as [[v g2]|]; [|reflexivity].
    rewrite E, per_unit_variable_fixed.
    destruct (shape_eqb (shape t) [layer_units l]) eqn:B; [|reflexivity].
    apply shape_eqb_eq in B. contradiction.
  - destruct (match _fix_vleak l with
              | Some t0 => check (variable_of_shape t0 [layer_units l])
              | None => _
              end g1) as [[v g2]|]; [|reflexivity].
    destruct (per_unit_variable (layer_units l) (_fix_gleak l) _ _ g2)
      as [[gl g3]|]; [|reflexivity].
    rewrite E, per_unit_variable_fixed.
    destruct (shape_eqb (shape t) [layer_units l]) eqn:B; [|reflexivity].
    apply shape_eqb_eq in B. contradiction.
Qed.

(** X20: when [build] succeeds, a leak potential, leak conductance or
    capacitance fixed by the user is installed as given, without a draw. *)
Theorem fixed_parameters_are_installed
        (l : Layer) (pre : list nat) (m : nat) (g g' : G) (c : LTSCell) :
  draws_as_requested F G ->
  build (pre ++ [m]) l g = Some (c, g') ->
  (forall t, _fix_vleak l = Some t -> vleak c = t) /\
  (forall t, _fix_gleak l = Some t -> gleak c = t) /\
  (forall t, _fix_cm l = Some t -> cm_t c = t).
Proof.
  intros D E.
  destruct (build_prefix l pre m g D)
    as (smu & ssg & sW & se & mu0 & sg0 & W0 & e0 & bm & g1 & E0).
  rewrite E0 in E. clear E0. unfold init_bind in E.
  destruct (match _fix_vleak l with
            | Some t0 => check (variable_of_shape t0 [layer_units l])
            | None => _
            end g1) as [[v g2]|] eqn:Ev; [|discriminate].
  destruct (per_unit_variable (layer_units l) (_fix_gleak l) _ _ g2)
    as [[gl g3]|] eqn:Eg; [|discriminate].
  destruct (per_unit_variable (layer_units l) (_fix_cm l) _ _ g3)
    as [[cm g4]|] eqn:Ec; [|discriminate].
  unfold init_ret in E. inversion E; subst; clear E. cbn [vleak gleak cm_t].
  repeat split; intros t Ht.
  - rewrite Ht in Ev. unfold check, variable_of_shape in Ev.
    destruct (shape_eqb (shape t) [layer_units l]); now inversion Ev.
  - rewrite Ht, per_unit_variable_fixed in Eg.
    destruct (shape_eqb (shape t) [layer_units l]); now inversion Eg.
  - rewrite Ht, per_unit_variable_fixed in Ec.
    destruct (shape_eqb (shape t) [layer_units l]); now inversion Ec.
Qed.

End ConstructionFacts.

(** * The further properties on concrete cells *)

Import Samples RationalRuntime RealCell.

Lemma configured_trained_cell : configured trained_cell 3 2.
Proof.
  constructor; try reflexivity; try lia; try exact I; left; reflexivity.
Qed.

Lemma input_mapping_is_affine_witness :
  _map_weights_and_biases Rational.input trained_cell =
  Some (mkTensor [1; 3]
          (map (fun i => fadd (fmul (vget (data Rational.input) i)
                                    (vget (data weights) i))
                              (vget (data biases) i))
               (seq 0 3)),
        trained_cell, 0).
Proof.
  apply (@input_mapping_is_affine _ _ trained_cell 3 2 Rational.input
           weights biases).
  - apply configured_trained_cell.
  - reflexivity.
  - reflexivity.
  - reflexivity.
Defined.

Lemma first_input_mapping_is_identity_witness :
  exists c',
    _map_weights_and_biases Rational.input default_cell =
      Some (Rational.input, c', 0) /\
    _input_weights c' = Some (ones 3) /\
    _input_biases c' = Some (zeros 3) /\
    same_variables default_cell c'.
Proof.
  apply (@first_input_mapping_is_identity _ _ default_cell 3 2 Rational.input).
  - intros y. apply Qcanon.Qcmult_1_r.
  - intros y. apply Qcanon.Qcplus_0_r.
  - apply configured_cell.
  - reflexivity.
  - reflexivity.
  - split; reflexivity.
Defined.

Lemma feature_count_mismatch_raises_witness :
  _map_weights_and_biases narrow_input default_cell = None /\
  call narrow_input (PTuple [Rational.state0]) default_cell = None.
Proof.
  apply (@feature_count_mismatch_raises _ _ default_cell 3 2 2 narrow_input).
  - apply configured_cell.
  - reflexivity.
  - lia.
  - lia.
  - lia.
Defined.

Lemma single_feature_input_is_broadcast_witness :
  exists w b,
    _input_weights (with_input_map trained_cell) = Some w /\
    _input_biases (with_input_map trained_cell) = Some b /\
    _map_weights_and_biases single_input trained_cell =
    Some (mkTensor [1; 3]
            (map (fun i => fadd (fmul (vget (data single_input) 0)
                                      (vget (data w) i))
                                (vget (data b) i))
                 (seq 0 3)),
          with_input_map trained_cell, 0).
Proof.
  apply (@single_feature_input_is_broadcast _ _ trained_cell 3 2 single_input).
  - apply configured_trained_cell.
  - reflexivity.
Defined.

Lemma tuple_and_tensor_state_agree_witness :
  call Rational.input (PTuple [Rational.state0]) default_cell =
  call Rational.input (PTensor Rational.state0) default_cell.
Proof.
  apply (@tuple_and_tensor_state_agree _ _ default_cell 3 2 Rational.input
           Rational.state0).
  - apply configured_cell.
  - reflexivity.
  - split; reflexivity.
  - simpl. lia.
Defined.

Lemma zero_unfolds_returns_state_witness :
  call Rational.input (PTensor flat_state) zero_unfold_cell =
  Some ((PTensor flat_state, PTensor flat_state),
        with_input_map zero_unfold_cell, 0).
Proof.
  apply (@zero_unfolds_returns_state _ _ zero_unfold_cell 3 2 Rational.input).
  - apply configured_cell.
  - reflexivity.
  - reflexivity.
Defined.

Lemma flat_vector_state_raises_witness :
  call Rational.input (PTensor flat_state) default_cell = None.
Proof.
  apply (@flat_vector_state_raises _ _ default_cell 3 2 Rational.input flat_state).
  - apply configured_cell.
  - reflexivity.
  - reflexivity.
  - simpl. lia.
Defined.

Lemma empty_state_tuple_raises_witness :
  call Rational.input (PTuple []) default_cell = None.
Proof.
  apply (@empty_state_tuple_raises _ _ default_cell 3 2 Rational.input).
  - apply configured_cell.
  - reflexivity.
  - simpl. lia.
Defined.

Lemma steps_chain_witness :
  exists output next c' k,
    call Rational.input (PTuple [Rational.state0]) default_cell =
      Some ((output, next), c', k) /\
    configured c' 3 2 /\
    (exists t', state_of 2 next t') /\
    exists r k', call other_input next c' = Some (r, c', k').
Proof.
  apply (@steps_chain _ _ default_cell 3 2 Rational.input other_input
           (PTuple [Rational.state0]) Rational.state0).
  - apply configured_cell.
  - reflexivity.
  - reflexivity.
  - apply state_of_tuple_state0.
Defined.

Lemma sigmoid_on_batch_witness :
  exists r,
    _sigmoid batch (mu default_cell) (sigma default_cell) = Some r /\
    shape r = [2; 2; 2] /\
    forall b i j, b < 2 -> i < 2 -> j < 2 ->
      get r [b; i; j] =
      fsigmoid (fmul (get (sigma default_cell) [i; j])
                     (fsub (get batch [b; i]) (get (mu default_cell) [i; j]))).
Proof.
  apply (@sigmoid_on_batch _ _ 2 2 2 batch (mu default_cell) (sigma default_cell)).
  - lia.
  - reflexivity.
  - reflexivity.
  - reflexivity.
Defined.

Lemma sigmoid_length_mismatch_raises_witness :
  _sigmoid long_row (mu default_cell) (sigma default_cell) = None.
Proof.
  apply (@sigmoid_length_mismatch_raises _ _ 1 3 2 2 long_row
           (mu default_cell) (sigma default_cell)).
  - lia.
  - reflexivity.
  - reflexivity.
  - lia.
  - lia.
  - lia.
Defined.

Lemma state_width_mismatch_raises_witness :
  call Rational.input (PTensor wide_state) default_cell = None.
Proof.
  apply (@state_width_mismatch_raises _ _ default_cell 3 2 3 Rational.input
           (PTensor wide_state) wide_state).
  - apply configured_cell.
  - reflexivity.
  - apply state_tensor. split; reflexivity.
  - lia.
  - lia.
  - lia.
  - lia.
  - simpl. lia.
Defined.

Section RealWitnesses.

Import Reals Lra.
#[local] Open Scope R_scope.

Lemma int_one : Real.int 1 = 1%Z.
Proof.
  unfold Real.int. destruct (Rle_dec 0 1) as [_ | H]; [|exfalso; lra].
  symmetry. apply Int_part_spec. simpl. lra.
Qed.

Lemma configured_real_cell (w sw : list R) : configured (RealCell.cell w sw) 1 2.
Proof.
  constructor; try reflexivity; try lia; try exact I;
    try (left; reflexivity).
  apply int_one.
Qed.

Lemma state_of_real_state0 :
  state_of 2 (PTuple [RealCell.state0]) RealCell.state0.
Proof. apply state_tuple. split; reflexivity. Qed.

Ltac small_index i :=
  destruct i as [|[|[|i]]]; try lia.

Lemma drift_stays_within_potentials_witness :
  exists v,
    _sde_solver_drift RealCell.input (PTuple [RealCell.state0]) weighted_cell =
      Some (v, weighted_cell, 6%nat) /\
    entries_within (data v) 2 (-1) 1.
Proof.
  apply (@drift_stays_within_potentials weighted_cell 1 2 RealCell.input
           (PTuple [RealCell.state0]) RealCell.state0 (-1) 1).
  - apply configured_real_cell.
  - reflexivity.
  - apply state_of_real_state0.
  - intros j Hj. unfold unit_entry, vget. simpl. lra.
  - split; intros i j Hi Hj; small_index i; small_index j;
      unfold get; simpl; lra.
  - split; [|split].
    + intros j Hj. small_index j; unfold unit_entry, vget; simpl; lra.
    + intros i j Hi Hj. small_index i; small_index j; unfold get; simpl; lra.
    + intros i j Hi Hj. small_index i; small_index j; unfold get; simpl; lra.
  - intros j Hj. small_index j; unfold vget; simpl; lra.
Defined.

Lemma leak_decays_geometrically_witness :
  exists v,
    _sde_solver_drift RealCell.input (PTuple [RealCell.state0]) leaky_cell =
      Some (v, leaky_cell, 6%nat) /\
    forall j, (j < 2)%nat ->
      vget (data v) j - unit_entry (vleak leaky_cell) j =
      leak_ratio leaky_cell j ^ 6 *
      (vget (data RealCell.state0) j - unit_entry (vleak leaky_cell) j).
Proof.
  apply (@leak_decays_geometrically leaky_cell 1 2 RealCell.input
           (PTuple [RealCell.state0]) RealCell.state0).
  - apply configured_real_cell.
  - repeat constructor.
  - repeat constructor.
  - reflexivity.
  - apply state_of_real_state0.
  - intros j Hj. unfold unit_entry, vget. simpl. lra.
Defined.

End RealWitnesses.

Lemma cycle_in_range (lo hi : Z) (s : list nat) (g : nat) :
  (lo < hi)%Z -> Forall (fun z => (lo <= z < hi)%Z) (cycle lo hi s g).
Proof.
  intros H. unfold cycle. apply Forall_map, Forall_forall.
  intros i _. pose proof (Z.mod_pos_bound (Z.of_nat i) (hi - lo)). lia.
Qed.

Lemma draws_as_requested_Qc : draws_as_requested Qcanon.Qc nat.
Proof.
  constructor.
  - reflexivity.
  - intros lo hi s g H. apply cycle_in_range. exact H.
  - reflexivity.
Qed.

Lemma build_gives_configured_cell_witness :
  exists c g',
    build ([1] ++ [3]) (__init__ 2) 0 = Some (c, g') /\
    configured c 3 (layer_units (__init__ (F := Qcanon.Qc) 2)) /\
    _input_weights c = None /\ _input_biases c = None.
Proof.
  apply (@build_gives_configured_cell _ _ _ _ (__init__ 2) [1] 3 0).
  - apply draws_as_requested_Qc.
  - repeat split.
  - reflexivity.
  - simpl. lia.
  - lia.
Defined.

Lemma built_cell_steps_witness :
  exists c g' next c',
    build ([1] ++ [3]) (__init__ 2) 0 = Some (c, g') /\
    call Rational.input (PTuple [Rational.state0]) c =
      Some ((next, next), c', 36) /\
    state_shape next = Some [1; 2].
Proof.
  apply (@built_cell_steps _ _ _ _ 2 [1] 3 0 Rational.input
           (PTuple [Rational.state0]) Rational.state0).
  - apply draws_as_requested_Qc.
  - reflexivity.
  - lia.
  - lia.
  - reflexivity.
  - apply state_of_tuple_state0.
Defined.

Lemma default_conductances_are_scalars_witness :
  exists c g',
    build ([1] ++ [3]) (__init__ 2) 0 = Some (c, g') /\
    gleak c = scalar (of_Q (QArith_base.Qmake 1 1)) /\
    cm_t c = scalar (of_Q (QArith_base.Qmake 1 2)).
Proof.
  destruct (build ([1] ++ [3]) (__init__ (F := Qcanon.Qc) 2) 0)
    as [[c g']|] eqn:E.
  - exists c, g'. split; [reflexivity|].
    apply (@default_conductances_are_scalars _ _ _ _ 2 [1] 3 0 g' c
             draws_as_requested_Qc E).
  - exfalso. vm_compute in E. discriminate E.
Defined.

Lemma reversal_potentials_are_signs_witness :
  exists c g',
    build ([1] ++ [3]) (__init__ 2) 0 = Some (c, g') /\
    Forall (fun e => e = of_Q (QArith_base.inject_Z 1) \/
                     e = of_Q (QArith_base.inject_Z (- (1))))
           (data (sensory_erev c)) /\
    Forall (fun e => e = of_Q (QArith_base.inject_Z 1) \/
                     e = of_Q (QArith_base.inject_Z (- (1))))
           (data (erev c)).
Proof.
  destruct (build ([1] ++ [3]) (__init__ (F := Qcanon.Qc) 2) 0)
    as [[c g']|] eqn:E.
  - exists c, g'. split; [reflexivity|].
    apply (@reversal_potentials_are_signs _ _ _ (__init__ 2) [1] 3 0 g' c
             draws_as_requested_Qc (conj eq_refl (conj eq_refl eq_refl)) E).
  - exfalso. vm_compute in E. discriminate E.
Defined.

Lemma fixed_parameter_of_wrong_shape_raises_witness :
  build ([1] ++ [3]) (fixed_layer 2 Samples.weights) 0 = None.
Proof.
  apply (@fixed_parameter_of_wrong_shape_raises _ _ _
           (fixed_layer 2 Samples.weights) [1] 3 0).
  - apply draws_as_requested_Qc.
  - left. exists Samples.weights. split; [reflexivity|]. discriminate.
Defined.

Lemma fixed_parameters_are_installed_witness :
  exists c g',
    build ([1] ++ [3]) (fixed_layer 2 flat_state) 0 = Some (c, g') /\
    (forall t, _fix_vleak (fixed_layer 2 flat_state) = Some t -> vleak c = t) /\
    (forall t, _fix_gleak (fixed_layer 2 flat_state) = Some t -> gleak c = t) /\
    (forall t, _fix_cm (fixed_layer 2 flat_state) = Some t -> cm_t c = t).
Proof.
  destruct (build ([1] ++ [3]) (fixed_layer 2 flat_state) 0)
    as [[c g']|] eqn:E.
  - exists c, g'. split; [reflexivity|].
    apply (@fixed_parameters_are_installed _ _ _
             (fixed_layer 2 flat_state) [1] 3 0 g' c draws_as_requested_Qc E).
  - exfalso. vm_compute in E. discriminate E.
Defined.

(** * The scaffolding script *)

Section TempletFacts.

Import String.
Import Templet.
#[local] Open Scope string_scope.
#[local] Open Scope list_scope.

Lemma lookup_here (f : fs) (p : path) (n : node) : lookup ((p, n) :: f) p = Some n.
Proof. simpl. destruct (path_eq_dec p p); [reflexivity | contradiction]. Qed.

Lemma lookup_there (f : fs) (p q : path) (n : node) :
  q <> p -> lookup ((q, n) :: f) p = lookup f p.
Proof. intros H. simpl. destruct (path_eq_dec q p); [contradiction | reflexivity]. Qed.

Lemma lookup_bound (f : fs) (p : path) (n : node) :
  lookup f p = Some n -> In p (map fst f).
Proof.
  induction f as [|[q m] f IH]; simpl; [discriminate|].
  destruct (path_eq_dec q p) as [-> | _]; [now left | right; auto].
Qed.

Lemma bound_lookup (f : fs) (p : path) :
  In p (map fst f) -> exists n, lookup f p = Some n.
Proof.
  induction f as [|[q m] f IH]; simpl; [contradiction|].
  intros [E | H]; destruct (path_eq_dec q p); eauto; contradiction.
Qed.

Lemma parent_snoc (d : path) (x : string) : parent (d ++ [x]) = d.
Proof. apply removelast_last. Qed.

Lemma evolves_refl (D W K : path -> Prop) (f : fs) : evolves D W K f f.
Proof. intros p. now left. Qed.

Lemma evolves_trans (D W K : path -> Prop) (f f1 f2 : fs) :
  evolves D W K f f1 -> evolves D W K f1 f2 -> evolves D W K f f2.
Proof.
  intros H1 H2 p. specialize (H1 p). specialize (H2 p). unfold fares in *.
  destruct H2 as [E2 | [(N2 & E2 & P2) | [(N2 & E2 & P2) | (N2 & E2 & P2)]]];
  destruct H1 as [E1 | [(N1 & E1 & P1) | [(N1 & E1 & P1) | (N1 & E1 & P1)]]];
    try (rewrite E1 in *; clear E1); try congruence;
    try (left; congruence);
    try (right; left; repeat split; (assumption || congruence));
    try (right; right; left; repeat split; (assumption || congruence));
    try (right; right; right; repeat split; (assumption || congruence)).
  all: right; right; left; repeat split; trivial; congruence.
Qed.

Lemma evolves_weaken (D W K D' W' K' : path -> Prop) (f f1 : fs) :
  (forall p, D p -> D' p) -> (forall p, W p -> W' p) -> (forall p, K p -> K' p) ->
  evolves D W K f f1 -> evolves D' W' K' f f1.
Proof.
  intros HD HW HK H p. specialize (H p). unfold fares in *.
  destruct H as [E | [(N & E & P) | [(N & E & P) | (N & E & P)]]]; auto 10.
Qed.

(* what persists along an evolution *)
Lemma evolves_dir (D W K : path -> Prop) (f f1 : fs) (p : path) :
  evolves D W K f f1 -> isdir f p = true -> isdir f1 p = true.
Proof.
  intros H Hd. destruct p as [|a p]; [reflexivity|].
  unfold isdir in *. specialize (H (a :: p)). unfold fares in H.
  destruct (lookup f (a :: p)) as [[|c]|] eqn:E; try discriminate.
  destruct H as [-> | [(N & _) | [(N & _) | (N & _)]]];
    trivial; congruence.
Qed.

Lemma evolves_empty_file (D W K : path -> Prop) (f f1 : fs) (p : path) :
  evolves D W K f f1 ->
  lookup f p = Some (File "") -> lookup f1 p = Some (File "").
Proof.
  intros H E. specialize (H p). unfold fares in H.
  destruct H as [-> | [(N & _) | [(_ & E1 & _) | (N & _)]]];
    trivial; congruence.
Qed.

Lemma evolves_bound (D W K : path -> Prop) (f f1 : fs) (p : path) (n : node) :
  evolves D W K f f1 ->
  lookup f p = Some n -> exists n', lookup f1 p = Some n'.
Proof.
  intros H E. specialize (H p). unfold fares in H.
  destruct H as [E1 | [(N & _) | [(_ & E1 & _) | (N & _)]]];
    try congruence; eauto.
  rewrite E1. eauto.
Qed.

Lemma mkdir_ok (p : path) (f f1 : fs) :
  mkdir p f = Ok f1 ->
  p <> [] /\ lookup f p = None /\ isdir f (parent p) = true /\
  f1 = (p, Dir) :: f.
Proof.
  unfold mkdir. destruct p as [|a p]; [discriminate|].
  destruct (lookup f (a :: p)); [discriminate|].
  destruct (isdir f (parent (a :: p))); [|discriminate].
  intros H. inversion H. repeat split. discriminate.
Qed.

Lemma prefix_of_refl (p : path) : p <> [] -> prefix_of p p.
Proof. intros H. split; [exact H|]. exists []. now rewrite app_nil_r. Qed.

Lemma prefix_of_snoc (p r : path) (x : string) :
  prefix_of p r -> prefix_of p (r ++ [x]).
Proof.
  intros [H [s ->]]. split; [exact H|]. exists (s ++ [x]).
  now rewrite app_assoc.
Qed.

Lemma evolves_mkdir (p : path) (f : fs) (D : path -> Prop) :
  lookup f p = None -> D p ->
  evolves D nowhere nowhere f ((p, Dir) :: f).
Proof.
  intros N HD r. unfold fares.
  destruct (path_eq_dec p r) as [<- | Hne].
  - right. left. rewrite lookup_here. auto.
  - left. now apply lookup_there.
Qed.

Lemma makedirs_rev_ok (rp : list string) (f f1 : fs) :
  makedirs_rev rp f = Ok f1 ->
  isdir f1 (rev rp) = true /\
  evolves (fun p => prefix_of p (rev rp)) nowhere nowhere f f1.
Proof.
  revert f f1. induction rp as [|t rhead IH]; intros f f1; [discriminate|].
  cbn [makedirs_rev].
  set (above := match rhead with
                | [] => Ok f
                | _ :: _ => _
                end).
  assert (Ha : forall fa, above = Ok fa ->
                 evolves (fun p => prefix_of p (rev (t :: rhead)))
                         nowhere nowhere f fa).
  { intros fa. unfold above. destruct rhead as [|h rh].
    - intros E. inversion E. apply evolves_refl.
    - destruct (present f (rev (h :: rh))).
      + intros E. inversion E. apply evolves_refl.
      + destruct (makedirs_rev (h :: rh) f) as [f0|e] eqn:Er.
        * intros E. inversion E; subst.
          apply IH in Er. destruct Er as [_ Er].
          apply evolves_weaken with (4 := Er); trivial.
          intros p Hp. simpl. now apply prefix_of_snoc.
        * destruct e; intros E; inversion E. apply evolves_refl. }
  destruct above as [fa|e]; [|discriminate].
  specialize (Ha fa eq_refl).
  destruct (mkdir (rev (t :: rhead)) fa) as [f2|e] eqn:Em.
  - intros E. inversion E; subst.
    apply mkdir_ok in Em. destruct Em as (Hn & Hl & _ & ->).
    split.
    + unfold isdir. destruct (rev (t :: rhead)); [contradiction|].
      now rewrite lookup_here.
    + apply evolves_trans with (1 := Ha).
      apply evolves_mkdir; trivial. now apply prefix_of_refl.
  - destruct (isdir fa (rev (t :: rhead))) eqn:Ed; [|discriminate].
    intros E. inversion E; subst. now split.
Qed.

Lemma makedirs_ok (d : path) (f f1 : fs) :
  makedirs d f = Ok f1 ->
  isdir f1 d = true /\
  evolves (fun p => prefix_of p d) nowhere nowhere f f1.
Proof.
  unfold makedirs. intros H. apply makedirs_rev_ok in H.
  now rewrite rev_involutive in H.
Qed.

Lemma open_w_ok (p : path) (f f1 : fs) :
  open_w p f = Ok f1 ->
  p <> [] /\ lookup f p <> Some Dir /\ isdir f (parent p) = true /\
  f1 = (p, File "") :: f.
Proof.
  unfold open_w. destruct p as [|a p]; [discriminate|].
  destruct (lookup f (a :: p)) as [[|c]|]; try discriminate;
    destruct (isdir f (parent (a :: p))); try discriminate;
    intros H; inversion H; repeat split; discriminate.
Qed.

Lemma evolves_open_w (p : path) (f f1 : fs) (W : path -> Prop) :
  open_w p f = Ok f1 -> W p -> evolves nowhere W nowhere f f1.
Proof.
  intros H HW. apply open_w_ok in H. destruct H as (_ & Hd & _ & ->).
  intros r. unfold fares.
  destruct (path_eq_dec p r) as [<- | Hne].
  - right. right. left. rewrite lookup_here. auto.
  - left. now apply lookup_there.
Qed.

Lemma entries_bound (d : path) (x : string) (f : fs) (n : node) :
  lookup f (d ++ [x]) = Some n -> In x (entries d f).
Proof.
  intros H. apply lookup_bound in H. apply in_map_iff in H.
  destruct H as (b & Eb & Hb). unfold entries. apply in_flat_map.
  exists b. split; [exact Hb|]. destruct b as [k m]. simpl in Eb. subst k.
  cbn [fst].
  destruct (d ++ [x]) as [|a r] eqn:E; [now destruct d|].
  rewrite <- E, parent_snoc.
  destruct (path_eq_dec d d); [|contradiction].
  rewrite last_last. now left.
Qed.

Lemma entries_inv (d : path) (x : string) (f : fs) :
  In x (entries d f) -> exists n, lookup f (d ++ [x]) = Some n.
Proof.
  unfold entries. intros H. apply in_flat_map in H.
  destruct H as (b & Hb & Hx).
  destruct (fst b) as [|a r] eqn:E; [contradiction|].
  destruct (path_eq_dec (parent (a :: r)) d) as [Ep | _]; [|contradiction].
  destruct Hx as [<- | []].
  apply bound_lookup. rewrite <- Ep. unfold parent.
  rewrite <- app_removelast_last by discriminate.
  rewrite <- E. now apply in_map.
Qed.

Lemma gitkeep_ok (d : path) (f f1 : fs) :
  gitkeep d f = Ok f1 ->
  isdir f d = true /\
  ((f1 = f /\ exists x, In x (entries d f)) \/
   (entries d f = [] /\ lookup f (d ++ [".gitkeep"]) = None /\
    f1 = (d ++ [".gitkeep"], File "") :: f)).
Proof.
  unfold gitkeep, listdir. destruct (isdir f d) eqn:Ed; [|discriminate].
  destruct (nodup string_dec (entries d f)) as [|x l] eqn:En.
  - intros H. split; trivial. right.
    assert (Ee : entries d f = []).
    { destruct (entries d f) as [|y l] eqn:E; trivial.
      assert (Hy : In y (nodup string_dec (y :: l)))
        by (apply nodup_In; now left).
      rewrite En in Hy. contradiction. }
    split; trivial.
    assert (Hn : lookup f (d ++ [".gitkeep"]) = None).
    { destruct (lookup f (d ++ [".gitkeep"])) as [n|] eqn:El; trivial.
      apply entries_bound in El. rewrite Ee in El. contradiction. }
    split; trivial.
    apply open_w_ok in H. tauto.
  - intros H. inversion H; subst. split; trivial. left. split; trivial.
    exists x. apply (nodup_In string_dec). rewrite En. now left.
Qed.

Lemma evolves_gitkeep (d : path) (f f1 : fs) (K : path -> Prop) :
  gitkeep d f = Ok f1 -> K (d ++ [".gitkeep"]) ->
  evolves nowhere nowhere K f f1.
Proof.
  intros H HK. apply gitkeep_ok in H.
  destruct H as (_ & [(-> & _) | (_ & Hn & ->)]); [apply evolves_refl|].
  intros r. unfold fares.
  destruct (path_eq_dec (d ++ [".gitkeep"]) r) as [<- | Hne].
  - right. right. right. rewrite lookup_here. auto.
  - left. now apply lookup_there.
Qed.

Lemma for_each_evolves (A : Type) (step : A -> fs -> result fs) (l : list A)
      (D W K : path -> Prop) (f f' : fs) :
  (forall a g g1, In a l -> step a g = Ok g1 -> evolves D W K g g1) ->
  for_each step l f = Ok f' -> evolves D W K f f'.
Proof.
  revert f. induction l as [|a l IH]; intros f Hs; simpl.
  - intros E. inversion E. apply evolves_refl.
  - destruct (step a f) as [f1|e] eqn:E1; [|discriminate].
    intros E. apply evolves_trans with (f1 := f1).
    + apply (Hs a f f1); [now left | exact E1].
    + apply IH; [|exact E]. intros b g g1 Hb. apply Hs. now right.
Qed.

Lemma for_each_keeps (A : Type) (step : A -> fs -> result fs) (l : list A)
      (Q : fs -> Prop) (f f' : fs) :
  (forall b g g1, In b l -> step b g = Ok g1 -> Q g -> Q g1) ->
  for_each step l f = Ok f' -> Q f -> Q f'.
Proof.
  revert f. induction l as [|b l IH]; intros f H; simpl.
  - intros E HQ. inversion E; subst. exact HQ.
  - destruct (step b f) as [f1|e] eqn:E1; [|discriminate].
    intros E HQ. apply IH with (f := f1); trivial.
    + intros c g g1 Hc. apply H. now right.
    + apply (H b f f1); trivial. now left.
Qed.

Lemma for_each_post (A : Type) (step : A -> fs -> result fs) (l : list A)
      (P : A -> fs -> Prop) (f f' : fs) :
  (forall a g g1, In a l -> step a g = Ok g1 -> P a g1) ->
  (forall a b g g1, In b l -> step b g = Ok g1 -> P a g -> P a g1) ->
  for_each step l f = Ok f' -> forall a, In a l -> P a f'.
Proof.
  revert f. induction l as [|b l IH]; intros f H1 H2; simpl.
  - intros _ a [].
  - destruct (step b f) as [f1|e] eqn:E1; [|discriminate].
    intros E a [<- | Ha].
    + apply for_each_keeps with (2 := E).
      * intros c g g1 Hc. apply H2. now right.
      * apply (H1 b f f1); [now left | exact E1].
    + apply IH with (f := f1); trivial.
      * intros a0 g g1 Ha0. apply H1. now right.
      * intros a0 b0 g g1 Hb0. apply H2. now right.
Qed.

Lemma scaffold_phases (ds fl : list path) (f f' : fs) :
  scaffold ds fl f = Ok f' ->
  exists f1 f2,
    for_each makedirs ds f = Ok f1 /\
    for_each open_w fl f1 = Ok f2 /\
    for_each gitkeep ds f2 = Ok f'.
Proof.
  unfold scaffold.
  destruct (for_each makedirs ds f) as [f1|e] eqn:E1; [|discriminate].
  destruct (for_each open_w fl f1) as [f2|e] eqn:E2; [|discriminate].
  intros H. exists f1, f2. repeat split; assumption.
Qed.

Lemma makedirs_phase (ds : list path) (W K : path -> Prop) (f f1 : fs) :
  for_each makedirs ds f = Ok f1 ->
  evolves (on_the_way ds) W K f f1.
Proof.
  apply for_each_evolves. intros d g g1 Hd E.
  apply makedirs_ok in E. destruct E as [_ E].
  apply evolves_weaken with (4 := E); try contradiction.
  intros p Hp. now exists d.
Qed.

Lemma open_phase (fl : list path) (D K : path -> Prop) (f f1 : fs) :
  for_each open_w fl f = Ok f1 ->
  evolves D (fun p => In p fl) K f f1.
Proof.
  apply for_each_evolves. intros p g g1 Hp E.
  apply evolves_weaken
    with (4 := @evolves_open_w p g g1 (fun q => In q fl) E Hp);
    trivial; contradiction.
Qed.

Lemma gitkeep_phase (ds : list path) (D W : path -> Prop) (f f1 : fs) :
  for_each gitkeep ds f = Ok f1 ->
  evolves D W (keep_file ds) f f1.
Proof.
  apply for_each_evolves. intros d g g1 Hd E.
  assert (HK : keep_file ds (d ++ [".gitkeep"])) by now exists d.
  apply evolves_weaken
    with (4 := @evolves_gitkeep d g g1 (keep_file ds) E HK);
    trivial; contradiction.
Qed.

(** X21: when the script completes, every path has fared in one of four
    ways: it is as before; or it is a directory newly made on the way to a
    listed directory; or it is a listed file, made or emptied; or it is a
    [.gitkeep] newly made in a listed directory.  So nothing is removed,
    and an entry that is not a listed file is as it was. *)
Theorem scaffold_touches_only_its_paths (ds fl : list path) (f f' : fs) :
  scaffold ds fl f = Ok f' ->
  evolves (on_the_way ds) (fun p => In p fl) (keep_file ds) f f' /\
  forall p n, lookup f p = Some n -> ~ In p fl -> lookup f' p = Some n.
Proof.
  intros H. destruct (scaffold_phases _ _ _ H) as (f1 & f2 & E1 & E2 & E3).
  assert (Ev : evolves (on_the_way ds) (fun p => In p fl) (keep_file ds) f f').
  { apply evolves_trans with (f1 := f2); [|now apply gitkeep_phase].
    apply evolves_trans with (f1 := f1);
      [now apply makedirs_phase | now apply open_phase]. }
  split; [exact Ev|].
  intros p n Hl Hn. specialize (Ev p). unfold fares in Ev.
  destruct Ev as [E | [(N & _) | [(_ & _ & Hw) | (N & _)]]];
    congruence || contradiction.
Qed.

(** X22: when the script completes, every listed directory is a directory
    and every listed file is an empty regular file, whatever it held
    before. *)
Theorem scaffold_makes_dirs_and_empty_files (ds fl : list path) (f f' : fs) :
  scaffold ds fl f = Ok f' ->
  (forall d, In d ds -> isdir f' d = true) /\
  (forall p, In p fl -> lookup f' p = Some (File "")).
Proof.
  intros H. destruct (scaffold_phases _ _ _ H) as (f1 & f2 & E1 & E2 & E3).
  pose proof (open_phase fl nowhere nowhere _ E2) as V2.
  pose proof (gitkeep_phase ds nowhere nowhere _ E3) as V3.
  split.
  - intros d Hd.
    apply evolves_dir with (1 := V3). apply evolves_dir with (1 := V2).
    revert d Hd.
    apply for_each_post with (P := fun d g => isdir g d = true) (3 := E1).
    + intros a g g1 _ E. now apply makedirs_ok in E.
    + intros a b g g1 _ E Hg. apply makedirs_ok in E. destruct E as [_ E].
      now apply evolves_dir with (1 := E).
  - intros p Hp.
    apply evolves_empty_file with (1 := V3).
    revert p Hp.
    apply for_each_post
      with (P := fun p g => lookup g p = Some (File "")) (3 := E2).
    + intros a g g1 _ E. apply open_w_ok in E.
      destruct E as (_ & _ & _ & ->). apply lookup_here.
    + intros a b g g1 Hb E Hg.
      apply evolves_empty_file
        with (1 := @evolves_open_w b g g1 (fun q => In q fl) E Hb). exact Hg.
Qed.

(** X23: when the script completes, no listed directory is empty:
    [os.listdir] answers a non-empty list for each of them. *)
Theorem scaffold_leaves_no_listed_dir_empty (ds fl : list path) (f f' : fs) :
  scaffold ds fl f = Ok f' ->
  forall d, In d ds -> exists x l, listdir d f' = Ok (x :: l).
Proof.
  intros H d Hd. destruct (scaffold_phases _ _ _ H) as (f1 & f2 & E1 & E2 & E3).
  assert (P : isdir f' d = true /\ exists x, In x (entries d f')).
  { revert d Hd.
    apply for_each_post
      with (P := fun d g => isdir g d = true /\ exists x, In x (entries d g))
           (3 := E3).
    - intros a g g1 _ E. apply gitkeep_ok in E.
      destruct E as (Ha & [(-> & Hx) | (_ & _ & ->)]); [now split|].
      split.
      + destruct a as [|a0 a]; [reflexivity|].
        unfold isdir in *. rewrite lookup_there; trivial.
        intros Eq. apply (f_equal (@List.length string)) in Eq.
        rewrite length_app in Eq. simpl in Eq. lia.
      + exists ".gitkeep". apply entries_bound with (n := File "").
        apply lookup_here.
    - intros a b g g1 Hb E (Ha & x & Hx).
      assert (HK : keep_file ds (b ++ [".gitkeep"])) by now exists b.
      pose proof (@evolves_gitkeep b g g1 (keep_file ds) E HK) as V. split.
      + now apply evolves_dir with (1 := V).
      + apply entries_inv in Hx. destruct Hx as [n Hn].
        destruct (evolves_bound _ V Hn) as [n' Hn'].
        exists x. now apply entries_bound with (n := n'). }
  destruct P as (Pd & x & Hx). unfold listdir. rewrite Pd.
  apply (nodup_In string_dec) in Hx.
  destruct (nodup string_dec (entries d f')) as [|y l]; [contradiction|].
  now exists y, l.
Qed.

(** ** Running the script again *)

Lemma snoc_neq (p : path) (x : string) : p ++ [x] <> p.
Proof.
  intros E. apply (f_equal (@List.length string)) in E.
  rewrite length_app in E. simpl in E. lia.
Qed.

Lemma parent_neq (p : path) : p <> [] -> parent p <> p.
Proof.
  intros H E. destruct (exists_last H) as (r & x & ->).
  rewrite parent_snoc in E. symmetry in E. now apply snoc_neq in E.
Qed.

Lemma present_evolves (D W K : path -> Prop) (f f1 : fs) (p : path) :
  evolves D W K f f1 -> present f p = true -> present f1 p = true.
Proof.
  intros V H. unfold present in *.
  destruct (lookup f p) as [n|] eqn:E; [|discriminate].
  destruct (evolves_bound _ V E) as [n' ->]. reflexivity.
Qed.

Lemma isdir_present (g : fs) (p : path) :
  p <> [] -> isdir g p = true -> present g p = true.
Proof.
  intros Hp. unfold isdir, present. destruct p; [contradiction|].
  now destruct (lookup g (s :: p)) as [[|c]|].
Qed.

(* with nothing at the path itself, [makedirs] does not raise
   FileExistsError *)
Lemma makedirs_rev_not_exists (rp : list string) (g : fs) :
  lookup g (rev rp) = None -> makedirs_rev rp g <> Raise FileExistsError.
Proof.
  destruct rp as [|t rhead]; [discriminate|]. intros Hn.
  cbn [makedirs_rev].
  set (above := match rhead with
                | [] => Ok g
                | _ :: _ => _
                end).
  assert (Ha : (exists e, above = Raise e /\ e <> FileExistsError) \/
               (exists fa, above = Ok fa /\ lookup fa (rev (t :: rhead)) = None)).
  { unfold above. destruct rhead as [|h rh]; [right; eauto|].
    destruct (present g (rev (h :: rh))); [right; eauto|].
    destruct (makedirs_rev (h :: rh) g) as [f0|e] eqn:Er.
    - right. exists f0. split; trivial.
      apply makedirs_rev_ok in Er. destruct Er as [_ Er].
      specialize (Er (rev (t :: h :: rh))). unfold fares in Er.
      destruct Er as [E | [(_ & _ & (_ & r & Hr)) | [(_ & _ & []) | (_ & _ & [])]]];
        [congruence|].
      exfalso. apply (f_equal (@List.length string)) in Hr.
      cbn [rev] in Hr. rewrite !length_app in Hr. simpl in Hr. lia.
    - destruct e; [right; eauto | left | left | left];
        eexists; (split; [reflexivity | discriminate]). }
  destruct Ha as [(e & -> & He) | (fa & -> & Hl)].
  - congruence.
  - unfold mkdir. destruct (rev (t :: rhead)) as [|a r] eqn:Er.
    + destruct (rev rhead); discriminate.
    + rewrite Hl. destruct (isdir fa (parent (a :: r))); [discriminate|].
      unfold isdir. rewrite Hl. unfold no_parent.
      destruct (present fa (parent (a :: r))); discriminate.
Qed.

Lemma makedirs_rev_above (t h : string) (rh : list string) (f : fs) :
  makedirs_rev (t :: h :: rh) f =
  match (if present f (rev (h :: rh)) then Ok f
         else match makedirs_rev (h :: rh) f with
              | Ok f1 => Ok f1
              | Raise FileExistsError => Ok f
              | Raise e => Raise e
              end) with
  | Raise e => Raise e
  | Ok f1 =>
      match mkdir (rev (t :: h :: rh)) f1 with
      | Ok f2 => Ok f2
      | Raise e => if isdir f1 (rev (t :: h :: rh)) then Ok f1 else Raise e
      end
  end.
Proof. reflexivity. Qed.

Lemma makedirs_settles (d : path) (g g1 : fs) :
  makedirs d g = Ok g1 -> settled_dir g1 d.
Proof.
  intros H. pose proof (makedirs_ok _ _ H) as [Hd V].
  unfold makedirs in H.
  assert (Hne : d <> []).
  { intros ->. discriminate. }
  split; [exact Hne|]. split; [exact Hd|].
  destruct (rev d) as [|t rhead] eqn:Er.
  { apply (f_equal (@rev string)) in Er. rewrite rev_involutive in Er.
    contradiction. }
  assert (Ed : d = rev rhead ++ [t]).
  { apply (f_equal (@rev string)) in Er. now rewrite rev_involutive in Er. }
  rewrite Ed, parent_snoc.
  destruct rhead as [|h rh]; [now left|]. right.
  rewrite makedirs_rev_above in H.
  destruct (present g (rev (h :: rh))) eqn:Ep.
  - now apply present_evolves with (1 := V).
  - destruct (makedirs_rev (h :: rh) g) as [f0|e] eqn:Ea.
    + pose proof (makedirs_rev_ok _ _ Ea) as [Hd0 _].
      assert (V0 : evolves (fun p => prefix_of p d) nowhere nowhere f0 g1).
      { destruct (mkdir (rev (t :: h :: rh)) f0) as [f2|e] eqn:Em.
        - injection H as ->. apply mkdir_ok in Em.
          destruct Em as (_ & Hl & _ & ->).
          apply evolves_mkdir; trivial.
          rewrite Ed. apply prefix_of_refl. now destruct (rev (h :: rh)).
        - destruct (isdir f0 (rev (t :: h :: rh))); [|discriminate].
          injection H as ->. apply evolves_refl. }
      apply present_evolves with (1 := V0).
      apply isdir_present; trivial. cbn [rev]. now destruct (rev rh).
    + exfalso. destruct e; try discriminate.
      apply (makedirs_rev_not_exists (h :: rh) g); trivial.
      unfold present in Ep. now destruct (lookup g (rev (h :: rh))).
Qed.

Lemma makedirs_settled (d : path) (g : fs) :
  settled_dir g d -> makedirs d g = Ok g.
Proof.
  intros (Hne & Hd & Hp). unfold makedirs.
  destruct (rev d) as [|t rhead] eqn:Er.
  { apply (f_equal (@rev string)) in Er. rewrite rev_involutive in Er.
    contradiction. }
  assert (Ed : d = rev rhead ++ [t]).
  { apply (f_equal (@rev string)) in Er. now rewrite rev_involutive in Er. }
  cbn [makedirs_rev].
  assert (Ea : match rhead with
               | [] => Ok g
               | _ :: _ =>
                   if present g (rev rhead) then Ok g
                   else match makedirs_rev rhead g with
                        | Ok f1 => Ok f1
                        | Raise FileExistsError => Ok g
                        | Raise e => Raise e
                        end
               end = Ok g).
  { destruct rhead as [|h rh]; trivial.
    rewrite Ed, parent_snoc in Hp. destruct Hp as [Hp | ->]; trivial.
    cbn [rev] in Hp. now destruct (rev rh). }
  rewrite Ea. change (rev rhead ++ [t]) with (rev (t :: rhead)).
  rewrite <- Er, rev_involutive.
  unfold mkdir. destruct d as [|a r]; [contradiction|].
  unfold isdir in Hd. destruct (lookup g (a :: r)) as [[|c]|] eqn:El;
    try discriminate.
  unfold isdir. now rewrite El.
Qed.

Lemma settled_dir_evolves (D W K : path -> Prop) (f f1 : fs) (d : path) :
  evolves D W K f f1 -> settled_dir f d -> settled_dir f1 d.
Proof.
  intros V (Hne & Hd & Hp). split; [exact Hne|]. split.
  - now apply evolves_dir with (1 := V).
  - destruct Hp as [Hp | Hp]; [now left | right].
    now apply present_evolves with (1 := V).
Qed.

Lemma settled_file_evolves (D W K : path -> Prop) (f f1 : fs) (p : path) :
  evolves D W K f f1 -> settled_file f p -> settled_file f1 p.
Proof.
  intros V (Hne & Hl & Hp). split; [exact Hne|]. split.
  - now apply evolves_empty_file with (1 := V).
  - now apply evolves_dir with (1 := V).
Qed.

Lemma inhabited_evolves (D W K : path -> Prop) (f f1 : fs) (d : path) :
  evolves D W K f f1 -> inhabited f d -> inhabited f1 d.
Proof.
  intros V (Hd & x & n & Hl). split.
  - now apply evolves_dir with (1 := V).
  - destruct (evolves_bound _ V Hl) as [n' Hn']. now exists x, n'.
Qed.

Lemma open_w_settles (p : path) (g g1 : fs) :
  open_w p g = Ok g1 -> settled_file g1 p.
Proof.
  intros H. apply open_w_ok in H. destruct H as (Hne & _ & Hp & ->).
  split; [exact Hne|]. split; [apply lookup_here|].
  destruct (parent p) as [|a r] eqn:E; [reflexivity|].
  unfold isdir in *. rewrite lookup_there; trivial.
  intros Eq. apply (parent_neq Hne). congruence.
Qed.

Lemma gitkeep_inhabits (d : path) (g g1 : fs) :
  gitkeep d g = Ok g1 -> inhabited g1 d.
Proof.
  intros H. apply gitkeep_ok in H.
  destruct H as (Hd & [(-> & x & Hx) | (_ & _ & ->)]).
  - split; trivial. apply entries_inv in Hx. destruct Hx as [n Hn].
    now exists x, n.
  - split.
    + destruct d as [|a r]; [reflexivity|].
      unfold isdir in *. rewrite lookup_there; trivial. apply snoc_neq.
    + exists ".gitkeep", (File ""). apply lookup_here.
Qed.

Lemma gitkeep_inhabited (d : path) (g : fs) :
  inhabited g d -> gitkeep d g = Ok g.
Proof.
  intros (Hd & x & n & Hl). unfold gitkeep, listdir. rewrite Hd.
  apply entries_bound in Hl. apply (nodup_In string_dec) in Hl.
  now destruct (nodup string_dec (entries d g)).
Qed.

Lemma for_each_fixed (A : Type) (step : A -> fs -> result fs) (l : list A)
      (g : fs) :
  (forall a, In a l -> step a g = Ok g) -> for_each step l g = Ok g.
Proof.
  induction l as [|a l IH]; intros H; simpl; trivial.
  rewrite (H a (or_introl eq_refl)). apply IH. intros b Hb. apply H. now right.
Qed.

Lemma open_w_again (fl : list path) (g : fs) :
  (forall p, In p fl -> settled_file g p) ->
  exists g', for_each open_w fl g = Ok g' /\ same_lookups g' g /\
             forall d, isdir g' d = isdir g d.
Proof.
  revert g. induction fl as [|p fl IH]; intros g H.
  - exists g. repeat split.
  - destruct (H p (or_introl eq_refl)) as (Hne & Hl & Hp).
    assert (E : open_w p g = Ok ((p, File "") :: g)).
    { unfold open_w. destruct p as [|a r]; [contradiction|].
      now rewrite Hl, Hp. }
    assert (S : same_lookups ((p, File "") :: g) g).
    { intros r. destruct (path_eq_dec p r) as [<- | Hn].
      - now rewrite lookup_here.
      - now apply lookup_there. }
    assert (Sd : forall d, isdir ((p, File "") :: g) d = isdir g d).
    { intros d. unfold isdir. now rewrite S. }
    destruct (IH ((p, File "") :: g)) as (g' & E' & S' & Sd').
    { intros r Hr. destruct (H r (or_intror Hr)) as (R1 & R2 & R3).
      split; trivial. split; [now rewrite S | now rewrite Sd]. }
    exists g'. simpl. rewrite E. split; trivial. split.
    + intros r. now rewrite S', S.
    + intros d. now rewrite Sd', Sd.
Qed.

(** X24: the script can be run again: a second run on the file system a
    completed run has left completes too and changes no lookup. *)
Theorem scaffold_runs_again (ds fl : list path) (f f1 : fs) :
  scaffold ds fl f = Ok f1 ->
  exists f2, scaffold ds fl f1 = Ok f2 /\ same_lookups f2 f1.
Proof.
  intros H. destruct (scaffold_phases _ _ _ H) as (g1 & g2 & E1 & E2 & E3).
  pose proof (open_phase fl nowhere nowhere _ E2) as V2.
  pose proof (gitkeep_phase ds nowhere nowhere _ E3) as V3.
  assert (Sd : forall d, In d ds -> settled_dir f1 d).
  { intros d Hd.
    apply settled_dir_evolves with (1 := V3).
    apply settled_dir_evolves with (1 := V2).
    revert d Hd.
    apply for_each_post with (P := fun d g => settled_dir g d) (3 := E1).
    - intros a g g' _ E. now apply makedirs_settles in E.
    - intros a b g g' _ E Hg. apply makedirs_ok in E. destruct E as [_ E].
      now apply settled_dir_evolves with (1 := E). }
  assert (Sf : forall p, In p fl -> settled_file f1 p).
  { intros p Hp.
    apply settled_file_evolves with (1 := V3).
    revert p Hp.
    apply for_each_post with (P := fun p g => settled_file g p) (3 := E2).
    - intros a g g' _ E. now apply open_w_settles in E.
    - intros a b g g' Hb E Hg.
      apply settled_file_evolves
        with (1 := @evolves_open_w b g g' (fun q => In q fl) E Hb).
      exact Hg. }
  assert (Si : forall d, In d ds -> inhabited f1 d).
  { apply for_each_post with (P := fun d g => inhabited g d) (3 := E3).
    - intros a g g' _ E. now apply gitkeep_inhabits in E.
    - intros a b g g' Hb E Hg.
      assert (HK : keep_file ds (b ++ [".gitkeep"])) by now exists b.
      apply inhabited_evolves
        with (1 := @evolves_gitkeep b g g' (keep_file ds) E HK).
      exact Hg. }
  destruct (open_w_again fl Sf) as (f2 & F2 & S2 & D2).
  exists f2. split; [|exact S2].
  unfold scaffold.
  rewrite for_each_fixed by (intros d Hd; apply makedirs_settled; auto).
  rewrite F2. apply for_each_fixed. intros d Hd. apply gitkeep_inhabited.
  destruct (Si d Hd) as (I1 & x & n & I2). split.
  - now rewrite D2.
  - exists x, n. now rewrite S2.
Qed.

(** ** When the script completes *)

Lemma for_each_completes (A : Type) (step : A -> fs -> result fs) (l : list A)
      (I : fs -> Prop) (f : fs) :
  (forall a g, In a l -> I g -> exists g1, step a g = Ok g1 /\ I g1) ->
  I f -> exists f', for_each step l f = Ok f' /\ I f'.
Proof.
  revert f. induction l as [|a l IH]; intros f Hs HI.
  - exists f. now split.
  - destruct (Hs a f (or_introl eq_refl) HI) as (g1 & E & HI1).
    destruct (IH g1) as (f' & E' & HI'); trivial.
    + intros b g Hb. apply Hs. now right.
    + exists f'. simpl. rewrite E. now split.
Qed.

Lemma clear_evolves (D : path -> Prop) (f f1 : fs) (q : path) :
  evolves D nowhere nowhere f f1 ->
  lookup f q = None \/ lookup f q = Some Dir ->
  lookup f1 q = None \/ lookup f1 q = Some Dir.
Proof.
  intros V H. destruct (V q) as [E | [(_ & E & _) | [(_ & _ & []) | (_ & _ & [])]]].
  - now rewrite E.
  - now right.
Qed.

Lemma mkdir_or_accept (p : path) (g : fs) :
  p <> [] -> isdir g (parent p) = true ->
  lookup g p = None \/ lookup g p = Some Dir ->
  exists g1, match mkdir p g with
             | Ok f2 => Ok f2
             | Raise e => if isdir g p then Ok g else Raise e
             end = Ok g1.
Proof.
  intros Hne Hp Hl. unfold mkdir, isdir at 2. destruct p as [|a r]; [contradiction|].
  destruct Hl as [-> | ->].
  - rewrite Hp. eauto.
  - eauto.
Qed.

Lemma makedirs_rev_completes (rp : list string) (g : fs) :
  rp <> [] ->
  (forall q, prefix_of q (rev rp) ->
             lookup g q = None \/ lookup g q = Some Dir) ->
  exists g1, makedirs_rev rp g = Ok g1.
Proof.
  revert g. induction rp as [|t rhead IH]; intros g Hne Hc; [contradiction|].
  assert (Hr : rev (t :: rhead) <> []).
  { cbn [rev]. now destruct (rev rhead). }
  destruct rhead as [|h rh].
  - cbn [makedirs_rev]. apply mkdir_or_accept; trivial.
    apply Hc. now apply prefix_of_refl.
  - assert (Hh : rev (h :: rh) <> []).
    { cbn [rev]. now destruct (rev rh). }
    assert (Hup : forall q, prefix_of q (rev (h :: rh)) ->
                            lookup g q = None \/ lookup g q = Some Dir).
    { intros q Hq. apply Hc.
      change (rev (t :: h :: rh)) with (rev (h :: rh) ++ [t]).
      now apply prefix_of_snoc. }
    assert (Hpar : parent (rev (t :: h :: rh)) = rev (h :: rh)).
    { change (rev (t :: h :: rh)) with (rev (h :: rh) ++ [t]).
      apply parent_snoc. }
    rewrite makedirs_rev_above.
    destruct (present g (rev (h :: rh))) eqn:Ep.
    + apply mkdir_or_accept; trivial.
      * rewrite Hpar. unfold present in Ep. unfold isdir.
        destruct (rev (h :: rh)) as [|a r] eqn:Er; trivial.
        destruct (Hup (a :: r)) as [E | E];
          [apply prefix_of_refl; discriminate | | ]; rewrite E in *;
          [discriminate | reflexivity].
      * apply Hc. now apply prefix_of_refl.
    + destruct (IH g) as [f0 E0]; [discriminate | exact Hup |].
      rewrite E0. apply makedirs_rev_ok in E0. destruct E0 as [Hd0 V0].
      apply mkdir_or_accept; trivial.
      * now rewrite Hpar.
      * apply clear_evolves with (1 := V0). apply Hc.
        now apply prefix_of_refl.
Qed.

Lemma isdir_write (p d : path) (g : fs) :
  lookup g p <> Some Dir -> isdir g d = true ->
  isdir ((p, File "") :: g) d = true.
Proof.
  intros Hp Hd. destruct d as [|a r]; [reflexivity|].
  unfold isdir in *. rewrite lookup_there; trivial.
  intros ->. now destruct (lookup g (a :: r)) as [[|c]|].
Qed.

(** X25: the script completes whenever no regular file stands at or above
    a listed directory and every listed file can be written: its path is
    not a directory, is not on the way to a listed directory, and lies in
    a listed or an existing directory. *)
Theorem scaffold_completes (ds fl : list path) (f : fs) :
  (forall d, In d ds -> clear_way f d) ->
  (forall p, In p fl -> writable ds f p) ->
  exists f', scaffold ds fl f = Ok f'.
Proof.
  intros Hd Hf. unfold scaffold.
  destruct (@for_each_completes _ makedirs ds
              (fun g => forall d, In d ds -> clear_way g d) f)
    as (g1 & E1 & _); trivial.
  { intros d g Hin Hg. destruct (Hg d Hin) as [Hne Hc].
    destruct (@makedirs_rev_completes (rev d) g) as [g1 E].
    - intros E. apply (f_equal (@rev string)) in E.
      now rewrite rev_involutive in E.
    - now rewrite rev_involutive.
    - exists g1. split; [exact E|].
      apply makedirs_ok in E. destruct E as [_ V].
      intros d' Hd'. destruct (Hg d' Hd') as [Hne' Hc'].
      split; trivial. intros q Hq.
      apply clear_evolves with (1 := V). now apply Hc'. }
  rewrite E1.
  pose proof (makedirs_phase ds nowhere nowhere _ E1) as V1.
  assert (D1 : forall d, In d ds -> isdir g1 d = true).
  { apply for_each_post with (P := fun d g => isdir g d = true) (3 := E1).
    - intros a g g' _ E. now apply makedirs_ok in E.
    - intros a b g g' _ E Hg. apply makedirs_ok in E. destruct E as [_ E].
      now apply evolves_dir with (1 := E). }
  destruct (@for_each_completes _ open_w fl
              (fun g => (forall d, In d ds -> isdir g d = true) /\
                        forall p, In p fl ->
                          p <> [] /\ lookup g p <> Some Dir /\
                          isdir g (parent p) = true) g1)
    as (g2 & E2 & D2 & _).
  { intros p g Hin [Hg1 Hg2]. destruct (Hg2 p Hin) as (Hne & Hl & Hp).
    exists ((p, File "") :: g). split.
    - unfold open_w. destruct p as [|a r]; [contradiction|].
      rewrite Hp. now destruct (lookup g (a :: r)) as [[|c]|].
    - split.
      + intros d Hd'. apply isdir_write; auto.
      + intros p' Hp'. destruct (Hg2 p' Hp') as (Hne' & Hl' & Hp'').
        split; trivial. split.
        * destruct (path_eq_dec p p') as [<- | Hn].
          -- rewrite lookup_here. discriminate.
          -- now rewrite lookup_there.
        * now apply isdir_write. }
  { split; trivial. intros p Hp.
    destruct (Hf p Hp) as (Hne & Hl & Hw & Hpar). split; trivial. split.
    - destruct (V1 p) as [E | [(_ & _ & Hon) | [(_ & _ & []) | (_ & _ & [])]]].
      + now rewrite E.
      + contradiction.
    - destruct Hpar as [Hpar | Hpar]; [now apply D1|].
      now apply evolves_dir with (1 := V1). }
  rewrite E2.
  destruct (@for_each_completes _ gitkeep ds
              (fun g => forall d, In d ds -> isdir g d = true) g2)
    as (g3 & E3 & _); trivial.
  { intros d g Hin Hg. unfold gitkeep, listdir. rewrite (Hg d Hin).
    destruct (nodup string_dec (entries d g)) as [|x l] eqn:En.
    - assert (Hl : lookup g (d ++ [".gitkeep"]) = None).
      { destruct (lookup g (d ++ [".gitkeep"])) as [n|] eqn:El; trivial.
        apply entries_bound in El. apply (nodup_In string_dec) in El.
        rewrite En in El. destruct El. }
      exists ((d ++ [".gitkeep"], File "") :: g). split.
      + unfold open_w. rewrite Hl, parent_snoc, (Hg d Hin).
        now destruct (d ++ [".gitkeep"]) eqn:Ed; [destruct d|].
      + intros d' Hd'. apply isdir_write; auto. rewrite Hl. discriminate.
    - exists g. now split. }
  exists g3. exact E3.
Qed.

(** ** Where no [.gitkeep] is written, and when the script stops *)

Lemma makedirs_phase_settles (ds : list path) (f g1 : fs) :
  for_each makedirs ds f = Ok g1 -> forall d, In d ds -> settled_dir g1 d.
Proof.
  intros E1.
  apply for_each_post with (P := fun d g => settled_dir g d) (3 := E1).
  - intros a g g' _ E. now apply makedirs_settles in E.
  - intros a b g g' _ E Hg. apply makedirs_ok in E. destruct E as [_ E].
    now apply settled_dir_evolves with (1 := E).
Qed.

Lemma open_phase_settles (fl : list path) (g1 g2 : fs) :
  for_each open_w fl g1 = Ok g2 -> forall p, In p fl -> settled_file g2 p.
Proof.
  intros E2.
  apply for_each_post with (P := fun p g => settled_file g p) (3 := E2).
  - intros a g g' _ E. now apply open_w_settles in E.
  - intros a b g g' Hb E Hg.
    apply settled_file_evolves
      with (1 := @evolves_open_w b g g' (fun q => In q fl) E Hb).
    exact Hg.
Qed.

Lemma isdir_lookup (g : fs) (p : path) :
  p <> [] -> isdir g p = true -> lookup g p = Some Dir.
Proof.
  intros Hp. unfold isdir. destruct p; [contradiction|].
  now destruct (lookup g (s :: p)) as [[|c]|].
Qed.

(** X26: a directory that holds a listed file gets no [.gitkeep]: unless
    the script lists that path itself, what stands at [d/.gitkeep] after a
    completed run is what stood there before. *)
Theorem no_gitkeep_beside_a_listed_file (ds fl : list path) (f f' : fs)
        (d : path) (x : string) :
  scaffold ds fl f = Ok f' ->
  In (d ++ [x]) fl ->
  ~ In (d ++ [".gitkeep"]) fl ->
  ~ on_the_way ds (d ++ [".gitkeep"]) ->
  lookup f' (d ++ [".gitkeep"]) = lookup f (d ++ [".gitkeep"]).
Proof.
  intros H Hp Hfl Hon.
  destruct (scaffold_phases _ _ _ H) as (g1 & g2 & E1 & E2 & E3).
  pose proof (makedirs_phase ds nowhere nowhere _ E1 (d ++ [".gitkeep"])) as V1.
  pose proof (open_phase fl nowhere nowhere _ E2 (d ++ [".gitkeep"])) as V2.
  assert (L1 : lookup g1 (d ++ [".gitkeep"]) = lookup f (d ++ [".gitkeep"])).
  { destruct V1 as [E | [(_ & _ & Hd) | [(_ & _ & []) | (_ & _ & [])]]];
      [exact E | contradiction]. }
  assert (L2 : lookup g2 (d ++ [".gitkeep"]) = lookup g1 (d ++ [".gitkeep"])).
  { destruct V2 as [E | [(_ & _ & []) | [(_ & _ & Hw) | (_ & _ & [])]]];
      [exact E | contradiction]. }
  rewrite <- L1, <- L2.
  destruct (open_phase_settles _ _ E2 _ Hp) as (_ & Hl & _).
  apply (@for_each_keeps _ gitkeep ds
           (fun g => lookup g (d ++ [".gitkeep"]) =
                     lookup g2 (d ++ [".gitkeep"]) /\
                     exists n, lookup g (d ++ [x]) = Some n) g2 f');
    [| exact E3 | split; eauto].
  intros b g g' Hb E [Q1 [n Q2]].
  assert (HK : keep_file ds (b ++ [".gitkeep"])) by now exists b.
  pose proof (@evolves_gitkeep b g g' (keep_file ds) E HK) as V.
  split; [|now apply evolves_bound with (1 := V) (n := n)].
  apply gitkeep_ok in E.
  destruct E as (_ & [(-> & _) | (He & _ & ->)]); trivial.
  rewrite lookup_there; trivial.
  intros Eq. apply app_inj_tail in Eq. destruct Eq as [-> _].
  apply entries_bound in Q2. rewrite He in Q2. destruct Q2.
Qed.

(** X27: the script stops with an error when a regular file stands where
    it wants a directory, or when a path it wants to write is a directory
    or one of its own directories. *)
Theorem scaffold_raises_on_a_clash (ds fl : list path) (f : fs) :
  (exists d c, In d ds /\ lookup f d = Some (File c)) \/
  (exists p, In p fl /\ (lookup f p = Some Dir \/ In p ds)) ->
  exists e, scaffold ds fl f = Raise e.
Proof.
  intros Hc. destruct (scaffold ds fl f) as [f'|e] eqn:H; [|eauto].
  exfalso.
  destruct (scaffold_phases _ _ _ H) as (g1 & g2 & E1 & E2 & E3).
  pose proof (makedirs_phase ds nowhere nowhere _ E1) as V1.
  pose proof (open_phase fl nowhere nowhere _ E2) as V2.
  pose proof (makedirs_phase_settles _ _ E1) as S1.
  pose proof (open_phase_settles _ _ E2) as S2.
  destruct Hc as [(d & c & Hd & Hl) | (p & Hp & Hl)].
  - destruct (S1 d Hd) as (Hne & Hdir & _).
    apply isdir_lookup in Hdir; trivial.
    destruct (V1 d) as [E | [(E & _) | [(_ & _ & []) | (_ & _ & [])]]];
      congruence.
  - destruct (S2 p Hp) as (Hne & Hfile & _).
    assert (Hdir : lookup g1 p = Some Dir).
    { apply isdir_lookup; trivial. destruct Hl as [Hl | Hl].
      - apply evolves_dir with (1 := V1). unfold isdir. rewrite Hl.
        now destruct p.
      - now destruct (S1 p Hl) as (_ & Hdir & _). }
    destruct (V2 p) as [E | [(_ & _ & []) | [(E & _) | (_ & _ & [])]]];
      congruence.
Qed.

End TempletFacts.

Section TempletWitnesses.
Import String.
Import Templet.
#[local] Open Scope string_scope.
#[local] Open Scope list_scope.

Lemma templet_project : scaffold dirs files project = Ok scaffolded.
Proof. vm_compute. reflexivity. Qed.

Lemma files_in_project (q : path) (c : string) :
  lookup project q = Some (File c) ->
  q = ["src"; "main.py"] \/ q = ["requirements.txt"].
Proof.
  intros H. pose proof (lookup_bound _ _ H) as Hin. simpl in Hin.
  destruct Hin as [<- | [<- | [<- | [<- | []]]]]; auto;
    vm_compute in H; discriminate.
Qed.

Lemma clear_way_project (d : path) : In d dirs -> clear_way project d.
Proof.
  intros Hd. split.
  - intros ->. simpl in Hd.
    repeat (destruct Hd as [Hd | Hd]; [discriminate|]). exact Hd.
  - intros q (_ & r & Hr).
    destruct (lookup project q) as [[|c]|] eqn:E; auto.
    exfalso. apply files_in_project in E. simpl in Hd.
    repeat (destruct Hd as [Hd | Hd];
            [subst d; destruct E as [-> | ->]; discriminate|]).
    exact Hd.
Qed.

Lemma not_on_the_way (p : path) :
  In p (["src"; ".gitkeep"] :: files) -> ~ on_the_way dirs p.
Proof.
  intros Hp (d & Hd & _ & r & Hr). simpl in Hd, Hp.
  repeat (destruct Hd as [Hd | Hd];
          [subst d;
           repeat (destruct Hp as [Hp | Hp]; [subst p; discriminate|]);
           destruct Hp|]).
  destruct Hd.
Qed.

Lemma writable_project (p : path) : In p files -> writable dirs project p.
Proof.
  intros Hp. split; [|split; [|split]].
  - intros ->. simpl in Hp.
    repeat (destruct Hp as [Hp | Hp]; [discriminate|]). exact Hp.
  - simpl in Hp.
    repeat (destruct Hp as [Hp | Hp]; [subst p; vm_compute; discriminate|]).
    destruct Hp.
  - apply not_on_the_way. now right.
  - simpl in Hp.
    repeat (destruct Hp as [Hp | Hp];
            [subst p; first [right; reflexivity | left; simpl; tauto]|]).
    destruct Hp.
Qed.

Lemma scaffold_touches_only_its_paths_witness :
  scaffold dirs files project = Ok scaffolded /\
  evolves (on_the_way dirs) (fun p => In p files) (keep_file dirs)
          project scaffolded /\
  forall p n, lookup project p = Some n -> ~ In p files ->
              lookup scaffolded p = Some n.
Proof.
  split; [exact templet_project|].
  exact (scaffold_touches_only_its_paths dirs files project templet_project).
Defined.

Lemma scaffold_makes_dirs_and_empty_files_witness :
  scaffold dirs files project = Ok scaffolded /\
  (forall d, In d dirs -> isdir scaffolded d = true) /\
  (forall p, In p files -> lookup scaffolded p = Some (File "")).
Proof.
  split; [exact templet_project|].
  exact (scaffold_makes_dirs_and_empty_files dirs files project
           templet_project).
Defined.

Lemma scaffold_leaves_no_listed_dir_empty_witness :
  scaffold dirs files project = Ok scaffolded /\
  forall d, In d dirs -> exists x l, listdir d scaffolded = Ok (x :: l).
Proof.
  split; [exact templet_project|].
  exact (scaffold_leaves_no_listed_dir_empty dirs files project
           templet_project).
Defined.

Lemma scaffold_runs_again_witness :
  scaffold dirs files project = Ok scaffolded /\
  exists f2, scaffold dirs files scaffolded = Ok f2 /\
             same_lookups f2 scaffolded.
Proof.
  split; [exact templet_project|].
  exact (scaffold_runs_again dirs files project templet_project).
Defined.

Lemma scaffold_completes_witness :
  (forall d, In d dirs -> clear_way project d) /\
  (forall p, In p files -> writable dirs project p) /\
  exists f', scaffold dirs files project = Ok f'.
Proof.
  split; [exact clear_way_project|]. split; [exact writable_project|].
  exact (@scaffold_completes dirs files project clear_way_project
           writable_project).
Defined.

Lemma no_gitkeep_beside_a_listed_file_witness :
  scaffold dirs files project = Ok scaffolded /\
  In (["src"] ++ ["__init__.py"]) files /\
  lookup scaffolded (["src"] ++ [".gitkeep"]) =
  lookup project (["src"] ++ [".gitkeep"]).
Proof.
  split; [exact templet_project|]. split; [simpl; tauto|].
  apply (@no_gitkeep_beside_a_listed_file dirs files project scaffolded
           ["src"] "__init__.py" templet_project).
  - simpl. tauto.
  - simpl. intros H.
    repeat (destruct H as [H | H]; [discriminate|]). exact H.
  - apply not_on_the_way. now left.
Defined.

Lemma scaffold_raises_on_a_clash_witness :
  In ["docs"] dirs /\
  lookup notes_in_the_way ["docs"] = Some (File "notes") /\
  exists e, scaffold dirs files notes_in_the_way = Raise e.
Proof.
  assert (Hd : In ["docs"] dirs) by (simpl; tauto).
  assert (Hl : lookup notes_in_the_way ["docs"] = Some (File "notes"))
    by reflexivity.
  split; [exact Hd|]. split; [exact Hl|].
  apply (@scaffold_raises_on_a_clash dirs files notes_in_the_way).
  left. exists ["docs"], "notes". split; [exact Hd | exact Hl].
Defined.

End TempletWitnesses.
